(** * cora.core.skysim: correlated sky realisations

    A shallow embedding of [src/cora/core/skysim.py] ([clarray], [mkfullsky],
    [mkfullsky_der1], [mkconstrained]) together with the properties of it that
    the specification states.

    Conventions of the embedding.
    - A numpy scalar is an element of an abstract carrier [K] with the
      arithmetic the code uses (class [Scalar]); float64 values are read as
      embedded in complex128, as numpy does when it upcasts.  The carrier is
      instantiated with binary64 floats and with exact rationals ([Qc]) to
      run the code on concrete inputs, and with [R] for the analytic scenario
      of the specification.
    - An ndarray is its shape together with its indexing function.
    - A Python exception is the [Raise] branch of [result]; functions that
      draw random numbers or call the factorisation thread a [world]. *)

From Stdlib Require Import String.
From Stdlib Require Import List ZArith QArith Qabs Qcanon Reals Floats.
From Stdlib Require Import Lia Lra Bool Arith.
Import ListNotations.

Close Scope float_scope.
Close Scope Qc_scope.
Close Scope Q_scope.
Close Scope R_scope.
Open Scope nat_scope.

Set Implicit Arguments.

(** ** Exceptions *)

Inductive exn : Type :=
| IndexError
| ValueError
| TypeError
| LinAlgError
| Exception (msg : string).

Inductive result (A : Type) : Type :=
| Ok (a : A)
| Raise (e : exn).

Arguments Ok {A} a.
Arguments Raise {A} e.

Definition rbind {A B} (m : result A) (k : A -> result B) : result B :=
  match m with
  | Ok a => k a
  | Raise e => Raise e
  end.

Definition is_raise {A} (m : result A) : Prop := exists e, m = Raise e.

Definition returns {A} (m : result A) : bool :=
  match m with
  | Ok _ => true
  | Raise _ => false
  end.

Declare Scope result_scope.
Delimit Scope result_scope with result.
Notation "x <- m ;; k" := (rbind m (fun x => k))
  (at level 61, m at next level, right associativity) : result_scope.
Notation "'check' b 'else' e ;; k" := (if b then k else Raise e)
  (at level 61, b at next level, e at next level, right associativity) : result_scope.

(** ** Scalars *)

Class Scalar (K : Type) : Type := {
  of_int : Z -> K;             (* int -> float conversion *)
  fadd : K -> K -> K;
  fsub : K -> K -> K;
  fmul : K -> K -> K;
  fdiv : K -> K -> K;          (* numpy division: never raises *)
  fopp : K -> K;               (* unary minus *)
  fabs : K -> K;
  fleb : K -> K -> bool;       (* [<=] *)
  lit_1em14 : K                (* the literal [1e-14] *)
}.

(** float64 *)
Definition float_of_Z (z : Z) : float :=
  match z with
  | Z0 => PrimFloat.zero
  | Zpos _ => PrimFloat.of_uint63 (Uint63.of_Z z)
  | Zneg _ => PrimFloat.opp (PrimFloat.of_uint63 (Uint63.of_Z (- z)))
  end.

#[export] Instance Scalar_float : Scalar float := {
  of_int := float_of_Z;
  fadd := PrimFloat.add;
  fsub := PrimFloat.sub;
  fmul := PrimFloat.mul;
  fdiv := PrimFloat.div;
  fopp := PrimFloat.opp;
  fabs := PrimFloat.abs;
  fleb := PrimFloat.leb;
  lit_1em14 := 0x1.6849b86a12b9bp-47%float
}.

(** Exact rationals *)
#[export] Instance Scalar_Qc : Scalar Qc := {
  of_int := fun z => Q2Qc (inject_Z z);
  fadd := Qcplus;
  fsub := Qcminus;
  fmul := Qcmult;
  fdiv := Qcdiv;
  fopp := Qcopp;
  fabs := fun x => Q2Qc (Qabs x);
  fleb := fun x y => Qle_bool x y;
  lit_1em14 := Q2Qc (1 # 100000000000000)
}.

(** Real numbers *)
#[export] Instance Scalar_R : Scalar R := {
  of_int := IZR;
  fadd := Rplus;
  fsub := Rminus;
  fmul := Rmult;
  fdiv := Rdiv;
  fopp := Ropp;
  fabs := Rabs;
  fleb := fun a b => if Rle_dec a b then true else false;
  lit_1em14 := (/ IZR (10 ^ 14))%R
}.

(** ** Python sequences *)

(** [xs[i]] for a non-negative index. *)
Definition getitem {A} (xs : list A) (i : nat) : result A :=
  match nth_error xs i with
  | Some x => Ok x
  | None => Raise IndexError
  end.

(** [xs[i] = x] for an index known to be in range. *)
Fixpoint setitem {A} (xs : list A) (i : nat) (x : A) : list A :=
  match xs, i with
  | [], _ => []
  | _ :: t, O => x :: t
  | h :: t, S i' => h :: setitem t i' x
  end.

(** [np.arange(n)] *)
Definition arange (n : Z) : list Z := map Z.of_nat (seq 0 (Z.to_nat n)).

(** [np.array_split(ary, n)] for an integer [n] (numpy/lib/shape_base.py):
    [n <= 0] is a [ValueError]; otherwise the first [len % n] sections have
    [len // n + 1] elements and the others [len // n]. *)
Fixpoint chunks {A} (ary : list A) (sizes : list nat) : list (list A) :=
  match sizes with
  | [] => []
  | s :: rest => firstn s ary :: chunks (skipn s ary) rest
  end.

Definition array_split {A} (ary : list A) (n : Z) : result (list (list A)) :=
  if (n <=? 0)%Z then Raise ValueError
  else
    let nsec := Z.to_nat n in
    let each := (length ary / nsec)%nat in
    let extras := (length ary mod nsec)%nat in
    Ok (chunks ary (repeat (S each) extras ++ repeat each (nsec - extras))).

(** The sample-count test of [scipy.integrate.romb]: the number of intervals
    must be a power of two. *)
Definition romb_count_ok (nsamps : nat) : bool :=
  let ninterv := (Z.of_nat nsamps - 1)%Z in
  ((0 <? ninterv) && (2 ^ Z.log2 ninterv =? ninterv))%Z.

Fixpoint position (l : Z) (ls : list Z) : option nat :=
  match ls with
  | [] => None
  | x :: rest =>
      if (x =? l)%Z then Some O
      else match position l rest with
           | Some p => Some (S p)
           | None => None
           end
  end.

Section Arrays.

Context {K : Type} `{Scalar K}.

Local Open Scope result_scope.

Definition zero : K := of_int 0.
Definition one : K := of_int 1.
Definition two : K := of_int 2.

Definition feqb (a b : K) : bool := fleb a b && fleb b a.

(** *** 1-d arrays *)

(** [np.sort] *)
Fixpoint insert_sorted (x : K) (xs : list K) : list K :=
  match xs with
  | [] => [x]
  | y :: ys => if fleb x y then x :: y :: ys else y :: insert_sorted x ys
  end.

Definition np_sort (xs : list K) : list K := fold_right insert_sorted [] xs.

(** [a.max()]: a [ValueError] on an empty array. *)
Definition np_max (xs : list K) : result K :=
  match xs with
  | [] => Raise ValueError
  | x :: rest => Ok (fold_left (fun m y => if fleb y m then m else y) rest x)
  end.

Fixpoint set_last (xs : list K) (v : K) : list K :=
  match xs with
  | [] => []
  | [_] => [v]
  | x :: rest => x :: set_last rest v
  end.

(** [np.linspace(start, stop, num)] with the default [endpoint=True]
    (numpy/core/function_base.py). *)
Definition linspace (start stop : K) (num : nat) : list K :=
  let div := (num - 1)%nat in
  let delta := fsub stop start in
  let y := map (fun i => of_int (Z.of_nat i)) (seq 0 num) in
  let y :=
    if (0 <? div)%nat then
      let step := fdiv delta (of_int (Z.of_nat div)) in
      if feqb step zero
      then map (fun v => fmul (fdiv v (of_int (Z.of_nat div))) delta) y
      else map (fun v => fmul v step) y
    else map (fun v => fmul v delta) y in
  let y := map (fun v => fadd v start) y in
  if (1 <? num)%nat then set_last y stop else y.

(** *** 2-d and 3-d arrays *)

Record matrix : Type := mkMatrix {
  nrows : nat;
  ncols : nat;
  mget : nat -> nat -> K
}.

Record tensor3 : Type := mkTensor3 {
  dim0 : nat;
  dim1 : nat;
  dim2 : nat;
  tget : nat -> nat -> nat -> K
}.

(** [f(ls[:, None, None], xs[None, :, None], ys[None, None, :])] for a
    function [f] that acts element by element and broadcasts. *)
Definition vectorize3 (f : Z -> K -> K -> K) (ls : list Z) (xs ys : list K)
  : tensor3 :=
  {| dim0 := length ls;
     dim1 := length xs;
     dim2 := length ys;
     tget := fun l i j => f (nth l ls 0%Z) (nth i xs zero) (nth j ys zero) |}.

Definition zeros3 (d0 d1 d2 : nat) : tensor3 :=
  {| dim0 := d0; dim1 := d1; dim2 := d2; tget := fun _ _ _ => zero |}.

(** The size that numpy broadcasting gives an axis from sizes [a] and [b]. *)
Definition bdim (a b : nat) : result nat :=
  if (a =? b)%nat then Ok a
  else if (a =? 1)%nat then Ok b
  else if (b =? 1)%nat then Ok a
  else Raise ValueError.

(** The index read on an axis of size [d] when it is broadcast. *)
Definition bidx (d i : nat) : nat := if (d =? 1)%nat then 0%nat else i.

(** Whether an axis of size [d] can be stored into one of size [target]. *)
Definition fits (d target : nat) : bool := ((d =? target) || (d =? 1))%nat.

(** [cla[lsec] = vals]: row [lsec[p]] of [cla] becomes row [p] of [vals],
    which is broadcast to [len(lsec)] rows of the shape of [cla]'s. *)
Definition assign_rows (cla : tensor3) (lsec : list Z) (vals : tensor3)
  : result tensor3 :=
  if fits (dim0 vals) (length lsec) && fits (dim1 vals) (dim1 cla)
     && fits (dim2 vals) (dim2 cla)
  then
    Ok {| dim0 := dim0 cla;
          dim1 := dim1 cla;
          dim2 := dim2 cla;
          tget := fun l i j =>
            match position (Z.of_nat l) lsec with
            | Some p => tget vals (bidx (dim0 vals) p) (bidx (dim1 vals) i)
                                  (bidx (dim2 vals) j)
            | None => tget cla l i j
            end |}
  else Raise ValueError.

(** *** Matrix operations *)

Record array4 : Type := mkArray4 {
  adim0 : nat;
  adim1 : nat;
  adim2 : nat;
  adim3 : nat;
  aget : nat -> nat -> nat -> nat -> K
}.

Definition zeros2 (r c : nat) : matrix :=
  {| nrows := r; ncols := c; mget := fun _ _ => zero |}.

Definition zeros4 (d0 d1 d2 d3 : nat) : array4 :=
  {| adim0 := d0; adim1 := d1; adim2 := d2; adim3 := d3;
     aget := fun _ _ _ _ => zero |}.

(** [c[l]] *)
Definition tensor_row (c : tensor3) (l : nat) : result matrix :=
  if (l <? dim0 c)%nat
  then Ok {| nrows := dim1 c; ncols := dim2 c; mget := tget c l |}
  else Raise IndexError.

(** [m.diagonal()] *)
Definition diagonal (m : matrix) : list K :=
  map (fun i => mget m i i) (seq 0 (Nat.min (nrows m) (ncols m))).

(** [np.identity(n)] *)
Definition identity (n : nat) : matrix :=
  {| nrows := n; ncols := n;
     mget := fun i j => if (i =? j)%nat then one else zero |}.

(** [m * c] for a scalar [c] *)
Definition mscale (m : matrix) (c : K) : matrix :=
  {| nrows := nrows m; ncols := ncols m;
     mget := fun i j => fmul (mget m i j) c |}.

(** [a + b] with broadcasting *)
Definition broadcast_add (a b : matrix) : result matrix :=
  r <- bdim (nrows a) (nrows b) ;;
  c <- bdim (ncols a) (ncols b) ;;
  Ok {| nrows := r; ncols := c;
        mget := fun i j =>
          fadd (mget a (bidx (nrows a) i) (bidx (ncols a) j))
               (mget b (bidx (nrows b) i) (bidx (ncols b) j)) |}.

(** [m.T] *)
Definition transpose (m : matrix) : matrix :=
  {| nrows := ncols m; ncols := nrows m; mget := fun i j => mget m j i |}.

(** The sum of the products [f k * g k] for [k < n]. *)
Definition dot_sum (n : nat) (f g : nat -> K) : K :=
  fold_left (fun acc k => fadd acc (fmul (f k) (g k))) (seq 0 n) zero.

(** [np.dot(a, b)] of two matrices *)
Definition np_dot (a b : matrix) : result matrix :=
  if (ncols a =? nrows b)%nat
  then Ok {| nrows := nrows a; ncols := ncols b;
             mget := fun i j =>
               dot_sum (ncols a) (fun k => mget a i k) (fun k => mget b k j) |}
  else Raise ValueError.

(** [np.dot(a, x)] of a matrix and a vector *)
Definition np_dot_vec (a : matrix) (x : list K) : result (list K) :=
  if (ncols a =? length x)%nat
  then Ok (map (fun i => dot_sum (ncols a) (fun k => mget a i k)
                                 (fun k => nth k x zero))
               (seq 0 (nrows a)))
  else Raise ValueError.

(** [alm[:, 0, l, :(l + 1)] = x] *)
Definition assign_alm (alm : array4) (l : nat) (x : matrix) : result array4 :=
  if ((0 <? adim1 alm) && (l <? adim2 alm))%nat then
    let w := Nat.min (l + 1) (adim3 alm) in
    if fits (nrows x) (adim0 alm) && fits (ncols x) w then
      Ok {| adim0 := adim0 alm; adim1 := adim1 alm;
            adim2 := adim2 alm; adim3 := adim3 alm;
            aget := fun z p l' m =>
              if ((p =? 0) && (l' =? l) && (m <? w))%nat
              then mget x (bidx (nrows x) z) (bidx (ncols x) m)
              else aget alm z p l' m |}
    else Raise ValueError
  else Raise IndexError.

(** [t[:, 0]] *)
Definition take_axis1_0 (t : tensor3) : result matrix :=
  if (0 <? dim1 t)%nat
  then Ok {| nrows := dim0 t; ncols := dim2 t;
             mget := fun i j => tget t i 0%nat j |}
  else Raise IndexError.

(** [m / v[:, None]] *)
Definition div_by_column (m : matrix) (v : list K) : result matrix :=
  r <- bdim (nrows m) (length v) ;;
  Ok {| nrows := r; ncols := ncols m;
        mget := fun i j =>
          fdiv (mget m (bidx (nrows m) i) j) (nth (bidx (length v) i) v zero) |}.

(** [np.array([a, b, c, d])] of four matrices of one shape. *)
Definition same_shape (a b : matrix) : bool :=
  ((nrows a =? nrows b) && (ncols a =? ncols b))%nat.

Definition stack4 (a b c d : matrix) : result tensor3 :=
  if same_shape a b && same_shape a c && same_shape a d then
    Ok {| dim0 := 4; dim1 := nrows a; dim2 := ncols a;
          tget := fun k i j =>
            match k with
            | 0%nat => mget a i j
            | 1%nat => mget b i j
            | 2%nat => mget c i j
            | _ => mget d i j
            end |}
  else Raise ValueError.

(** [m[i]] as a vector *)
Definition matrix_row (m : matrix) (i : nat) : result (list K) :=
  if (i <? nrows m)%nat
  then Ok (map (fun j => mget m i j) (seq 0 (ncols m)))
  else Raise IndexError.

(** [m[:, -n:]]: the slice starts at column 0 when [n] is 0 or exceeds the
    number of columns. *)
Definition last_cols (m : matrix) (n : nat) : matrix :=
  let start := if (n =? 0)%nat then 0%nat else (ncols m - n)%nat in
  {| nrows := nrows m; ncols := (ncols m - start)%nat;
     mget := fun i j => mget m i (start + j)%nat |}.

(** An index of an axis of size [n]; a negative one counts from the end. *)
Definition norm_index (n : nat) (i : Z) : result nat :=
  if ((0 <=? i) && (i <? Z.of_nat n))%Z then Ok (Z.to_nat i)
  else if ((i <? 0) && (- Z.of_nat n <=? i))%Z then Ok (Z.to_nat (Z.of_nat n + i))
  else Raise IndexError.

Fixpoint norm_indices (n : nat) (idx : list Z) : result (list nat) :=
  match idx with
  | [] => Ok []
  | i :: rest =>
      j <- norm_index n i ;;
      js <- norm_indices n rest ;;
      Ok (j :: js)
  end.

(** [m[:, idx]] for a list of integers [idx] *)
Definition take_cols (m : matrix) (idx : list Z) : result matrix :=
  js <- norm_indices (ncols m) idx ;;
  Ok {| nrows := nrows m; ncols := length js;
        mget := fun i c => mget m i (nth c js 0%nat) |}.

(** [t[i] = x] *)
Definition assign_mat3 (t : tensor3) (i : nat) (x : matrix) : result tensor3 :=
  if (i <? dim0 t)%nat then
    if fits (nrows x) (dim1 t) && fits (ncols x) (dim2 t) then
      Ok {| dim0 := dim0 t; dim1 := dim1 t; dim2 := dim2 t;
            tget := fun l r c =>
              if (l =? i)%nat
              then mget x (bidx (nrows x) r) (bidx (ncols x) c)
              else tget t l r c |}
    else Raise ValueError
  else Raise IndexError.

(** [m[:, i] = v] *)
Definition assign_col (m : matrix) (i : nat) (v : list K) : result matrix :=
  if (i <? ncols m)%nat then
    if fits (length v) (nrows m) then
      Ok {| nrows := nrows m; ncols := ncols m;
            mget := fun r c =>
              if (c =? i)%nat then nth (bidx (length v) r) v zero
              else mget m r c |}
    else Raise ValueError
  else Raise IndexError.

(** [m[:, i] = x] for a scalar [x] *)
Definition assign_col_scalar (m : matrix) (i : nat) (x : K) : result matrix :=
  if (i <? ncols m)%nat then
    Ok {| nrows := nrows m; ncols := ncols m;
          mget := fun r c => if (c =? i)%nat then x else mget m r c |}
  else Raise IndexError.

(** [m[i] = v] *)
Definition assign_row (m : matrix) (i : nat) (v : list K) : result matrix :=
  if (i <? nrows m)%nat then
    if fits (length v) (ncols m) then
      Ok {| nrows := nrows m; ncols := ncols m;
            mget := fun r c =>
              if (r =? i)%nat then nth (bidx (length v) c) v zero
              else mget m r c |}
    else Raise ValueError
  else Raise IndexError.

(** [for x in xs: s = body(s, x)] without a world *)
Fixpoint rfor {A S} (xs : list A) (body : S -> A -> result S) (s : S)
  : result S :=
  match xs with
  | [] => Ok s
  | x :: rest => s' <- body s x ;; rfor rest body s'
  end.

End Arrays.

Arguments matrix K : clear implicits.
Arguments tensor3 K : clear implicits.
Arguments array4 K : clear implicits.

(** ** The Spectral Integrator: [clarray] *)

Section Clarray.

Context {K : Type} `{Scalar K}.

(** [scipy.integrate.romb] on one line of [2^k + 1] samples with spacing
    [dx]; the library checks the number of samples ([romb_count_ok]). *)
Variable romb_samples : list K -> K -> K.

Open Scope result_scope.

(** Lines 62-73, the body of the loop over the multipole sections. *)
Definition clarray_section (aps : Z -> K -> K -> K) (zlen zint : nat)
    (za : list K) (zspace zhalf : K) (cla : tensor3 K) (lsec : list Z)
  : result (tensor3 K) :=
  let clt := vectorize3 aps lsec za za in
  (* clt.reshape(-1, zlen, zint, zlen, zint) *)
  check negb (zlen * zint * zlen * zint =? 0)%nat else ValueError ;;
  check (dim0 clt * dim1 clt * dim2 clt mod (zlen * zint * zlen * zint) =? 0)%nat
    else ValueError ;;
  let n0 := (dim0 clt * dim1 clt * dim2 clt / (zlen * zint * zlen * zint))%nat in
  let clt5 := fun l i a j b => tget clt l (i * zint + a) (j * zint + b) in
  (* si.romb(clt, dx=zspace, axis=4) *)
  check romb_count_ok zint else ValueError ;;
  let r4 := fun l i a j =>
    romb_samples (map (fun b => clt5 l i a j b) (seq 0 zint)) zspace in
  (* si.romb(clt, dx=zspace, axis=2) *)
  check romb_count_ok zint else ValueError ;;
  let r2 := fun l i j =>
    romb_samples (map (fun a => r4 l i a j) (seq 0 zint)) zspace in
  let norm := fmul (fmul two zhalf) (fmul two zhalf) in
  assign_rows cla lsec
    {| dim0 := n0; dim1 := zlen; dim2 := zlen;
       tget := fun l i j => fdiv (r2 l i j) norm |}.

Fixpoint clarray_loop (aps : Z -> K -> K -> K) (zlen zint : nat)
    (za : list K) (zspace zhalf : K) (cla : tensor3 K)
    (lsections : list (list Z)) : result (tensor3 K) :=
  match lsections with
  | [] => Ok cla
  | lsec :: rest =>
      cla' <- clarray_section aps zlen zint za zspace zhalf cla lsec ;;
      clarray_loop aps zlen zint za zspace zhalf cla' rest
  end.

Definition clarray (aps : Z -> K -> K -> K) (lmax : Z) (zarray : list K)
    (zromb : Z) (zwidth : option K) : result (tensor3 K) :=
  if (zromb =? 0)%Z then
    Ok (vectorize3 aps (arange (lmax + 1)) zarray zarray)
  else
    let zsort := np_sort zarray in
    zhalf <- match zwidth with
             | None =>
                 z1 <- getitem zsort 1 ;;
                 z0 <- getitem zsort 0 ;;
                 Ok (fdiv (fabs (fsub z1 z0)) two)
             | Some w => Ok (fdiv w two)
             end ;;
    let zlen := length zarray in
    (* 2 ** zromb is a float for a negative zromb, and np.linspace then
       rejects the sample count *)
    let zspace := fdiv (fmul two zhalf) (of_int (2 ^ zromb)) in
    check (0 <=? zromb)%Z else TypeError ;;
    let zint := Z.to_nat (2 ^ zromb + 1) in
    let za := flat_map (fun z => map (fadd z) (linspace (fopp zhalf) zhalf zint))
                       zarray in
    lsections <- array_split (arange (lmax + 1)) (lmax / 5) ;;
    let cla := zeros3 (Z.to_nat (lmax + 1)) zlen zlen in
    clarray_loop aps zlen zint za zspace zhalf cla lsections.

End Clarray.

(** ** The world of the synthesis functions *)

Section World.

Context {K : Type} `{Scalar K}.

(** The state of the process-wide random source. *)
Variable G : Type.

(** A call of [nputil.matrix_root_manynull]: the matrix and the keyword
    arguments of the call.  A keyword that the call does not pass is [None]. *)
Record root_call : Type := mkRootCall {
  rc_mat : matrix K;
  rc_truncate : option bool;
  rc_fixed_ev_sign_convention : option bool
}.

(** The calls to the collaborators that a run records. *)
Inductive call : Type :=
| CallNormal (shape : nat * nat)   (* nputil.complex_std_normal(shape) *)
| CallRoot (c : root_call).        (* nputil.matrix_root_manynull(...) *)

Record world : Type := mkWorld {
  rng : G;
  calls : list call
}.

Definition M (A : Type) : Type := world -> result A * world.

Definition ret {A} (a : A) : M A := fun w => (Ok a, w).

Definition bind {A B} (m : M A) (k : A -> M B) : M B :=
  fun w =>
    match m w with
    | (Ok a, w') => k a w'
    | (Raise e, w') => (Raise e, w')
    end.

Definition lift {A} (r : result A) : M A := fun w => (r, w).

Definition raise {A} (e : exn) : M A := fun w => (Raise e, w).

(** [for x in xs: s = body(s, x)] *)
Fixpoint for_ {A S} (xs : list A) (body : S -> A -> M S) (s : S) : M S :=
  match xs with
  | [] => ret s
  | x :: rest => bind (body s x) (for_ rest body)
  end.

End World.

Arguments world K G : clear implicits.
Arguments call K : clear implicits.
Arguments root_call K : clear implicits.
Arguments M K G A : clear implicits.
Arguments ret {K G A} a.
Arguments lift {K G A} r.
Arguments raise {K G A} e.

Declare Scope world_scope.
Delimit Scope world_scope with world.
Notation "x <- m ;; k" := (bind m (fun x => k))
  (at level 61, m at next level, right associativity) : world_scope.

(** The collaborators of the synthesis functions: [nputil] and [hputil] of
    this package and [numpy.gradient]. *)
Class Collaborators (K G : Type) : Type := {
  (* nputil.complex_std_normal(shape), drawing from the random source *)
  complex_std_normal : nat * nat -> G -> matrix K * G;
  (* nputil.matrix_root_manynull(mat, truncate=..., fixed_ev_sign_convention=...) *)
  matrix_root_manynull : root_call K -> result (matrix K);
  (* hputil.sphtrans_inv_sky(alm, nside) *)
  sphtrans_inv_sky : array4 K -> Z -> result (tensor3 K);
  (* hputil.sphtrans_inv_sky_der1(alm, nside) *)
  sphtrans_inv_sky_der1 :
    array4 K -> Z -> result (tensor3 K * tensor3 K * tensor3 K);
  (* np.gradient(f, x, axis=0) *)
  np_gradient : matrix K -> list K -> result (matrix K)
}.

(** ** The Realization Synthesizer: [mkfullsky] and [mkfullsky_der1] *)

Section Synthesis.

Context {K G : Type} `{Scalar K} `{Collaborators K G}.

Local Open Scope world_scope.

Definition draw (shape : nat * nat) : M K G (matrix K) :=
  fun w =>
    let (g, r) := complex_std_normal shape (rng w) in
    (Ok g, {| rng := r; calls := calls w ++ [(CallNormal shape : call K)] |}).

Definition call_root (c : root_call K) : M K G (matrix K) :=
  fun w =>
    (matrix_root_manynull c,
     {| rng := rng w; calls := calls w ++ [CallRoot c] |}).

(** The argument [corr]: an array or a list of arrays. *)
Inductive corr_arg : Type :=
| CorrArray (c : tensor3 K)
| CorrList (cs : list (tensor3 K)).

(** [if not isinstance(corr, list): corr = [corr]] *)
Definition as_list (corr : corr_arg) : list (tensor3 K) :=
  match corr with
  | CorrArray c => [c]
  | CorrList cs => cs
  end.

(** A bare result or a list of results. *)
Inductive output (A : Type) : Type :=
| Bare (a : A)
| Listed (l : list A).

(** [x[0] if ncorr == 1 else x] *)
Definition pack {A} (ncorr : nat) (xs : list A) : result (output A) :=
  if (ncorr =? 1)%nat then
    (x <- getitem xs 0 ;; Ok (Bare x))%result
  else Ok (Listed xs).

(** Lines 130-131 and 209-210: the matrix with the small diagonal added. *)
Definition regularized (numz : nat) (cl : matrix K) : result (matrix K) :=
  (mx <- np_max (diagonal cl) ;;
   let cmax := fmul mx lit_1em14 in
   broadcast_add cl (mscale (identity numz) cmax))%result.

(** The keywords of the factorisation call: [truncate=False] in both
    functions, and [fixed_ev_sign_convention] as [kw] has it. *)
Definition root_keywords (kw : option bool) (corrm : matrix K) : root_call K :=
  {| rc_mat := corrm;
     rc_truncate := Some false;
     rc_fixed_ev_sign_convention := kw |}.

(** Lines 129-136 and 208-213: the body of the loop over the tensors.  The
    two functions differ in the keywords of the factorisation call, [kw]
    being its [fixed_ev_sign_convention]. *)
Definition alm_step (kw : option bool) (corr : list (tensor3 K))
    (numz l : nat) (gaussvars : matrix K)
    (alm_list : list (array4 K)) (ii : nat) : M K G (list (array4 K)) :=
  c <- lift (getitem corr ii) ;;
  cl <- lift (tensor_row c l) ;;
  corrm <- lift (regularized numz cl) ;;
  trans <- call_root (root_keywords kw corrm) ;;
  x <- lift (np_dot trans gaussvars) ;;
  alm <- lift (getitem alm_list ii) ;;
  alm' <- lift (assign_alm alm l x) ;;
  ret (setitem alm_list ii alm').

(** Lines 123-136 and 202-213: one turn of the loop over the multipoles. *)
Definition alm_multipole (kw : option bool) (corr : list (tensor3 K))
    (gaussvars_list : option (list (matrix K))) (numz : nat)
    (alm_list : list (array4 K)) (l : nat) : M K G (list (array4 K)) :=
  gaussvars <- match gaussvars_list with
               | None => draw (numz, (l + 1)%nat)
               | Some gl => lift (getitem gl l)
               end ;;
  for_ (seq 0 (length corr)) (alm_step kw corr numz l gaussvars) alm_list.

(** Lines 106-136 and 185-213: the harmonic coefficients of every tensor. *)
Definition alm_lists (kw : option bool) (corr : corr_arg)
    (gaussvars_list : option (list (matrix K))) : M K G (list (array4 K)) :=
  let corr := as_list corr in
  let ncorr := length corr in
  c0 <- lift (getitem corr 0) ;;
  let numz := dim1 c0 in
  (* maxl = corr[0].shape[0] - 1, and every use of it is maxl + 1 *)
  let maxl1 := dim0 c0 in
  if negb (dim2 c0 =? numz)%nat
  then raise (Exception "Correlation matrix is incorrect shape.")
  else
    let alm_list := repeat (zeros4 numz 1 maxl1 maxl1) ncorr in
    for_ (seq 0 maxl1) (alm_multipole kw corr gaussvars_list numz) alm_list.

Inductive fullsky : Type :=
| Alms (a : output (array4 K))
| Sky (s : output (matrix K)).

Definition mkfullsky (corr : corr_arg) (nside : Z) (alms : bool)
    (gaussvars_list : option (list (matrix K))) : M K G fullsky :=
  alm_list <- alm_lists (Some true) corr gaussvars_list ;;
  let ncorr := length (as_list corr) in
  if alms then
    a <- lift (pack ncorr alm_list) ;; ret (Alms a)
  else
    sky <- for_ (seq 0 ncorr)
             (fun sky ii =>
                alm <- lift (getitem alm_list ii) ;;
                s <- lift (sphtrans_inv_sky alm nside) ;;
                s0 <- lift (take_axis1_0 s) ;;
                ret (sky ++ [s0]))
             [] ;;
    s <- lift (pack ncorr sky) ;; ret (Sky s).

Inductive fullsky_der1 : Type :=
| AlmsDer1 (a : output (array4 K))
| MapsDer1 (r : output (tensor3 K)).

Definition mkfullsky_der1 (corr : corr_arg) (nside : Z) (comovd : list K)
    (alms : bool) (gaussvars_list : option (list (matrix K)))
  : M K G fullsky_der1 :=
  alm_list <- alm_lists None corr gaussvars_list ;;
  let ncorr := length (as_list corr) in
  if alms then
    a <- lift (pack ncorr alm_list) ;; ret (AlmsDer1 a)
  else
    resmaps <- for_ (seq 0 ncorr)
             (fun resmaps ii =>
                alm <- lift (getitem alm_list ii) ;;
                t <- lift (sphtrans_inv_sky_der1 alm nside) ;;
                let '(sky, d_theta, d_phi) := t in
                s0 <- lift (take_axis1_0 sky) ;;
                d_x <- lift (np_gradient s0 comovd) ;;
                t0 <- lift (take_axis1_0 d_theta) ;;
                dt <- lift (div_by_column t0 comovd) ;;
                p0 <- lift (take_axis1_0 d_phi) ;;
                dp <- lift (div_by_column p0 comovd) ;;
                r <- lift (stack4 s0 dt dp d_x) ;;
                ret (resmaps ++ [r]))
             [] ;;
    r <- lift (pack ncorr resmaps) ;; ret (MapsDer1 r).

End Synthesis.

Arguments corr_arg K : clear implicits.
Arguments fullsky K : clear implicits.
Arguments fullsky_der1 K : clear implicits.

(** ** The synthesis, tensor by tensor

    What the loops of [alm_lists] do to one tensor, as functions of the
    tensor and of the noise alone. *)

Section SynthesisByTensor.

Context {K G : Type} `{Scalar K} `{Collaborators K G}.

Local Open Scope result_scope.

(** One turn of the inner loop, for the tensor [c] and its array [alm]. *)
Definition tensor_update (kw : option bool) (numz l : nat)
    (gaussvars : matrix K) (c : tensor3 K) (alm : array4 K)
  : result (array4 K) :=
  cl <- tensor_row c l ;;
  corrm <- regularized numz cl ;;
  trans <- matrix_root_manynull (root_keywords kw corrm) ;;
  x <- np_dot trans gaussvars ;;
  assign_alm alm l x.

(** All turns of the outer loop, for the tensor [c]: [lgs] pairs every
    multipole with its noise. *)
Definition tensor_alm (kw : option bool) (numz maxl1 : nat)
    (lgs : list (nat * matrix K)) (c : tensor3 K) : result (array4 K) :=
  rfor lgs (fun alm lg => tensor_update kw numz (fst lg) (snd lg) c alm)
       (zeros4 numz 1 maxl1 maxl1).

(** One turn of the outer loop on all tensors, and all turns. *)
Fixpoint zip_update (f : tensor3 K -> array4 K -> result (array4 K))
    (cs : list (tensor3 K)) (al : list (array4 K))
  : result (list (array4 K)) :=
  match cs, al with
  | c :: cs', a :: al' =>
      a' <- f c a ;;
      rest <- zip_update f cs' al' ;;
      Ok (a' :: rest)
  | _, _ => Ok []
  end.

Definition all_updates (kw : option bool) (numz : nat)
    (corr : list (tensor3 K)) (lgs : list (nat * matrix K))
    (al : list (array4 K)) : result (list (array4 K)) :=
  rfor lgs
    (fun al lg => zip_update (tensor_update kw numz (fst lg) (snd lg)) corr al)
    al.

(** The map of one tensor: lines 147-148. *)
Definition sky_of (nside : Z) (alm : array4 K) : result (matrix K) :=
  s <- sphtrans_inv_sky alm nside ;;
  take_axis1_0 s.

Definition tensor_sky (kw : option bool) (numz maxl1 : nat)
    (lgs : list (nat * matrix K)) (nside : Z) (c : tensor3 K)
  : result (matrix K) :=
  alm <- tensor_alm kw numz maxl1 lgs c ;;
  sky_of nside alm.

(** [f] on every element, in order. *)
Fixpoint rmap {A B} (f : A -> result B) (xs : list A) : result (list B) :=
  match xs with
  | [] => Ok []
  | x :: rest =>
      y <- f x ;;
      ys <- rmap f rest ;;
      Ok (y :: ys)
  end.

(** The entry of a result that belongs to the tensor [i] of the input. *)
Definition output_nth {A} (o : output A) (i : nat) : option A :=
  match o with
  | Bare a => if (i =? 0)%nat then Some a else None
  | Listed l => nth_error l i
  end.

(** The number of entries of a result that is a list, [None] for a bare
    result. *)
Definition listed_length {A} (o : output A) : option nat :=
  match o with
  | Bare _ => None
  | Listed l => Some (length l)
  end.

(** The factorisation calls and the noise draws among the calls of a run. *)
Definition root_calls_in (tr : list (call K)) : list (root_call K) :=
  flat_map (fun c => match c with CallRoot rc => [rc] | CallNormal _ => [] end) tr.

Definition draws_in (tr : list (call K)) : list (nat * nat) :=
  flat_map (fun c => match c with CallNormal s => [s] | CallRoot _ => [] end) tr.

(** The factorisation call [rc] is the one that the tensor [c] of [corr]
    gets at the multipole [l]: its matrix is [c[l]] with the diagonal of
    lines 130-131 added, and its keywords are [truncate=False] and [kw]. *)
Definition handed (kw : option bool) (corr : list (tensor3 K)) (numz l : nat)
    (c : tensor3 K) (rc : root_call K) : Prop :=
  In c corr
  /\ exists cl mx,
       tensor_row c l = Ok cl
       /\ np_max (diagonal cl) = Ok mx
       /\ broadcast_add cl (mscale (identity numz) (fmul mx lit_1em14))
          = Ok (rc_mat rc)
       /\ rc_truncate rc = Some false
       /\ rc_fixed_ev_sign_convention rc = kw.

(** The matrix of a result, and the empty matrix for an exception. *)
Definition matrix_of (r : result (matrix K)) : matrix K :=
  match r with
  | Ok m => m
  | Raise _ => zeros2 0 0
  end.

(** The factorisation call for the tensor [c] at the multipole [l]. *)
Definition root_call_for (kw : option bool) (numz l : nat) (c : tensor3 K)
  : root_call K :=
  root_keywords kw (matrix_of (cl <- tensor_row c l ;; regularized numz cl)).

(** The calls of one turn of the outer loop, and of all of them. *)
Definition multipole_calls (kw : option bool) (corr : list (tensor3 K))
    (drawn : bool) (numz l : nat) : list (call K) :=
  (if drawn then [CallNormal (numz, l + 1)] else [])
  ++ map (fun c => CallRoot (root_call_for kw numz l c)) corr.

Definition synthesis_calls (kw : option bool) (corr : list (tensor3 K))
    (drawn : bool) (numz : nat) (ls : list nat) : list (call K) :=
  flat_map (multipole_calls kw corr drawn numz) ls.

(** The noise of the multipoles [ls] and the random source after it: drawn
    one multipole after the other, or read from [gaussvars_list]. *)
Fixpoint noise (gaussvars_list : option (list (matrix K))) (numz : nat)
    (ls : list nat) (r : G) : result (list (matrix K)) * G :=
  match ls with
  | [] => (Ok [], r)
  | l :: rest =>
      match gaussvars_list with
      | None =>
          let (g, r') := complex_std_normal (numz, l + 1) r in
          let (gs, r'') := noise gaussvars_list numz rest r' in
          (gs <- gs ;; Ok (g :: gs), r'')
      | Some gl =>
          match getitem gl l with
          | Ok g =>
              let (gs, r'') := noise gaussvars_list numz rest r in
              (gs <- gs ;; Ok (g :: gs), r'')
          | Raise e => (Raise e, r)
          end
      end
  end.

Definition is_drawn (gaussvars_list : option (list (matrix K))) : bool :=
  match gaussvars_list with
  | None => true
  | Some _ => false
  end.

(** The calls that [alm_lists] may make for the tensors [corr]: a draw of
    the shape [(numz, l + 1)] or a factorisation call handed as the code
    says. *)
Definition expected_call (kw : option bool) (corr : list (tensor3 K))
    (numz maxl1 : nat) (c : call K) : Prop :=
  match c with
  | CallNormal shape => exists l, l < maxl1 /\ shape = (numz, l + 1)
  | CallRoot rc => exists l c, l < maxl1 /\ handed kw corr numz l c rc
  end.

(** Every run of [m] only adds calls that satisfy [P]. *)
Definition adds_only (P : call K -> Prop) {A} (m : M K G A) : Prop :=
  forall w, exists tr, calls (snd (m w)) = calls w ++ tr /\ Forall P tr.

(** The result of [mkfullsky] for the tensor [i], and what it is as a
    function of the tensor and the noise. *)
Definition entry_of (r : fullsky K) (i : nat) : option (array4 K + matrix K) :=
  match r with
  | Alms o => option_map inl (output_nth o i)
  | Sky o => option_map inr (output_nth o i)
  end.

Definition fullsky_length (r : fullsky K) : option nat :=
  match r with
  | Alms o => listed_length o
  | Sky o => listed_length o
  end.

Definition tensor_entry (numz maxl1 : nat) (lgs : list (nat * matrix K))
    (nside : Z) (alms : bool) (c : tensor3 K)
  : result (array4 K + matrix K) :=
  if alms then
    a <- tensor_alm (Some true) numz maxl1 lgs c ;; Ok (inl a)
  else
    s <- tensor_sky (Some true) numz maxl1 lgs nside c ;; Ok (inr s).

End SynthesisByTensor.

(** ** The Constrained Projector: [mkconstrained] *)

(** [healpy.Alm.getlm(lmax)]: the degrees and the orders of the coefficients,
    in healpy's order (all degrees of order 0, then of order 1, ...). *)
Definition getlm (lmax : Z) : list nat * list nat :=
  let n := Z.to_nat (lmax + 1) in
  let lm := flat_map (fun m => map (fun l => (l, m)) (seq m (n - m))) (seq 0 n) in
  (map fst lm, map snd lm).

(** The collaborators of [mkconstrained]: [scipy.linalg] and [healpy]. *)
Class Solvers (K : Type) : Type := {
  (* la.eigh(a): the eigenvalues and the matrix of eigenvectors *)
  eigh : matrix K -> result (list K * matrix K);
  (* la.solve(a, b) *)
  solve : matrix K -> list K -> result (list K);
  (* healpy.map2alm(map, lmax=lmax) *)
  map2alm : list K -> Z -> result (list K);
  (* healpy.alm2map(alm, nside, verbose=False) *)
  alm2map : list K -> Z -> result (list K);
  (* healpy.nside2npix(nside) *)
  nside2npix : Z -> Z
}.

Section Constrained.

Context {K : Type} `{Scalar K} `{Solvers K}.

Local Open Scope result_scope.

(** Lines 292-293 *)
Definition eigenmodes_step (corr : tensor3 K) (nmodes : nat) (f_ind : list Z)
    (st : tensor3 K * tensor3 K) (i : nat) : result (tensor3 K * tensor3 K) :=
  let (trans, tmat) := st in
  ci <- tensor_row corr i ;;
  ev <- eigh ci ;;
  trans <- assign_mat3 trans i (transpose (last_cols (snd ev) nmodes)) ;;
  ti <- tensor_row trans i ;;
  sel <- take_cols ti f_ind ;;
  tmat <- assign_mat3 tmat i sel ;;
  Ok (trans, tmat).

(** Line 297 *)
Definition harmonic_step (maxl : Z) (cmap : matrix K)
    (ic : nat * (Z * list K)) : result (matrix K) :=
  let (i, cons) := ic in
  a <- map2alm (snd cons) maxl ;;
  assign_col cmap i a.

(** Lines 302-305 *)
Definition project_step (trans tmat : tensor3 K) (cmap : matrix K)
    (cv : matrix K) (il : nat * nat) : result (matrix K) :=
  let (i, l) := il in
  if (l =? 0)%nat then assign_col_scalar cv i zero
  else
    tl <- tensor_row trans l ;;
    ml <- tensor_row tmat l ;;
    ci <- matrix_row cmap i ;;
    amplitude <- solve (transpose ml) ci ;;
    v <- np_dot_vec (transpose tl) amplitude ;;
    assign_col cv i v.

(** The local arrays of [mkconstrained] when the loop of line 301 ends. *)
Record modes : Type := mkModes {
  trans_of : tensor3 K;
  tmat_of : tensor3 K;
  cmap_of : matrix K;
  cv_of : matrix K
}.

(** Lines 269-305 *)
Definition mkconstrained_modes (corr : tensor3 K)
    (constraints : list (Z * list K)) : result modes :=
  let numz := dim1 corr in
  let maxl := (Z.of_nat (dim0 corr) - 1)%Z in
  let (larr, marr) := getlm maxl in
  let nmodes := length constraints in
  let f_ind := map fst constraints in
  if negb (dim2 corr =? numz)%nat
  then Raise (Exception "Correlation matrix is incorrect shape.")
  else
    let trans := zeros3 (dim0 corr) nmodes (dim2 corr) in
    let tmat := zeros3 (dim0 corr) nmodes nmodes in
    let cmap := zeros2 (length larr) nmodes in
    let cv := zeros2 numz (length larr) in
    tt <- rfor (seq 0 (Z.to_nat (maxl + 1)))
            (eigenmodes_step corr nmodes f_ind) (trans, tmat) ;;
    cmap <- rfor (combine (seq 0 nmodes) constraints)
              (harmonic_step maxl) cmap ;;
    cv <- rfor (combine (seq 0 (length larr)) larr)
            (project_step (fst tt) (snd tt) cmap) cv ;;
    Ok {| trans_of := fst tt; tmat_of := snd tt; cmap_of := cmap; cv_of := cv |}.

(** Lines 307-310: the synthesis of every coordinate slice.  The content of
    [np.empty] is read as zero; every row of it is overwritten. *)
Definition synthesize_slices (cv : matrix K) (numz : nat) (nside : Z)
  : result (matrix K) :=
  let npix := nside2npix nside in
  if (npix <? 0)%Z then Raise ValueError
  else
    rfor (seq 0 numz)
      (fun hpmaps i =>
         ci <- matrix_row cv i ;;
         m <- alm2map ci nside ;;
         assign_row hpmaps i m)
      (zeros2 numz (Z.to_nat npix)).

Definition mkconstrained (corr : tensor3 K) (constraints : list (Z * list K))
    (nside : Z) : result (matrix K) :=
  st <- mkconstrained_modes corr constraints ;;
  synthesize_slices (cv_of st) (dim1 corr) nside.

End Constrained.

(** ** Concrete inputs

    The inputs on which the functions are run in the properties below: exact
    rationals for the scalars and simple stand-ins for the collaborators. *)

Definition qc (n : Z) : Qc := Q2Qc (inject_Z n).

(** The composite trapezoid rule, a stand-in for [scipy.integrate.romb]. *)
Definition romb_trapezoid {K : Type} `{Scalar K} (ys : list K) (dx : K) : K :=
  match ys with
  | [] => zero
  | y0 :: _ =>
      fmul dx (fsub (fold_left fadd ys zero)
                    (fdiv (fadd y0 (last ys zero)) two))
  end.

(** A spectrum that does not depend on the coordinates. *)
Definition aps_flat {K : Type} `{Scalar K} (l : Z) (z1 z2 : K) : K :=
  of_int (l + 1).

(** The spectrum of the scenario of the specification:
    [exp(-abs(z1 - z2))] for every multipole. *)
Definition aps_exponential (l : Z) (z1 z2 : R) : R := exp (- Rabs (z1 - z2)).

(** Modelled from the spec: [nputil.matrix_root_manynull] is not among the
    sources.  By sections 4.2 and 6 of the specification the factorisation
    that does not truncate ("rank-preserving unless truncate requested")
    keeps every direction, so that its result has the shape of its
    argument. *)
Definition root_keeps_shape {K G : Type} `{Collaborators K G} : Prop :=
  forall (rc : root_call K) (t : matrix K),
    rc_truncate rc = Some false ->
    matrix_root_manynull rc = Ok t ->
    nrows t = nrows (rc_mat rc) /\ ncols t = ncols (rc_mat rc).

(** Stand-ins for the collaborators of the synthesis: the random source is a
    counter, the factorisation returns its argument, the harmonic synthesis
    puts the monopole in each of the [12 nside^2] pixels. *)
Definition counter_normal (shape : nat * nat) (n : nat) : matrix Qc * nat :=
  ({| nrows := fst shape; ncols := snd shape;
      mget := fun i j => qc (Z.of_nat (n + i + j + 1)) |}, S n).

Definition monopole_map (alm : array4 Qc) (nside : Z) : tensor3 Qc :=
  {| dim0 := adim0 alm; dim1 := 1; dim2 := Z.to_nat (12 * nside * nside);
     tget := fun z _ _ => aget alm z 0 0 0 |}.

#[export] Instance Collaborators_Qc : Collaborators Qc nat := {
  complex_std_normal := counter_normal;
  matrix_root_manynull := fun rc => Ok (rc_mat rc);
  sphtrans_inv_sky := fun alm nside => Ok (monopole_map alm nside);
  sphtrans_inv_sky_der1 := fun alm nside =>
    Ok (monopole_map alm nside, monopole_map alm nside, monopole_map alm nside);
  np_gradient := fun m _ => Ok m
}.

(** Tensors with the rows [rows] for every multipole [l < d0]. *)
Definition tensor_of_rows (d0 : nat) (rows : list (list Z)) : tensor3 Qc :=
  {| dim0 := d0; dim1 := length rows;
     dim2 := length (hd [] rows);
     tget := fun _ i j => qc (nth j (nth i rows []) 0%Z) |}.

Definition world0 : world Qc nat := {| rng := 0; calls := [] |}.

(** Tensors, the same matrix at each of two multipoles, and a given noise. *)
Definition tensor_a : tensor3 Qc := tensor_of_rows 2 [[2; 1]; [1; 2]]%Z.
Definition tensor_b : tensor3 Qc := tensor_of_rows 2 [[3; 0]; [0; 5]]%Z.
Definition tensor_small : tensor3 Qc := tensor_of_rows 2 [[5]]%Z.

Definition tensor_wide : tensor3 Qc := tensor_of_rows 2 [[2; 1; 0]; [1; 2; 0]]%Z.

Definition noise_given : list (matrix Qc) :=
  [ {| nrows := 2; ncols := 1; mget := fun i _ => qc (Z.of_nat i + 1) |};
    {| nrows := 2; ncols := 2; mget := fun i j => qc (Z.of_nat (i + j) + 1) |} ].

(** The contract of [scipy.linalg.solve]: the result solves the system. *)
Definition solve_exact {K : Type} `{Scalar K} `{Solvers K} : Prop :=
  forall (a : matrix K) (b x : list K),
    solve a b = Ok x ->
    length x = ncols a
    /\ forall r, r < nrows a ->
         dot_sum (ncols a) (fun k => mget a r k) (fun k => nth k x zero)
         = nth r b zero.

(** The contract of [scipy.linalg.eigh]: the eigenvalues come in ascending
    order, and the column [j] of the square matrix of eigenvectors belongs to
    the eigenvalue [j]. *)
Definition eigh_ascending {K : Type} `{Scalar K} `{Solvers K} : Prop :=
  forall (a : matrix K) (evals : list K) (evecs : matrix K),
    eigh a = Ok (evals, evecs) ->
    length evals = nrows a /\ nrows evecs = nrows a /\ ncols evecs = nrows a
    /\ forall i j, i <= j -> j < length evals ->
         fleb (nth i evals zero) (nth j evals zero) = true.

(** Stand-ins for the collaborators of [mkconstrained]: an eigensolver for
    diagonal matrices with an ascending diagonal, a solver for systems with
    the identity matrix, and harmonic transforms that keep the first value. *)
Definition all_entries (a : matrix Qc) (p : nat -> nat -> Qc -> bool) : bool :=
  forallb (fun i => forallb (fun j => p i j (mget a i j)) (seq 0 (ncols a)))
          (seq 0 (nrows a)).

Definition is_identity (a : matrix Qc) : bool :=
  (nrows a =? ncols a)
  && all_entries a (fun i j x => Qeq_bool x (if i =? j then qc 1 else qc 0)).

Definition is_ascending_diagonal (a : matrix Qc) : bool :=
  (nrows a =? ncols a)
  && all_entries a (fun i j x =>
       if i =? j then true
       else Qeq_bool x (qc 0)
            && (if i <? j then Qle_bool (mget a i i) (mget a j j) else true)).

#[export] Instance Solvers_Qc : Solvers Qc := {
  eigh := fun a =>
    if is_ascending_diagonal a then Ok (diagonal a, identity (nrows a))
    else Raise LinAlgError;
  solve := fun a b =>
    if is_identity a && (length b =? nrows a) then Ok b
    else Raise LinAlgError;
  map2alm := fun m lmax => Ok (map (fun _ => hd (qc 0) m) (fst (getlm lmax)));
  alm2map := fun alm nside =>
    Ok (repeat (hd (qc 0) alm) (Z.to_nat (12 * nside * nside)));
  nside2npix := fun nside => (12 * nside * nside)%Z
}.

(** A diagonal tensor, [diag(1, 2, 3)] at each of three multipoles, and two
    constraints on the last two coordinates. *)
Definition tensor_diag : tensor3 Qc :=
  tensor_of_rows 3 [[1; 0; 0]; [0; 2; 0]; [0; 0; 3]]%Z.

Definition constraints_two : list (Z * list Qc) :=
  [(1%Z, repeat (qc 4) 12); (2%Z, repeat (qc 7) 12)].

(** ** The integrating branch of [clarray], entry by entry *)

Section ClarrayByEntry.

Context {K : Type} `{Scalar K}.

Variable romb_samples : list K -> K -> K.

Local Open Scope result_scope.

(** Line 48: the half-width of a bin. *)
Definition half_width (zarray : list K) (zwidth : option K) : result K :=
  match zwidth with
  | None =>
      z1 <- getitem (np_sort zarray) 1 ;;
      z0 <- getitem (np_sort zarray) 0 ;;
      Ok (fdiv (fabs (fsub z1 z0)) two)
  | Some w => Ok (fdiv w two)
  end.

(** Lines 53-55: the quadrature points of all bins, bin after bin. *)
Definition sub_points (zarray : list K) (zhalf : K) (zint : nat) : list K :=
  flat_map (fun z => map (fadd z) (linspace (fopp zhalf) zhalf zint)) zarray.

(** Lines 62-73 for one entry: the spectrum on the points of the bins [i]
    and [j], integrated over the second bin and then over the first, and
    divided by the square of the width. *)
Definition bin_average (aps : Z -> K -> K -> K) (zint : nat) (za : list K)
    (zspace zhalf : K) (l : Z) (i j : nat) : K :=
  fdiv
    (romb_samples
       (map (fun a =>
               romb_samples
                 (map (fun b => aps l (nth (i * zint + a) za zero)
                                      (nth (j * zint + b) za zero))
                      (seq 0 zint))
                 zspace)
            (seq 0 zint))
       zspace)
    (fmul (fmul two zhalf) (fmul two zhalf)).

End ClarrayByEntry.

(** ** Runs of the synthesis and the random source *)

Section SynthesisRuns.

Context {K G : Type} `{Scalar K} `{Collaborators K G}.

Local Open Scope result_scope.

(** Every run of [m] leaves the random source as it is and records no
    draw. *)
Definition draws_nothing {A} (m : M K G A) : Prop :=
  forall w,
    rng (snd (m w)) = rng w
    /\ exists tr, calls (snd (m w)) = calls w ++ tr /\ draws_in tr = [].

(** The outcome of [m] is the same in every world. *)
Definition world_independent {A} (m : M K G A) : Prop :=
  forall w1 w2, fst (m w1) = fst (m w2).

(** Lines 224-242 for one array of coefficients: the maps, the angular
    derivatives over the distance of the slice, and the radial derivative. *)
Definition der1_of (nside : Z) (comovd : list K) (alm : array4 K)
  : result (tensor3 K) :=
  t <- sphtrans_inv_sky_der1 alm nside ;;
  let '(sky, d_theta, d_phi) := t in
  s0 <- take_axis1_0 sky ;;
  d_x <- np_gradient s0 comovd ;;
  t0 <- take_axis1_0 d_theta ;;
  dt <- div_by_column t0 comovd ;;
  p0 <- take_axis1_0 d_phi ;;
  dp <- div_by_column p0 comovd ;;
  stack4 s0 dt dp d_x.

(** Two axis sizes that numpy broadcasting accepts together. *)
Definition broadcastable (a b : nat) : Prop := a = b \/ a = 1 \/ b = 1.

End SynthesisRuns.

(** ** What a run of the synthesis leaves in an array of coefficients *)

Section AlmEntries.

Context {K G : Type} `{Scalar K} `{Collaborators K G}.

(** The row of the multipole [l] of the array [a] holds the product of the
    factor of the tensor [c] with the noise [g]: lines 129-136 and 208-213,
    [kw] being the [fixed_ev_sign_convention] of the factorisation call. *)
Definition alm_written (kw : option bool) (numz : nat) (c : tensor3 K)
    (l : nat) (g : matrix K) (a : array4 K) : Prop :=
  exists cl corrm trans,
    tensor_row c l = Ok cl
    /\ regularized numz cl = Ok corrm
    /\ matrix_root_manynull (root_keywords kw corrm) = Ok trans
    /\ ncols trans = nrows g
    /\ forall z m, m <= l ->
         aget a z 0 l m
         = dot_sum (ncols trans)
             (fun k => mget trans (bidx (nrows trans) z) k)
             (fun k => mget g k (bidx (ncols g) m)).

(** The four maps of lines 224-242 for the coefficients [alm]. *)
Definition der1_maps (nside : Z) (comovd : list K) (alm : array4 K)
    (r : tensor3 K) : Prop :=
  exists sky d_theta d_phi d_x,
    sphtrans_inv_sky_der1 alm nside = Ok (sky, d_theta, d_phi)
    /\ np_gradient {| nrows := dim0 sky; ncols := dim2 sky;
                      mget := fun i j => tget sky i 0 j |} comovd = Ok d_x
    /\ dim0 r = 4 /\ dim1 r = dim0 sky /\ dim2 r = dim2 sky
    /\ forall i j,
         tget r 0 i j = tget sky i 0 j
         /\ tget r 1 i j
            = fdiv (tget d_theta (bidx (dim0 d_theta) i) 0 j)
                   (nth (bidx (length comovd) i) comovd zero)
         /\ tget r 2 i j
            = fdiv (tget d_phi (bidx (dim0 d_phi) i) 0 j)
                   (nth (bidx (length comovd) i) comovd zero)
         /\ tget r 3 i j = mget d_x i j.

End AlmEntries.

(** * Properties *)

(** ** Sequences *)

Lemma returns_Ok {A} (m : result A) : returns m = true -> exists a, m = Ok a.
Proof. destruct m; [eauto|discriminate]. Qed.

Lemma getitem_Ok_iff {A} (xs : list A) (i : nat) (x : A) :
  getitem xs i = Ok x <-> nth_error xs i = Some x.
Proof.
  unfold getitem. destruct (nth_error xs i); split; congruence.
Qed.

Lemma getitem_out_of_range {A} (xs : list A) (i : nat) :
  (length xs <= i)%nat -> getitem xs i = Raise IndexError.
Proof.
  intros Hle. unfold getitem.
  apply nth_error_None in Hle. now rewrite Hle.
Qed.

Lemma getitem_in_range {A} (xs : list A) (i : nat) :
  (i < length xs)%nat -> exists x, getitem xs i = Ok x.
Proof.
  intros Hlt. unfold getitem.
  destruct (nth_error xs i) eqn:E; [eauto|].
  apply nth_error_None in E. lia.
Qed.

Lemma length_setitem {A} (xs : list A) (i : nat) (x : A) :
  length (setitem xs i x) = length xs.
Proof.
  revert i. induction xs as [|h t IH]; intros [|i]; simpl; auto.
Qed.

Lemma array_split_no_section {A} (ary : list A) (n : Z) :
  (n <= 0)%Z -> array_split ary n = Raise ValueError.
Proof.
  intros Hn. unfold array_split.
  apply Z.leb_le in Hn. now rewrite Hn.
Qed.

Section ArrayFacts.

Context {K : Type} `{Scalar K}.

Lemma length_insert_sorted (x : K) (xs : list K) :
  length (insert_sorted x xs) = S (length xs).
Proof.
  induction xs as [|y ys IH]; simpl; [reflexivity|].
  destruct (fleb x y); simpl; congruence.
Qed.

Lemma length_np_sort (xs : list K) : length (np_sort xs) = length xs.
Proof.
  induction xs as [|x xs IH]; simpl; [reflexivity|].
  unfold np_sort in *. simpl. now rewrite length_insert_sorted, IH.
Qed.

Lemma length_set_last (xs : list K) (v : K) :
  length (set_last xs v) = length xs.
Proof.
  induction xs as [|x [|y ys] IH]; simpl in *; auto.
Qed.

Lemma length_linspace (start stop : K) (num : nat) :
  length (linspace start stop num) = num.
Proof.
  unfold linspace.
  assert (Hy : forall f g : K -> K,
             length (map f (map g (map (fun i => of_int (Z.of_nat i)) (seq 0 num))))
             = num)
    by (intros; now rewrite !length_map, length_seq).
  destruct (1 <? num)%nat; rewrite ?length_set_last;
    destruct (0 <? num - 1)%nat; try destruct (feqb _ _); apply Hy.
Qed.

Lemma length_flat_map_const {A B} (f : A -> list B) (xs : list A) (n : nat) :
  (forall x, length (f x) = n) -> length (flat_map f xs) = (length xs * n)%nat.
Proof.
  intros Hf. induction xs as [|x xs IH]; simpl; [reflexivity|].
  now rewrite length_app, Hf, IH.
Qed.

End ArrayFacts.

(** ** The Spectral Integrator *)

Section ClarrayFacts.

Context {K : Type} `{Scalar K}.
Variable romb_samples : list K -> K -> K.

Local Open Scope result_scope.

(** Without integration the result is the spectrum on the grid. *)
Lemma clarray_point_samples (aps : Z -> K -> K -> K) (lmax : Z)
    (zarray : list K) (zwidth : option K) :
  clarray romb_samples aps lmax zarray 0 zwidth
  = Ok (vectorize3 aps (arange (lmax + 1)) zarray zarray).
Proof. reflexivity. Qed.

Lemma nth_arange (n : Z) (l : nat) :
  (l < Z.to_nat n)%nat -> nth l (arange n) 0%Z = Z.of_nat l.
Proof.
  intros Hl. unfold arange.
  change 0%Z with (Z.of_nat 0).
  rewrite map_nth. f_equal. now rewrite seq_nth.
Qed.

Lemma length_arange (n : Z) : length (arange n) = Z.to_nat n.
Proof. unfold arange. now rewrite length_map, length_seq. Qed.

(** The inferred half-width needs two grid points. *)
Lemma clarray_short_grid (aps : Z -> K -> K -> K) (lmax : Z)
    (zarray : list K) (zromb : Z) :
  zromb <> 0%Z -> (length zarray < 2)%nat ->
  clarray romb_samples aps lmax zarray zromb None = Raise IndexError.
Proof.
  intros Hz Hlen. unfold clarray.
  apply Z.eqb_neq in Hz. rewrite Hz.
  rewrite getitem_out_of_range by (rewrite length_np_sort; lia).
  reflexivity.
Qed.

(** Once the half-width is known, a multipole range below 5 stops at the
    split into [lmax // 5] sections. *)
Lemma clarray_no_section (aps : Z -> K -> K -> K) (lmax : Z)
    (zarray : list K) (zromb : Z) (zwidth : option K) :
  (0 < zromb)%Z -> (lmax < 5)%Z ->
  (zwidth <> None \/ 2 <= length zarray)%nat ->
  clarray romb_samples aps lmax zarray zromb zwidth = Raise ValueError.
Proof.
  intros Hz Hl Hw. unfold clarray.
  assert (Hz0 : (zromb =? 0)%Z = false) by (apply Z.eqb_neq; lia).
  assert (Hz1 : (0 <=? zromb)%Z = true) by (apply Z.leb_le; lia).
  assert (Hs : array_split (arange (lmax + 1)) (lmax / 5) = Raise ValueError).
  { apply array_split_no_section.
    assert (lmax / 5 < 1)%Z by (apply Z.div_lt_upper_bound; lia). lia. }
  rewrite Hz0.
  destruct zwidth as [w|].
  - simpl. rewrite Hz1, Hs. reflexivity.
  - destruct Hw as [Hw|Hw]; [congruence|].
    destruct (@getitem_in_range _ (np_sort zarray) 1) as [z1 E1];
      [rewrite length_np_sort; lia|].
    destruct (@getitem_in_range _ (np_sort zarray) 0) as [z0 E0];
      [rewrite length_np_sort; lia|].
    rewrite E1, E0. simpl. rewrite Hz1, Hs. reflexivity.
Qed.

End ClarrayFacts.

Section ClarrayReturns.

Context {K : Type} `{Scalar K}.
Variable romb_samples : list K -> K -> K.

Local Open Scope result_scope.

Lemma romb_count_ok_pow2 (zromb : Z) :
  (0 <= zromb)%Z -> romb_count_ok (Z.to_nat (2 ^ zromb + 1)) = true.
Proof.
  intros Hz. unfold romb_count_ok.
  assert (Hp : (0 < 2 ^ zromb)%Z) by (apply Z.pow_pos_nonneg; lia).
  rewrite Z2Nat.id by lia.
  replace (2 ^ zromb + 1 - 1)%Z with (2 ^ zromb)%Z by lia.
  rewrite Z.log2_pow2 by lia.
  apply andb_true_iff. split; [apply Z.ltb_lt; lia | apply Z.eqb_refl].
Qed.

Lemma fits_refl (d : nat) : fits d d = true.
Proof. unfold fits. now rewrite Nat.eqb_refl. Qed.

Lemma clarray_section_returns (aps : Z -> K -> K -> K) (zlen zint : nat)
    (za : list K) (zspace zhalf : K) (cla : tensor3 K) (lsec : list Z) :
  0 < zlen -> 0 < zint -> romb_count_ok zint = true ->
  length za = zlen * zint -> dim1 cla = zlen -> dim2 cla = zlen ->
  exists cla',
    clarray_section romb_samples aps zlen zint za zspace zhalf cla lsec = Ok cla'
    /\ dim0 cla' = dim0 cla /\ dim1 cla' = zlen /\ dim2 cla' = zlen.
Proof.
  intros Hzl Hzi Hromb Hza Hd1 Hd2. unfold clarray_section.
  set (D := zlen * zint * zlen * zint).
  assert (HD : D <> 0) by (unfold D; nia).
  assert (Hsize : dim0 (vectorize3 aps lsec za za) * dim1 (vectorize3 aps lsec za za)
                  * dim2 (vectorize3 aps lsec za za) = length lsec * D).
  { simpl. rewrite Hza. unfold D. ring. }
  rewrite Hsize.
  apply Nat.eqb_neq in HD. rewrite HD. simpl negb. cbv iota.
  apply Nat.eqb_neq in HD.
  rewrite Nat.Div0.mod_mul, Nat.eqb_refl, Hromb, Nat.div_mul by exact HD.
  unfold assign_rows. simpl dim0. simpl dim1. simpl dim2.
  rewrite Hd1, Hd2, !fits_refl. simpl.
  eexists. split; [reflexivity|]. simpl. auto.
Qed.

Lemma clarray_loop_returns (aps : Z -> K -> K -> K) (zlen zint : nat)
    (za : list K) (zspace zhalf : K) (lsections : list (list Z)) :
  0 < zlen -> 0 < zint -> romb_count_ok zint = true ->
  length za = zlen * zint ->
  forall cla, dim1 cla = zlen -> dim2 cla = zlen ->
  exists cla',
    clarray_loop romb_samples aps zlen zint za zspace zhalf cla lsections = Ok cla'
    /\ dim0 cla' = dim0 cla /\ dim1 cla' = zlen /\ dim2 cla' = zlen.
Proof.
  intros Hzl Hzi Hromb Hza.
  induction lsections as [|lsec rest IH]; intros cla Hd1 Hd2; simpl.
  - eauto.
  - destruct (@clarray_section_returns aps zlen zint za zspace zhalf cla lsec
                Hzl Hzi Hromb Hza Hd1 Hd2) as (cla1 & E & H0 & H1 & H2).
    rewrite E. simpl.
    destruct (IH cla1 H1 H2) as (cla2 & E2 & H0' & H1' & H2').
    exists cla2. repeat split; auto. congruence.
Qed.

(** With five multipoles or more the integrating branch returns a tensor
    of the shape of the docstring. *)
Lemma clarray_returns (aps : Z -> K -> K -> K) (lmax : Z)
    (zarray : list K) (zromb : Z) (zwidth : option K) :
  (0 < zromb)%Z -> (5 <= lmax)%Z -> 0 < length zarray ->
  (zwidth <> None \/ 2 <= length zarray) ->
  exists cla,
    clarray romb_samples aps lmax zarray zromb zwidth = Ok cla
    /\ dim0 cla = Z.to_nat (lmax + 1)
    /\ dim1 cla = length zarray /\ dim2 cla = length zarray.
Proof.
  intros Hz Hl Hlen Hw. unfold clarray.
  assert (Hz0 : (zromb =? 0)%Z = false) by (apply Z.eqb_neq; lia).
  assert (Hz1 : (0 <=? zromb)%Z = true) by (apply Z.leb_le; lia).
  assert (Hdiv : (1 <= lmax / 5)%Z) by (apply Z.div_le_lower_bound; lia).
  assert (Hs : exists secs, array_split (arange (lmax + 1)) (lmax / 5) = Ok secs).
  { unfold array_split. destruct (lmax / 5 <=? 0)%Z eqn:E; [|eauto].
    apply Z.leb_le in E. lia. }
  destruct Hs as [secs Hs].
  assert (Hp : (0 < 2 ^ zromb)%Z) by (apply Z.pow_pos_nonneg; lia).
  assert (Hgo : forall zhalf : K,
    exists cla,
      (let zspace := fdiv (fmul two zhalf) (of_int (2 ^ zromb)) in
       check (0 <=? zromb)%Z else TypeError ;;
       let zint := Z.to_nat (2 ^ zromb + 1) in
       let za := flat_map
                   (fun z => map (fadd z) (linspace (fopp zhalf) zhalf zint))
                   zarray in
       lsections <- array_split (arange (lmax + 1)) (lmax / 5) ;;
       let cla := zeros3 (Z.to_nat (lmax + 1)) (length zarray) (length zarray) in
       clarray_loop romb_samples aps (length zarray) zint za zspace zhalf cla
         lsections) = Ok cla
      /\ dim0 cla = Z.to_nat (lmax + 1)
      /\ dim1 cla = length zarray /\ dim2 cla = length zarray).
  { intros zhalf. cbv zeta. rewrite Hz1, Hs. simpl rbind.
    apply clarray_loop_returns; auto.
    - lia.
    - apply romb_count_ok_pow2. lia.
    - apply length_flat_map_const. intros z.
      now rewrite length_map, length_linspace. }
  rewrite Hz0.
  destruct zwidth as [w|].
  - simpl rbind at 1. apply Hgo.
  - destruct Hw as [Hw|Hw]; [congruence|].
    destruct (@getitem_in_range _ (np_sort zarray) 1) as [z1 E1];
      [rewrite length_np_sort; lia|].
    destruct (@getitem_in_range _ (np_sort zarray) 0) as [z0 E0];
      [rewrite length_np_sort; lia|].
    rewrite E1, E0. simpl rbind at 1. apply Hgo.
Qed.

End ClarrayReturns.

(** ** The Realization Synthesizer *)

Section SynthesisFacts.

Context {K G : Type} `{Scalar K} `{Collaborators K G}.

Lemma alm_step_Ok (kw : option bool) (corr : list (tensor3 K)) (numz l : nat)
    (g : matrix K) (al : list (array4 K)) (ii : nat) (w : world K G)
    (al' : list (array4 K)) (w' : world K G) :
  alm_step kw corr numz l g al ii w = (Ok al', w') ->
  exists c a a',
    nth_error corr ii = Some c /\ nth_error al ii = Some a
    /\ tensor_update kw numz l g c a = Ok a'
    /\ al' = setitem al ii a'
    /\ rng w' = rng w
    /\ calls w' = calls w ++ [CallRoot (root_call_for kw numz l c)].
Proof.
  unfold alm_step, bind, lift, ret, call_root. intros Hrun.
  destruct (getitem corr ii) as [c|] eqn:Ec; [|discriminate].
  destruct (tensor_row c l) as [cl|] eqn:Ecl; [|discriminate].
  destruct (regularized numz cl) as [corrm|] eqn:Er; [|discriminate].
  destruct (matrix_root_manynull (root_keywords kw corrm)) as [trans|] eqn:Et;
    [|discriminate].
  destruct (np_dot trans g) as [x|] eqn:Ex; [|discriminate].
  destruct (getitem al ii) as [a|] eqn:Ea; [|discriminate].
  destruct (assign_alm a l x) as [a'|] eqn:Ea'; [|discriminate].
  inversion Hrun; subst; clear Hrun.
  exists c, a, a'. simpl.
  apply getitem_Ok_iff in Ec, Ea.
  repeat split; auto.
  - unfold tensor_update. rewrite Ecl. simpl. rewrite Er. simpl.
    rewrite Et. simpl. now rewrite Ex.
  - unfold root_call_for. rewrite Ecl. simpl. now rewrite Er.
Qed.


Lemma setitem_app {A} (xs ys : list A) (a a' : A) :
  setitem (xs ++ a :: ys) (length xs) a' = xs ++ a' :: ys.
Proof.
  induction xs as [|x xs IH]; simpl; [reflexivity|]. now rewrite IH.
Qed.

Lemma nth_error_middle {A} (xs ys : list A) (a : A) :
  nth_error (xs ++ a :: ys) (length xs) = Some a.
Proof.
  rewrite nth_error_app2 by lia. now rewrite Nat.sub_diag.
Qed.

Lemma inner_loop_Ok (kw : option bool) (numz l : nat) (g : matrix K)
    (suf pre : list (tensor3 K)) :
  forall (al_pre al_suf : list (array4 K)) (w : world K G) al' w',
    length al_pre = length pre -> length al_suf = length suf ->
    for_ (seq (length pre) (length suf))
         (alm_step kw (pre ++ suf) numz l g) (al_pre ++ al_suf) w
    = (Ok al', w') ->
    exists suf',
      al' = al_pre ++ suf'
      /\ zip_update (tensor_update kw numz l g) suf al_suf = Ok suf'
      /\ rng w' = rng w
      /\ calls w' = calls w
                    ++ map (fun c => CallRoot (root_call_for kw numz l c)) suf.
Proof.
  revert pre. induction suf as [|c suf IH]; intros pre al_pre al_suf w al' w' Hp Hs Hrun.
  - destruct al_suf; [|simpl in Hs; discriminate]. simpl in Hrun. inversion Hrun; subst.
    exists []. simpl. rewrite !app_nil_r. auto.
  - destruct al_suf as [|a al_suf]; [simpl in Hs; discriminate|].
    simpl in Hrun. unfold bind in Hrun at 1.
    destruct (alm_step kw (pre ++ c :: suf) numz l g (al_pre ++ a :: al_suf)
                (length pre) w) as [[al1|e] w1] eqn:Estep; [|discriminate].
    apply alm_step_Ok in Estep.
    destruct Estep as (c0 & a0 & a' & Hc & Ha & Hup & Hal & Hrng & Hcalls).
    rewrite nth_error_middle in Hc. inversion Hc; subst c0; clear Hc.
    rewrite <- Hp, nth_error_middle in Ha. inversion Ha; subst a0; clear Ha.
    rewrite <- Hp, setitem_app in Hal. subst al1.
    replace (pre ++ c :: suf) with ((pre ++ [c]) ++ suf) in Hrun
      by (now rewrite <- app_assoc).
    replace (al_pre ++ a' :: al_suf) with ((al_pre ++ [a']) ++ al_suf) in Hrun
      by (now rewrite <- app_assoc).
    replace (S (length pre)) with (length (pre ++ [c])) in Hrun
      by (rewrite length_app; simpl; lia).
    apply IH in Hrun; [| rewrite !length_app; simpl; lia | simpl in Hs; lia].
    destruct Hrun as (suf' & Hal' & Hzip & Hrng' & Hcalls').
    exists (a' :: suf'). simpl. rewrite Hup. simpl. rewrite Hzip. simpl.
    repeat split.
    + now rewrite Hal', <- app_assoc.
    + congruence.
    + rewrite Hcalls', Hcalls, <- app_assoc. reflexivity.
Qed.

Lemma length_zip_update (f : tensor3 K -> array4 K -> result (array4 K))
    (cs : list (tensor3 K)) :
  forall al al', length al = length cs ->
    zip_update f cs al = Ok al' -> length al' = length cs.
Proof.
  induction cs as [|c cs IH]; intros [|a al] al' Hlen Hz; simpl in *;
    try discriminate.
  - now inversion Hz.
  - destruct (f c a) as [a'|]; [|discriminate]. simpl in Hz.
    destruct (zip_update f cs al) as [rest|] eqn:E; [|discriminate].
    simpl in Hz. inversion Hz; subst. simpl. f_equal. apply (IH al); auto.
Qed.

Lemma nth_zip_update (f : tensor3 K -> array4 K -> result (array4 K))
    (cs : list (tensor3 K)) :
  forall al al' ii c a,
    zip_update f cs al = Ok al' ->
    nth_error cs ii = Some c -> nth_error al ii = Some a ->
    exists a', nth_error al' ii = Some a' /\ f c a = Ok a'.
Proof.
  induction cs as [|c0 cs IH]; intros [|a0 al] al' ii c a Hz Hc Ha;
    try (destruct ii; discriminate).
  simpl in Hz.
  destruct (f c0 a0) as [a0'|] eqn:E0; [|discriminate]. simpl in Hz.
  destruct (zip_update f cs al) as [rest|] eqn:E; [|discriminate].
  simpl in Hz. inversion Hz; subst; clear Hz.
  destruct ii as [|ii]; simpl in *.
  - inversion Hc; inversion Ha; subst. eauto.
  - eapply IH; eauto.
Qed.

Lemma alm_multipole_Ok (kw : option bool) (corr : list (tensor3 K))
    (gl : option (list (matrix K))) (numz : nat) (al : list (array4 K))
    (l : nat) (w : world K G) al' w' :
  length al = length corr ->
  alm_multipole kw corr gl numz al l w = (Ok al', w') ->
  exists g,
    noise gl numz [l] (rng w) = (Ok [g], rng w')
    /\ zip_update (tensor_update kw numz l g) corr al = Ok al'
    /\ calls w' = calls w ++ multipole_calls kw corr (is_drawn gl) numz l.
Proof.
  intros Hlen Hrun. unfold alm_multipole, bind in Hrun.
  assert (Hloop : forall g w1,
    for_ (seq 0 (length corr)) (alm_step kw corr numz l g) al w1 = (Ok al', w') ->
    zip_update (tensor_update kw numz l g) corr al = Ok al'
    /\ rng w' = rng w1
    /\ calls w' = calls w1
                  ++ map (fun c => CallRoot (root_call_for kw numz l c)) corr).
  { intros g w1 Hfor.
    apply (@inner_loop_Ok kw numz l g corr [] [] al w1) in Hfor; auto.
    destruct Hfor as (suf' & Hal & Hz & Hr & Hc). simpl in Hal. subst suf'.
    auto. }
  destruct gl as [gl|]; simpl.
  - unfold lift in Hrun. destruct (getitem gl l) as [g|] eqn:Eg; [|discriminate].
    apply Hloop in Hrun. destruct Hrun as (Hz & Hr & Hc).
    exists g. rewrite Hr. repeat split; auto.
  - unfold draw in Hrun.
    destruct (complex_std_normal (numz, l + 1) (rng w)) as [g r] eqn:Eg.
    apply Hloop in Hrun. destruct Hrun as (Hz & Hr & Hc). simpl in Hr, Hc.
    exists g. rewrite Hr. repeat split; auto.
    unfold multipole_calls. simpl. rewrite Hc, <- app_assoc. reflexivity.
Qed.


Lemma outer_loop_Ok (kw : option bool) (corr : list (tensor3 K))
    (gl : option (list (matrix K))) (numz : nat) (ls : list nat) :
  forall (al : list (array4 K)) (w : world K G) al' w',
    length al = length corr ->
    for_ ls (alm_multipole kw corr gl numz) al w = (Ok al', w') ->
    exists gs,
      noise gl numz ls (rng w) = (Ok gs, rng w')
      /\ length gs = length ls
      /\ all_updates kw numz corr (combine ls gs) al = Ok al'
      /\ calls w' = calls w ++ synthesis_calls kw corr (is_drawn gl) numz ls
      /\ length al' = length corr.
Proof.
  induction ls as [|l ls IH]; intros al w al' w' Hlen Hrun.
  - simpl in Hrun. inversion Hrun; subst. exists []. simpl.
    rewrite app_nil_r. auto.
  - simpl in Hrun. unfold bind in Hrun at 1.
    destruct (alm_multipole kw corr gl numz al l w) as [[al1|e] w1] eqn:E1;
      [|discriminate].
    apply alm_multipole_Ok in E1; [|exact Hlen].
    destruct E1 as (g & Hn & Hz & Hc).
    assert (Hlen1 : length al1 = length corr)
      by (apply (@length_zip_update (tensor_update kw numz l g) corr al al1); auto).
    apply IH in Hrun; [|exact Hlen1].
    destruct Hrun as (gs & Hn' & Hlg & Hall & Hc' & Hlen').
    exists (g :: gs). repeat split.
    + simpl in Hn |- *. destruct gl as [gl|].
      * destruct (getitem gl l) as [g0|]; [|discriminate].
        inversion Hn as [[Hg Hr]]. rewrite Hr, Hn'. reflexivity.
      * destruct (complex_std_normal (numz, l + 1) (rng w)) as [g0 r0].
        inversion Hn as [[Hg Hr]]. rewrite Hn'. reflexivity.
    + simpl. congruence.
    + unfold all_updates in *. simpl. rewrite Hz. simpl. exact Hall.
    + rewrite Hc', Hc, <- app_assoc. reflexivity.
    + exact Hlen'.
Qed.

Lemma all_updates_nth (kw : option bool) (numz : nat) (corr : list (tensor3 K))
    (lgs : list (nat * matrix K)) :
  forall al al',
    length al = length corr ->
    all_updates kw numz corr lgs al = Ok al' ->
    forall ii c a,
      nth_error corr ii = Some c -> nth_error al ii = Some a ->
      exists a',
        nth_error al' ii = Some a'
        /\ rfor lgs (fun alm lg => tensor_update kw numz (fst lg) (snd lg) c alm) a
           = Ok a'.
Proof.
  unfold all_updates.
  induction lgs as [|[l g] lgs IH]; intros al al' Hlen Hall ii c a Hc Ha.
  - simpl in *. inversion Hall; subst. eauto.
  - simpl in Hall |- *.
    destruct (zip_update (tensor_update kw numz l g) corr al) as [al1|] eqn:Ez;
      [|discriminate].
    simpl in Hall.
    destruct (@nth_zip_update (tensor_update kw numz l g) corr al al1 ii c a Ez Hc Ha)
      as (a1 & Ha1 & Hup).
    rewrite Hup. simpl.
    apply (IH al1 al'); auto.
    apply (@length_zip_update (tensor_update kw numz l g) corr al al1); auto.
Qed.

Lemma nth_error_repeat_Some {A} (x : A) (n ii : nat) :
  ii < n -> nth_error (repeat x n) ii = Some x.
Proof.
  revert ii. induction n as [|n IH]; intros [|ii] Hlt; simpl; try lia; auto.
  apply IH. lia.
Qed.

(** What a run of [alm_lists] that returns has done. *)
Lemma alm_lists_Ok (kw : option bool) (corr : corr_arg K)
    (gl : option (list (matrix K))) (w : world K G) out w' :
  alm_lists kw corr gl w = (Ok out, w') ->
  exists c0 rest gs,
    as_list corr = c0 :: rest
    /\ dim2 c0 = dim1 c0
    /\ noise gl (dim1 c0) (seq 0 (dim0 c0)) (rng w) = (Ok gs, rng w')
    /\ length gs = dim0 c0
    /\ calls w' = calls w
                  ++ synthesis_calls kw (as_list corr) (is_drawn gl) (dim1 c0)
                       (seq 0 (dim0 c0))
    /\ length out = length (as_list corr)
    /\ forall ii c,
         nth_error (as_list corr) ii = Some c ->
         exists a,
           nth_error out ii = Some a
           /\ tensor_alm kw (dim1 c0) (dim0 c0)
                (combine (seq 0 (dim0 c0)) gs) c = Ok a.
Proof.
  unfold alm_lists, bind, lift, raise. intros Hrun.
  destruct (as_list corr) as [|c0 rest] eqn:Ecorr; [discriminate|].
  change (getitem (c0 :: rest) 0) with (Ok c0) in Hrun. cbv iota beta in Hrun.
  destruct (dim2 c0 =? dim1 c0) eqn:Esq;
    cbn [negb] in Hrun; cbv beta iota in Hrun; [|discriminate].
  apply outer_loop_Ok in Hrun; [|rewrite repeat_length; reflexivity].
  destruct Hrun as (gs & Hn & Hlg & Hall & Hc & Hlen).
  exists c0, rest, gs. rewrite length_seq in Hlg.
  repeat split; auto.
  - now apply Nat.eqb_eq.
  - intros ii c Hii.
    assert (Hlt : ii < length (c0 :: rest))
      by (apply nth_error_Some; congruence).
    eapply all_updates_nth in Hall; eauto.
    + now rewrite repeat_length.
    + now apply nth_error_repeat_Some.
Qed.

End SynthesisFacts.


(** *** The calls of a run, whatever its outcome *)

Section Traces.

Context {K G : Type} `{Scalar K} `{Collaborators K G}.

Lemma adds_only_lift (P : call K -> Prop) {A} (r : result A) :
  adds_only P (lift r : M K G A).
Proof. intros w. exists []. simpl. now rewrite app_nil_r. Qed.

Lemma adds_only_ret (P : call K -> Prop) {A} (a : A) :
  adds_only P (ret a : M K G A).
Proof. intros w. exists []. simpl. now rewrite app_nil_r. Qed.

Lemma adds_only_raise (P : call K -> Prop) {A} (e : exn) :
  adds_only P (raise e : M K G A).
Proof. intros w. exists []. simpl. now rewrite app_nil_r. Qed.

Lemma adds_only_bind (P : call K -> Prop) {A B} (m : M K G A)
    (k : A -> M K G B) :
  adds_only P m ->
  (forall a w w', m w = (Ok a, w') -> adds_only P (k a)) ->
  adds_only P (bind m k).
Proof.
  intros Hm Hk w. unfold bind.
  destruct (Hm w) as (tr & Htr & HP).
  destruct (m w) as [[a|e] w1] eqn:E; simpl in Htr.
  - destruct (Hk a w w1 E w1) as (tr' & Htr' & HP').
    exists (tr ++ tr'). split.
    + rewrite Htr', Htr. now rewrite app_assoc.
    + apply Forall_app. auto.
  - exists tr. auto.
Qed.

Lemma adds_only_bind_lift (P : call K -> Prop) {A B} (r : result A)
    (k : A -> M K G B) :
  (forall a, r = Ok a -> adds_only P (k a)) ->
  adds_only P (bind (lift r) k).
Proof.
  intros Hk. apply adds_only_bind; [apply adds_only_lift|].
  intros a w w' E. apply Hk. unfold lift in E. congruence.
Qed.

Lemma adds_only_for (P : call K -> Prop) {A S} (xs : list A)
    (body : S -> A -> M K G S) :
  (forall s x, In x xs -> adds_only P (body s x)) ->
  forall s, adds_only P (for_ xs body s).
Proof.
  induction xs as [|x xs IH]; intros Hbody s; simpl.
  - apply adds_only_ret.
  - apply adds_only_bind.
    + apply Hbody. now left.
    + intros s' _ _ _. apply IH. intros s0 y Hy. apply Hbody. now right.
Qed.

Lemma adds_only_call_root (P : call K -> Prop) (rc : root_call K) :
  P (CallRoot rc) -> adds_only P (call_root rc).
Proof.
  intros HP w. exists [CallRoot rc]. split; [reflexivity|]. auto.
Qed.

Lemma adds_only_draw (P : call K -> Prop) (shape : nat * nat) :
  P (CallNormal shape) -> adds_only P (draw shape).
Proof.
  intros HP w. exists [CallNormal shape]. unfold draw.
  destruct (complex_std_normal shape (rng w)). split; [reflexivity|]. auto.
Qed.

Lemma alm_step_adds_only (kw : option bool) (corr : list (tensor3 K))
    (numz maxl1 l : nat) (g : matrix K) (al : list (array4 K)) (ii : nat) :
  l < maxl1 ->
  adds_only (expected_call kw corr numz maxl1) (alm_step kw corr numz l g al ii).
Proof.
  intros Hl. unfold alm_step.
  apply adds_only_bind_lift. intros c Hc.
  apply adds_only_bind_lift. intros cl Hcl.
  apply adds_only_bind_lift. intros corrm Hcorrm.
  apply adds_only_bind.
  - apply adds_only_call_root. exists l, c. split; [exact Hl|].
    split.
    + apply getitem_Ok_iff in Hc. eapply nth_error_In; eauto.
    + unfold regularized in Hcorrm.
      destruct (np_max (diagonal cl)) as [mx|] eqn:Emx; [|discriminate].
      exists cl, mx. simpl in *. auto.
  - intros trans _ _ _.
    apply adds_only_bind_lift. intros x _.
    apply adds_only_bind_lift. intros a _.
    apply adds_only_bind_lift. intros a' _.
    apply adds_only_ret.
Qed.

Lemma alm_lists_adds_only (kw : option bool) (corr : corr_arg K)
    (gl : option (list (matrix K))) :
  forall c0, nth_error (as_list corr) 0 = Some c0 ->
  adds_only (expected_call kw (as_list corr) (dim1 c0) (dim0 c0))
            (alm_lists kw corr gl).
Proof.
  intros c0 Hc0. unfold alm_lists.
  apply adds_only_bind_lift. intros c Hc.
  apply getitem_Ok_iff in Hc. assert (c = c0) by congruence. subst c.
  destruct (negb (dim2 c0 =? dim1 c0)); [apply adds_only_raise|].
  apply adds_only_for. intros al l Hl. apply in_seq in Hl.
  unfold alm_multipole. apply adds_only_bind.
  - destruct gl as [gl|]; [apply adds_only_lift|].
    apply adds_only_draw. exists l. split; [lia|reflexivity].
  - intros g _ _ _. apply adds_only_for. intros al' ii _.
    apply alm_step_adds_only. lia.
Qed.

End Traces.

(** *** The result of a run that returns *)

Section FullskyFacts.

Context {K G : Type} `{Scalar K} `{Collaborators K G}.

Lemma rmap_length {A B} (f : A -> result B) (xs : list A) :
  forall ys, rmap f xs = Ok ys -> length ys = length xs.
Proof.
  induction xs as [|x xs IH]; intros ys Hr; simpl in Hr.
  - now inversion Hr.
  - destruct (f x) as [y|]; [|discriminate]. simpl in Hr.
    destruct (rmap f xs) as [ys'|]; [|discriminate]. simpl in Hr.
    inversion Hr; subst. simpl. f_equal. now apply IH.
Qed.

Lemma rmap_nth {A B} (f : A -> result B) (xs : list A) :
  forall ys i x, rmap f xs = Ok ys -> nth_error xs i = Some x ->
    exists y, nth_error ys i = Some y /\ f x = Ok y.
Proof.
  induction xs as [|x0 xs IH]; intros ys i x Hr Hx.
  - destruct i; discriminate.
  - simpl in Hr. destruct (f x0) as [y0|] eqn:E0; [|discriminate]. simpl in Hr.
    destruct (rmap f xs) as [ys'|] eqn:E; [|discriminate]. simpl in Hr.
    inversion Hr; subst; clear Hr.
    destruct i as [|i]; simpl in *.
    + inversion Hx; subst. eauto.
    + eapply IH; eauto.
Qed.

(** The loop of lines 145-148 maps every array of coefficients. *)
Lemma sky_loop_Ok (nside : Z) (suf pre : list (array4 K)) :
  forall (acc : list (matrix K)) (w : world K G) sky w',
    for_ (seq (length pre) (length suf))
      (fun sky ii =>
         bind (lift (getitem (pre ++ suf) ii)) (fun alm =>
         bind (lift (sphtrans_inv_sky alm nside)) (fun s =>
         bind (lift (take_axis1_0 s)) (fun s0 =>
         ret (sky ++ [s0])))))
      acc w = (Ok sky, w') ->
    exists ss, rmap (sky_of nside) suf = Ok ss /\ sky = acc ++ ss /\ w' = w.
Proof.
  revert pre. induction suf as [|a suf IH]; intros pre acc w sky w' Hrun.
  - simpl in Hrun. inversion Hrun; subst. exists []. now rewrite app_nil_r.
  - simpl in Hrun. unfold bind at 1 2 3 4, lift at 1 2 3, ret at 1 in Hrun.
    unfold getitem at 1 in Hrun. rewrite nth_error_middle in Hrun.
    destruct (sphtrans_inv_sky a nside) as [s|] eqn:Es; [|discriminate].
    destruct (take_axis1_0 s) as [s0|] eqn:E0; [|discriminate].
    replace (pre ++ a :: suf) with ((pre ++ [a]) ++ suf) in Hrun
      by (now rewrite <- app_assoc).
    replace (S (length pre)) with (length (pre ++ [a])) in Hrun
      by (rewrite length_app; simpl; lia).
    apply IH in Hrun. destruct Hrun as (ss & Hss & Hsky & Hw).
    exists (s0 :: ss). simpl. unfold sky_of at 1. rewrite Es. simpl.
    rewrite E0. simpl. rewrite Hss. simpl.
    repeat split; auto. now rewrite Hsky, <- app_assoc.
Qed.

Lemma pack_Ok {A} (xs : list A) (o : output A) :
  pack (length xs) xs = Ok o ->
  (forall i, output_nth o i = nth_error xs i)
  /\ listed_length o = if length xs =? 1 then None else Some (length xs).
Proof.
  unfold pack. destruct (length xs =? 1) eqn:E; intros Hp.
  - apply Nat.eqb_eq in E. destruct xs as [|x [|y xs]]; try discriminate.
    simpl in Hp. inversion Hp; subst. split; [|reflexivity].
    intros [|[|i]]; reflexivity.
  - inversion Hp; subst. split; [|reflexivity]. reflexivity.
Qed.

(** What a run of [mkfullsky] that returns has done. *)
Lemma mkfullsky_Ok (corr : corr_arg K) (nside : Z) (alms : bool)
    (gl : option (list (matrix K))) (w : world K G) r w' :
  mkfullsky corr nside alms gl w = (Ok r, w') ->
  exists c0 rest gs,
    as_list corr = c0 :: rest
    /\ dim2 c0 = dim1 c0
    /\ noise gl (dim1 c0) (seq 0 (dim0 c0)) (rng w) = (Ok gs, rng w')
    /\ length gs = dim0 c0
    /\ calls w' = calls w
                  ++ synthesis_calls (Some true) (as_list corr) (is_drawn gl)
                       (dim1 c0) (seq 0 (dim0 c0))
    /\ fullsky_length r
       = (if length (as_list corr) =? 1 then None
          else Some (length (as_list corr)))
    /\ forall ii c,
         nth_error (as_list corr) ii = Some c ->
         exists e,
           entry_of r ii = Some e
           /\ tensor_entry (dim1 c0) (dim0 c0)
                (combine (seq 0 (dim0 c0)) gs) nside alms c = Ok e.
Proof.
  unfold mkfullsky. unfold bind at 1. intros Hrun.
  destruct (alm_lists (Some true) corr gl w) as [[out|e] w1] eqn:Ealm;
    [|discriminate].
  apply alm_lists_Ok in Ealm.
  destruct Ealm as (c0 & rest & gs & Hcorr & Hsq & Hn & Hlg & Hc & Hlen & Hnth).
  exists c0, rest, gs.
  rewrite <- Hlen in Hrun |- *.
  destruct alms.
  - unfold bind, lift, ret in Hrun.
    destruct (pack (length out) out) as [o|] eqn:Ep; [|discriminate].
    inversion Hrun; subst r w1; clear Hrun.
    apply pack_Ok in Ep. destruct Ep as [Ho Hl].
    repeat split; auto.
    intros ii c Hii. destruct (Hnth ii c Hii) as (a & Ha & Ht).
    exists (inl a). simpl. rewrite Ho, Ha. split; [reflexivity|].
    unfold tensor_entry. now rewrite Ht.
  - unfold bind at 1 in Hrun.
    match type of Hrun with
    | match ?m w1 with _ => _ end = _ => destruct (m w1) as [[sky|e] w2] eqn:Esky
    end; [|discriminate].
    apply (@sky_loop_Ok nside out [] [] w1) in Esky.
    destruct Esky as (ss & Hss & Hsky & Hw). simpl in Hsky. subst sky w2.
    unfold bind, lift, ret in Hrun.
    assert (Hls : length ss = length out) by (eapply rmap_length; eauto).
    rewrite <- Hls in Hrun.
    destruct (pack (length ss) ss) as [o|] eqn:Ep; [|discriminate].
    inversion Hrun; subst r w1; clear Hrun.
    apply pack_Ok in Ep. destruct Ep as [Ho Hl].
    repeat split; auto.
    + simpl. rewrite Hl, Hls. reflexivity.
    + intros ii c Hii. destruct (Hnth ii c Hii) as (a & Ha & Ht).
      destruct (rmap_nth _ _ _ Hss Ha) as (s & Hs & Hsk).
      exists (inr s). simpl. rewrite Ho, Hs. split; [reflexivity|].
      unfold tensor_entry, tensor_sky. rewrite Ht. simpl. now rewrite Hsk.
Qed.

End FullskyFacts.

Section CallFacts.

Context {K G : Type} `{Scalar K} `{Collaborators K G}.

Lemma root_calls_in_app (t1 t2 : list (call K)) :
  root_calls_in (t1 ++ t2) = root_calls_in t1 ++ root_calls_in t2.
Proof. unfold root_calls_in. apply flat_map_app. Qed.

Lemma draws_in_app (t1 t2 : list (call K)) :
  draws_in (t1 ++ t2) = draws_in t1 ++ draws_in t2.
Proof. unfold draws_in. apply flat_map_app. Qed.

Lemma root_calls_in_roots (rcs : list (root_call K)) :
  root_calls_in (map (@CallRoot K) rcs) = rcs.
Proof. induction rcs as [|rc rcs IH]; simpl; congruence. Qed.

Lemma draws_in_roots (rcs : list (root_call K)) :
  draws_in (map (@CallRoot K) rcs) = [].
Proof. induction rcs as [|rc rcs IH]; simpl; congruence. Qed.

Lemma root_calls_in_synthesis (kw : option bool) (corr : list (tensor3 K))
    (drawn : bool) (numz : nat) (ls : list nat) :
  root_calls_in (synthesis_calls kw corr drawn numz ls)
  = flat_map (fun l => map (root_call_for kw numz l) corr) ls.
Proof.
  unfold synthesis_calls. induction ls as [|l ls IH]; simpl; [reflexivity|].
  rewrite root_calls_in_app, IH. f_equal.
  unfold multipole_calls. rewrite root_calls_in_app.
  rewrite <- (map_map (root_call_for kw numz l) (@CallRoot K)).
  rewrite root_calls_in_roots. now destruct drawn.
Qed.

Lemma draws_in_synthesis (kw : option bool) (corr : list (tensor3 K))
    (drawn : bool) (numz : nat) (ls : list nat) :
  draws_in (synthesis_calls kw corr drawn numz ls)
  = if drawn then map (fun l => (numz, l + 1)) ls else [].
Proof.
  unfold synthesis_calls. induction ls as [|l ls IH]; simpl.
  - now destruct drawn.
  - rewrite draws_in_app, IH. unfold multipole_calls. rewrite draws_in_app.
    rewrite <- (map_map (root_call_for kw numz l) (@CallRoot K)).
    rewrite draws_in_roots. now destruct drawn.
Qed.

Lemma root_calls_in_Forall (P : call K -> Prop) (tr : list (call K)) :
  Forall P tr -> forall rc, In rc (root_calls_in tr) -> P (CallRoot rc).
Proof.
  intros HP rc Hin. unfold root_calls_in in Hin.
  apply in_flat_map in Hin. destruct Hin as (c & Hc & Hrc).
  rewrite Forall_forall in HP. specialize (HP c Hc).
  destruct c as [s|rc']; simpl in Hrc; [contradiction|].
  destruct Hrc as [->|[]]. exact HP.
Qed.

(** The matrix with the diagonal added, for a tensor of the declared
    coordinate count. *)
Lemma bidx_in_range (d i : nat) : i < d -> bidx d i = i.
Proof.
  unfold bidx. destruct (d =? 1) eqn:E; [|reflexivity].
  apply Nat.eqb_eq in E. lia.
Qed.

Lemma bdim_same (d : nat) : bdim d d = Ok d.
Proof. unfold bdim. now rewrite Nat.eqb_refl. Qed.

Lemma broadcast_add_square (numz : nat) (cl : matrix K) (cmax : K)
    (corrm : matrix K) :
  nrows cl = numz -> ncols cl = numz ->
  broadcast_add cl (mscale (identity numz) cmax) = Ok corrm ->
  nrows corrm = numz /\ ncols corrm = numz
  /\ forall i j, i < numz -> j < numz ->
       mget corrm i j
       = fadd (mget cl i j) (fmul (if i =? j then one else zero) cmax).
Proof.
  intros Hr Hc. unfold broadcast_add. simpl. rewrite Hr, Hc, bdim_same. simpl.
  intros Hb. inversion Hb; subst corrm; clear Hb. simpl.
  repeat split; auto. intros i j Hi Hj.
  now rewrite !bidx_in_range.
Qed.

Lemma rfor_In_Ok {A S} (body : S -> A -> result S) (xs : list A) :
  forall s s' x, rfor xs body s = Ok s' -> In x xs ->
    exists s1 s2, body s1 x = Ok s2.
Proof.
  induction xs as [|x0 xs IH]; intros s s' x Hr Hin; [contradiction|].
  simpl in Hr. destruct (body s x0) as [s1|] eqn:E; [|discriminate].
  simpl in Hr. destruct Hin as [->|Hin]; [eauto|].
  eapply IH; eauto.
Qed.

Lemma tensor_update_handed (kw : option bool) (corr : list (tensor3 K))
    (numz l : nat) (g : matrix K) (c : tensor3 K) (a a' : array4 K) :
  In c corr -> tensor_update kw numz l g c a = Ok a' ->
  handed kw corr numz l c (root_call_for kw numz l c).
Proof.
  intros Hin Hup. unfold tensor_update in Hup.
  destruct (tensor_row c l) as [cl|] eqn:Ecl; [|discriminate]. simpl in Hup.
  destruct (regularized numz cl) as [corrm|] eqn:Er; [|discriminate].
  split; [exact Hin|]. unfold regularized in Er.
  destruct (np_max (diagonal cl)) as [mx|] eqn:Emx; [|discriminate].
  exists cl, mx. unfold root_call_for, regularized. rewrite Ecl. simpl.
  rewrite Emx. simpl in Er |- *. rewrite Er. simpl. auto.
Qed.

Lemma nth_error_combine_seq {A} (xs : list A) :
  forall n k l x, length xs = n -> nth_error xs l = Some x ->
    nth_error (combine (seq k n) xs) l = Some (k + l, x).
Proof.
  induction xs as [|x0 xs IH]; intros [|n] k [|l] x Hlen E; simpl in *;
    try discriminate.
  - inversion E; subst. now rewrite Nat.add_0_r.
  - injection Hlen as Hlen. rewrite (IH n (S k) l x Hlen E).
    f_equal. f_equal. lia.
Qed.

Lemma in_combine_seq {A} (xs : list A) (n l : nat) :
  length xs = n -> l < n -> exists x, In (l, x) (combine (seq 0 n) xs).
Proof.
  intros Hlen Hl.
  destruct (nth_error xs l) as [x|] eqn:E.
  - exists x. apply (nth_error_In _ l).
    now rewrite (nth_error_combine_seq xs 0 l Hlen E).
  - apply nth_error_None in E. lia.
Qed.

End CallFacts.

(** ** Loops that fill an array entry by entry *)

Section LoopFacts.

Variables (A S : Type) (step : S -> A -> result S).
Variables (Inv : S -> Prop) (post : A -> S -> Prop) (indep : A -> A -> Prop).

Hypothesis preserve : forall s a s', Inv s -> step s a = Ok s' -> Inv s'.
Hypothesis establish : forall s a s', Inv s -> step s a = Ok s' -> post a s'.
Hypothesis stable :
  forall s a b s', Inv s -> step s b = Ok s' -> indep a b -> post a s -> post a s'.

Lemma rfor_invariant (xs : list A) :
  forall s s', Inv s -> rfor xs step s = Ok s' -> Inv s'.
Proof.
  induction xs as [|x xs IH]; intros s s' HI Hr; simpl in Hr.
  - now inversion Hr; subst.
  - destruct (step s x) as [s1|] eqn:E; [|discriminate]. simpl in Hr.
    apply (IH s1); [exact (preserve HI E) | exact Hr].
Qed.

Lemma rfor_stable (xs : list A) :
  forall s s' a, Inv s -> rfor xs step s = Ok s' ->
    Forall (indep a) xs -> post a s -> post a s'.
Proof.
  induction xs as [|x xs IH]; intros s s' a HI Hr Hind Hp; simpl in Hr.
  - now inversion Hr; subst.
  - destruct (step s x) as [s1|] eqn:E; [|discriminate]. simpl in Hr.
    inversion Hind as [|? ? Hx Hxs]; subst.
    apply (IH s1); auto.
    + exact (preserve HI E).
    + exact (stable HI E Hx Hp).
Qed.

Lemma rfor_post (xs : list A) :
  forall s s', Inv s -> ForallOrdPairs indep xs -> rfor xs step s = Ok s' ->
    forall a, In a xs -> post a s'.
Proof.
  induction xs as [|x xs IH]; intros s s' HI Hord Hr a Hin; [contradiction|].
  simpl in Hr. destruct (step s x) as [s1|] eqn:E; [|discriminate].
  simpl in Hr. inversion Hord as [|? ? Hx Hxs]; subst.
  assert (HI1 : Inv s1) by exact (preserve HI E).
  destruct Hin as [->|Hin].
  - apply (@rfor_stable xs s1 s' a HI1 Hr Hx). exact (establish HI E).
  - exact (IH s1 s' HI1 Hxs Hr a Hin).
Qed.

End LoopFacts.

Lemma ordpairs_seq (k n : nat) :
  ForallOrdPairs (fun a b => a <> b) (seq k n).
Proof.
  revert k. induction n as [|n IH]; intros k; simpl; constructor; auto.
  apply Forall_forall. intros b Hb. apply in_seq in Hb. lia.
Qed.

Lemma ordpairs_combine_seq {B} (xs : list B) (n k : nat) :
  ForallOrdPairs (fun a b : nat * B => fst a <> fst b) (combine (seq k n) xs).
Proof.
  revert k xs. induction n as [|n IH]; intros k [|x xs]; simpl;
    try constructor; auto.
  apply Forall_forall. intros [j y] Hb. apply in_combine_l in Hb.
  apply in_seq in Hb. simpl. lia.
Qed.

Lemma in_combine_seq_nth {B} (xs : list B) (n i : nat) (x : B) :
  length xs = n -> nth_error xs i = Some x -> In (i, x) (combine (seq 0 n) xs).
Proof.
  intros Hlen Hx. apply (nth_error_In _ i).
  now rewrite (nth_error_combine_seq xs 0 i Hlen Hx).
Qed.

Ltac rbind_in H x E :=
  match type of H with
  | rbind ?m _ = _ =>
      destruct m as [x|] eqn:E; [cbn [rbind] in H | discriminate H]
  end.

(** ** Assignments *)

Section AssignFacts.

Context {K : Type} `{Scalar K}.

Lemma assign_mat3_Ok (t : tensor3 K) (i : nat) (x : matrix K) (t' : tensor3 K) :
  assign_mat3 t i x = Ok t' ->
  fits (nrows x) (dim1 t) = true /\ fits (ncols x) (dim2 t) = true
  /\ dim0 t' = dim0 t /\ dim1 t' = dim1 t /\ dim2 t' = dim2 t
  /\ forall l r c,
       tget t' l r c
       = if l =? i then mget x (bidx (nrows x) r) (bidx (ncols x) c)
         else tget t l r c.
Proof.
  unfold assign_mat3. destruct (i <? dim0 t); [|discriminate].
  destruct (fits (nrows x) (dim1 t)) eqn:E1; [|discriminate].
  destruct (fits (ncols x) (dim2 t)) eqn:E2; [|discriminate].
  simpl. intros Ht. inversion Ht; subst t'; clear Ht. simpl. auto 10.
Qed.

Lemma assign_col_Ok (m : matrix K) (i : nat) (v : list K) (m' : matrix K) :
  assign_col m i v = Ok m' ->
  fits (length v) (nrows m) = true
  /\ nrows m' = nrows m /\ ncols m' = ncols m
  /\ forall r c,
       mget m' r c
       = if c =? i then nth (bidx (length v) r) v zero else mget m r c.
Proof.
  unfold assign_col. destruct (i <? ncols m); [|discriminate].
  destruct (fits (length v) (nrows m)) eqn:E1; [|discriminate].
  intros Hm. inversion Hm; subst m'; clear Hm. simpl. auto.
Qed.

Lemma assign_col_scalar_Ok (m : matrix K) (i : nat) (x : K) (m' : matrix K) :
  assign_col_scalar m i x = Ok m' ->
  nrows m' = nrows m /\ ncols m' = ncols m
  /\ forall r c, mget m' r c = if c =? i then x else mget m r c.
Proof.
  unfold assign_col_scalar. destruct (i <? ncols m); [|discriminate].
  intros Hm. inversion Hm; subst m'; clear Hm. simpl. auto.
Qed.

Lemma assign_row_Ok (m : matrix K) (i : nat) (v : list K) (m' : matrix K) :
  assign_row m i v = Ok m' ->
  fits (length v) (ncols m) = true
  /\ nrows m' = nrows m /\ ncols m' = ncols m
  /\ forall r c,
       mget m' r c
       = if r =? i then nth (bidx (length v) c) v zero else mget m r c.
Proof.
  unfold assign_row. destruct (i <? nrows m); [|discriminate].
  destruct (fits (length v) (ncols m)) eqn:E1; [|discriminate].
  intros Hm. inversion Hm; subst m'; clear Hm. simpl. auto.
Qed.

Lemma norm_indices_length (n : nat) (idx : list Z) :
  forall js, norm_indices n idx = Ok js -> length js = length idx.
Proof.
  induction idx as [|i idx IH]; intros js Hn; simpl in Hn.
  - now inversion Hn.
  - destruct (norm_index n i) as [j|]; [|discriminate]. simpl in Hn.
    destruct (norm_indices n idx) as [js'|]; [|discriminate]. simpl in Hn.
    inversion Hn; subst. simpl. f_equal. now apply IH.
Qed.

Lemma nth_map_seq (f : nat -> K) (n z : nat) (d : K) :
  z < n -> nth z (map f (seq 0 n)) d = f z.
Proof.
  intros Hz. rewrite (nth_indep _ d (f 0)) by (now rewrite length_map, length_seq).
  rewrite map_nth. now rewrite seq_nth.
Qed.

End AssignFacts.

(** ** The Constrained Projector *)

Section ConstrainedFacts.

Context {K : Type} `{Scalar K} `{Solvers K}.

Variables (corr : tensor3 K) (nmodes : nat) (f_ind : list Z).

Lemma eigenmodes_step_Ok (trans tmat : tensor3 K) (i : nat)
    (trans' tmat' : tensor3 K) :
  dim1 trans = nmodes ->
  eigenmodes_step corr nmodes f_ind (trans, tmat) i = Ok (trans', tmat') ->
  exists cl evals evecs js,
    tensor_row corr i = Ok cl /\ eigh cl = Ok (evals, evecs)
    /\ norm_indices (dim2 trans) f_ind = Ok js
    /\ assign_mat3 trans i (transpose (last_cols evecs nmodes)) = Ok trans'
    /\ (dim0 tmat' = dim0 tmat /\ dim1 tmat' = dim1 tmat /\ dim2 tmat' = dim2 tmat)
    /\ forall l r c,
         tget tmat' l r c
         = if l =? i
           then tget trans' i (bidx nmodes r) (nth (bidx (length js) c) js 0)
           else tget tmat l r c.
Proof.
  intros Hd1. unfold eigenmodes_step. intros Hs.
  rbind_in Hs cl Ecl. rbind_in Hs ev Ee. destruct ev as [evals evecs].
  cbn [snd] in Hs. rbind_in Hs t1 Et. rbind_in Hs ti Eti.
  unfold take_cols in Hs at 1.
  destruct (norm_indices (ncols ti) f_ind) as [js|] eqn:Ejs;
    cbn [rbind] in Hs; [|discriminate].
  rbind_in Hs t2 Et2.
  inversion Hs; subst t1 t2; clear Hs.
  destruct (assign_mat3_Ok _ _ _ Et) as (_ & _ & Hd0' & Hd1' & Hd2' & _).
  unfold tensor_row in Eti. destruct (i <? dim0 trans'); [|discriminate].
  inversion Eti; subst ti; clear Eti. simpl in Ejs.
  destruct (assign_mat3_Ok _ _ _ Et2) as (_ & _ & H0' & H1' & H2' & Hget).
  simpl in Hget.
  exists cl, evals, evecs, js. rewrite <- Hd2'.
  repeat split; auto.
  intros l r c. rewrite Hget. now rewrite Hd1', Hd1.
Qed.


(** The loop of lines 291-293. *)
Lemma eigenmodes_loop (n : nat) (trans tmat : tensor3 K) :
  rfor (seq 0 n) (eigenmodes_step corr nmodes f_ind)
    (zeros3 (dim0 corr) nmodes (dim2 corr), zeros3 (dim0 corr) nmodes nmodes)
  = Ok (trans, tmat) ->
  (dim0 trans = dim0 corr /\ dim1 trans = nmodes /\ dim2 trans = dim2 corr
   /\ dim0 tmat = dim0 corr /\ dim1 tmat = nmodes /\ dim2 tmat = nmodes)
  /\ forall l, l < n ->
       exists cl evals evecs js,
         tensor_row corr l = Ok cl /\ eigh cl = Ok (evals, evecs)
         /\ norm_indices (dim2 corr) f_ind = Ok js
         /\ fits (nrows (transpose (last_cols evecs nmodes))) nmodes = true
         /\ fits (ncols (transpose (last_cols evecs nmodes))) (dim2 corr) = true
         /\ (forall r c,
               tget trans l r c
               = mget (transpose (last_cols evecs nmodes))
                   (bidx (nrows (transpose (last_cols evecs nmodes))) r)
                   (bidx (ncols (transpose (last_cols evecs nmodes))) c))
         /\ (forall r c,
               tget tmat l r c
               = tget trans l (bidx nmodes r) (nth (bidx (length js) c) js 0)).
Proof.
  intros Hr.
  set (Inv := fun st : tensor3 K * tensor3 K =>
         dim0 (fst st) = dim0 corr /\ dim1 (fst st) = nmodes
         /\ dim2 (fst st) = dim2 corr
         /\ dim0 (snd st) = dim0 corr /\ dim1 (snd st) = nmodes
         /\ dim2 (snd st) = nmodes).
  set (post := fun (l : nat) (st : tensor3 K * tensor3 K) =>
         exists cl evals evecs js,
           tensor_row corr l = Ok cl /\ eigh cl = Ok (evals, evecs)
           /\ norm_indices (dim2 corr) f_ind = Ok js
           /\ fits (nrows (transpose (last_cols evecs nmodes))) nmodes = true
           /\ fits (ncols (transpose (last_cols evecs nmodes))) (dim2 corr) = true
           /\ (forall r c,
                 tget (fst st) l r c
                 = mget (transpose (last_cols evecs nmodes))
                     (bidx (nrows (transpose (last_cols evecs nmodes))) r)
                     (bidx (ncols (transpose (last_cols evecs nmodes))) c))
           /\ (forall r c,
                 tget (snd st) l r c
                 = tget (fst st) l (bidx nmodes r)
                     (nth (bidx (length js) c) js 0))).
  assert (Hstep : forall st i st',
             Inv st -> eigenmodes_step corr nmodes f_ind st i = Ok st' ->
             Inv st' /\ post i st'
             /\ forall l, l <> i ->
                  (forall r c, tget (fst st') l r c = tget (fst st) l r c)
                  /\ (forall r c, tget (snd st') l r c = tget (snd st) l r c)).
  { intros [t m] i [t' m'] (I0 & I1 & I2 & I3 & I4 & I5) Hs. cbn [fst snd] in *.
    destruct (@eigenmodes_step_Ok t m i t' m' I1 Hs)
      as (cl & evals & evecs & js & Ecl & Ee & Ejs & Et & (D0 & D1 & D2) & Hm).
    destruct (assign_mat3_Ok _ _ _ Et) as (F1 & F2 & T0 & T1 & T2 & Ht).
    rewrite I2 in Ejs. rewrite I1 in F1. rewrite I2 in F2.
    split; [|split].
    - unfold Inv. simpl. repeat split; congruence.
    - exists cl, evals, evecs, js. simpl. repeat split; auto.
      + intros r c. now rewrite Ht, Nat.eqb_refl.
      + intros r c. now rewrite Hm, Nat.eqb_refl.
    - intros l Hl. apply Nat.eqb_neq in Hl. simpl. split; intros r c.
      + now rewrite Ht, Hl.
      + now rewrite Hm, Hl. }
  assert (Hinit : Inv (zeros3 (dim0 corr) nmodes (dim2 corr),
                       zeros3 (dim0 corr) nmodes nmodes))
    by (unfold Inv; simpl; auto 10).
  split.
  - apply (@rfor_invariant _ _ (eigenmodes_step corr nmodes f_ind) Inv
             (fun s a s' HI Hs => proj1 (Hstep s a s' HI Hs))
             (seq 0 n) _ (trans, tmat) Hinit Hr).
  - intros l Hl.
    apply (@rfor_post _ _ (eigenmodes_step corr nmodes f_ind) Inv post
             (fun a b => a <> b)
             (fun s a s' HI Hs => proj1 (Hstep s a s' HI Hs))
             (fun s a s' HI Hs => proj1 (proj2 (Hstep s a s' HI Hs)))) with
      (xs := seq 0 n) (s := (zeros3 (dim0 corr) nmodes (dim2 corr),
                             zeros3 (dim0 corr) nmodes nmodes))
      (s' := (trans, tmat)) (a := l); auto.
    + intros s a b s' HI Hs Hab (cl & evals & evecs & js & P1 & P2 & P3 & P4 & P5 & P6 & P7).
      destruct (proj2 (proj2 (Hstep s b s' HI Hs)) a Hab) as [Ht Hm].
      exists cl, evals, evecs, js. repeat split; auto.
      * intros r c. now rewrite Ht.
      * intros r c. now rewrite Hm, Ht.
    + apply ordpairs_seq.
    + apply in_seq. lia.
Qed.


(** The loop of lines 296-297. *)
Lemma harmonic_loop (maxl : Z) (constraints : list (Z * list K))
    (nlm nm : nat) (cmap : matrix K) :
  rfor (combine (seq 0 (length constraints)) constraints)
    (harmonic_step maxl) (zeros2 nlm nm) = Ok cmap ->
  nrows cmap = nlm /\ ncols cmap = nm
  /\ forall i cons, nth_error constraints i = Some cons ->
       exists a,
         map2alm (snd cons) maxl = Ok a
         /\ fits (length a) nlm = true
         /\ forall r, mget cmap r i = nth (bidx (length a) r) a zero.
Proof.
  intros Hr.
  set (Inv := fun m : matrix K => nrows m = nlm /\ ncols m = nm).
  set (post := fun (ic : nat * (Z * list K)) (m : matrix K) =>
         exists a,
           map2alm (snd (snd ic)) maxl = Ok a
           /\ fits (length a) nlm = true
           /\ forall r, mget m r (fst ic) = nth (bidx (length a) r) a zero).
  assert (Hstep : forall m ic m',
             Inv m -> harmonic_step maxl m ic = Ok m' ->
             Inv m' /\ post ic m'
             /\ forall j, j <> fst ic -> forall r, mget m' r j = mget m r j).
  { intros m [i cons] m' [I0 I1] Hs. unfold harmonic_step in Hs.
    rbind_in Hs a Ea.
    destruct (assign_col_Ok _ _ _ Hs) as (F & R & C & Hget).
    rewrite I0 in F. split; [|split].
    - split; congruence.
    - exists a. cbn [fst snd]. repeat split; auto.
      intros r. now rewrite Hget, Nat.eqb_refl.
    - cbn [fst]. intros j Hj r. apply Nat.eqb_neq in Hj. now rewrite Hget, Hj. }
  assert (Hinit : Inv (zeros2 nlm nm)) by (split; reflexivity).
  destruct (@rfor_invariant _ _ (harmonic_step maxl) Inv
              (fun s a s' HI Hs => proj1 (Hstep s a s' HI Hs))
              _ _ cmap Hinit Hr) as [R C].
  repeat split; auto.
  intros i cons Hi.
  apply (@rfor_post _ _ (harmonic_step maxl) Inv post
           (fun a b => fst a <> fst b)
           (fun s a s' HI Hs => proj1 (Hstep s a s' HI Hs))
           (fun s a s' HI Hs => proj1 (proj2 (Hstep s a s' HI Hs)))) with
    (xs := combine (seq 0 (length constraints)) constraints)
    (s := zeros2 nlm nm) (s' := cmap) (a := (i, cons)); auto.
  - intros s a b s' HI Hs Hab (x & P1 & P2 & P3).
    exists x. repeat split; auto. intros r.
    now rewrite (proj2 (proj2 (Hstep s b s' HI Hs)) (fst a) Hab).
  - apply ordpairs_combine_seq.
  - now apply in_combine_seq_nth.
Qed.

(** The loop of lines 301-305. *)
Lemma project_loop (trans tmat : tensor3 K) (cmap : matrix K)
    (larr : list nat) (numz : nat) (cv : matrix K) :
  rfor (combine (seq 0 (length larr)) larr) (project_step trans tmat cmap)
    (zeros2 numz (length larr)) = Ok cv ->
  nrows cv = numz /\ ncols cv = length larr
  /\ forall i l, nth_error larr i = Some l ->
       (l = 0 -> forall z, mget cv z i = zero)
       /\ (l <> 0 ->
           exists t_l m_l ci amplitude v,
             tensor_row trans l = Ok t_l /\ tensor_row tmat l = Ok m_l
             /\ matrix_row cmap i = Ok ci
             /\ solve (transpose m_l) ci = Ok amplitude
             /\ np_dot_vec (transpose t_l) amplitude = Ok v
             /\ fits (length v) numz = true
             /\ forall z, mget cv z i = nth (bidx (length v) z) v zero).
Proof.
  intros Hr.
  set (Inv := fun m : matrix K => nrows m = numz /\ ncols m = length larr).
  set (post := fun (il : nat * nat) (m : matrix K) =>
         (snd il = 0 -> forall z, mget m z (fst il) = zero)
         /\ (snd il <> 0 ->
             exists t_l m_l ci amplitude v,
               tensor_row trans (snd il) = Ok t_l
               /\ tensor_row tmat (snd il) = Ok m_l
               /\ matrix_row cmap (fst il) = Ok ci
               /\ solve (transpose m_l) ci = Ok amplitude
               /\ np_dot_vec (transpose t_l) amplitude = Ok v
               /\ fits (length v) numz = true
               /\ forall z, mget m z (fst il) = nth (bidx (length v) z) v zero)).
  assert (Hstep : forall m il m',
             Inv m -> project_step trans tmat cmap m il = Ok m' ->
             Inv m' /\ post il m'
             /\ forall j, j <> fst il -> forall r, mget m' r j = mget m r j).
  { intros m [i l] m' [I0 I1] Hs. unfold project_step in Hs.
    destruct (l =? 0) eqn:El.
    - apply Nat.eqb_eq in El.
      destruct (assign_col_scalar_Ok _ _ _ Hs) as (R & C & Hget).
      split; [|split].
      + split; congruence.
      + split; cbn [fst snd]; [|congruence].
        intros _ z. now rewrite Hget, Nat.eqb_refl.
      + cbn [fst]. intros j Hj r. apply Nat.eqb_neq in Hj. now rewrite Hget, Hj.
    - apply Nat.eqb_neq in El.
      rbind_in Hs t_l Etl. rbind_in Hs m_l Eml. rbind_in Hs ci Eci.
      rbind_in Hs amplitude Ea. rbind_in Hs v Ev.
      destruct (assign_col_Ok _ _ _ Hs) as (F & R & C & Hget).
      rewrite I0 in F. split; [|split].
      + split; congruence.
      + split; cbn [fst snd]; [congruence|].
        intros _. exists t_l, m_l, ci, amplitude, v. repeat split; auto.
        intros z. now rewrite Hget, Nat.eqb_refl.
      + cbn [fst]. intros j Hj r. apply Nat.eqb_neq in Hj. now rewrite Hget, Hj. }
  assert (Hinit : Inv (zeros2 numz (length larr))) by (split; reflexivity).
  destruct (@rfor_invariant _ _ (project_step trans tmat cmap) Inv
              (fun s a s' HI Hs => proj1 (Hstep s a s' HI Hs))
              _ _ cv Hinit Hr) as [R C].
  split; [exact R|]. split; [exact C|].
  intros i l Hi.
  apply (@rfor_post _ _ (project_step trans tmat cmap) Inv post
           (fun a b => fst a <> fst b)
           (fun s a s' HI Hs => proj1 (Hstep s a s' HI Hs))
           (fun s a s' HI Hs => proj1 (proj2 (Hstep s a s' HI Hs)))) with
    (xs := combine (seq 0 (length larr)) larr)
    (s := zeros2 numz (length larr)) (s' := cv) (a := (i, l)); auto.
  - intros s a b s' HI Hs Hab [P0 P1].
    pose proof (proj2 (proj2 (Hstep s b s' HI Hs)) (fst a) Hab) as Hsame.
    split.
    + intros Hl z. rewrite Hsame. now apply P0.
    + intros Hl. destruct (P1 Hl) as (t_l & m_l & ci & amplitude & v & Q).
      exists t_l, m_l, ci, amplitude, v.
      destruct Q as (Q1 & Q2 & Q3 & Q4 & Q5 & Q6 & Q7). repeat split; auto.
      intros z. now rewrite Hsame.
  - apply ordpairs_combine_seq.
  - now apply in_combine_seq_nth.
Qed.

(** The loop of lines 307-310. *)
Lemma synthesize_slices_Ok (cv : matrix K) (numz : nat) (nside : Z)
    (hpmaps : matrix K) :
  synthesize_slices cv numz nside = Ok hpmaps ->
  nrows hpmaps = numz /\ ncols hpmaps = Z.to_nat (nside2npix nside)
  /\ forall i, i < numz ->
       exists ci m,
         matrix_row cv i = Ok ci /\ alm2map ci nside = Ok m
         /\ fits (length m) (ncols hpmaps) = true
         /\ forall p, mget hpmaps i p = nth (bidx (length m) p) m zero.
Proof.
  unfold synthesize_slices.
  destruct (nside2npix nside <? 0)%Z; [discriminate|]. intros Hr.
  set (npix := Z.to_nat (nside2npix nside)) in *.
  set (step := fun (hp : matrix K) (i : nat) =>
         rbind (matrix_row cv i) (fun ci =>
         rbind (alm2map ci nside) (fun m => assign_row hp i m))) in *.
  set (Inv := fun m : matrix K => nrows m = numz /\ ncols m = npix).
  set (post := fun (i : nat) (hp : matrix K) =>
         exists ci m,
           matrix_row cv i = Ok ci /\ alm2map ci nside = Ok m
           /\ fits (length m) npix = true
           /\ forall p, mget hp i p = nth (bidx (length m) p) m zero).
  assert (Hstep : forall hp i hp',
             Inv hp -> step hp i = Ok hp' ->
             Inv hp' /\ post i hp'
             /\ forall j, j <> i -> forall p, mget hp' j p = mget hp j p).
  { intros hp i hp' [I0 I1] Hs. unfold step in Hs.
    rbind_in Hs ci Eci. rbind_in Hs m Em.
    destruct (assign_row_Ok _ _ _ Hs) as (F & R & C & Hget).
    rewrite I1 in F. split; [|split].
    - split; congruence.
    - exists ci, m. repeat split; auto.
      intros p. now rewrite Hget, Nat.eqb_refl.
    - intros j Hj p. apply Nat.eqb_neq in Hj. now rewrite Hget, Hj. }
  assert (Hinit : Inv (zeros2 numz npix)) by (split; reflexivity).
  destruct (@rfor_invariant _ _ step Inv
              (fun s a s' HI Hs => proj1 (Hstep s a s' HI Hs))
              _ _ hpmaps Hinit Hr) as [R C].
  split; [exact R|]. split; [exact C|].
  intros i Hi. rewrite C.
  apply (@rfor_post _ _ step Inv post (fun a b => a <> b)
           (fun s a s' HI Hs => proj1 (Hstep s a s' HI Hs))
           (fun s a s' HI Hs => proj1 (proj2 (Hstep s a s' HI Hs)))) with
    (xs := seq 0 numz) (s := zeros2 numz npix) (s' := hpmaps) (a := i); auto.
  - intros s a b s' HI Hs Hab (ci & m & P1 & P2 & P3 & P4).
    exists ci, m. repeat split; auto. intros p.
    now rewrite (proj2 (proj2 (Hstep s b s' HI Hs)) a Hab).
  - apply ordpairs_seq.
  - apply in_seq. lia.
Qed.

End ConstrainedFacts.

(** ** Claims on the Spectral Integrator *)



(** C8, amended: with [zromb > 0] and [zwidth] unset, a [zarray] of fewer
    than two elements makes [clarray] raise (the second sorted value does not
    exist). *)
Theorem clarray_short_zarray_raises (K : Type) (SK : Scalar K)
    (romb_samples : list K -> K -> K) (aps : Z -> K -> K -> K) (lmax : Z)
    (zarray : list K) (zromb : Z) :
  (0 < zromb)%Z -> length zarray < 2 ->
  clarray romb_samples aps lmax zarray zromb None = Raise IndexError.
Proof.
  intros Hz Hlen. apply clarray_short_grid; [lia | exact Hlen].
Qed.

Lemma clarray_short_zarray_raises_witness :
  clarray romb_trapezoid aps_flat 8 [qc 3] 3 None = Raise IndexError.
Proof.
  apply clarray_short_zarray_raises; [reflexivity | simpl; lia].
Defined.

(** C8 as stated fails: the [zarray] [[1.0, 1.0]], of one distinct value, is
    not rejected.  The inferred half-width is zero and the call returns a
    tensor, of which every entry is the [nan] of a division of zero by
    zero. *)
Lemma clarray_equal_values_returns :
  exists C,
    clarray romb_trapezoid aps_flat 5 [1%float; 1%float] 1 None = Ok C
    /\ dim0 C = 6 /\ dim1 C = 2 /\ dim2 C = 2
    /\ forall l i j, l < 6 -> i < 2 -> j < 2 ->
         PrimFloat.is_nan (tget C l i j) = true.
Proof.
  assert (Hrun :
    match clarray romb_trapezoid aps_flat 5 [1%float; 1%float] 1 None with
    | Ok C =>
        (dim0 C =? 6) && (dim1 C =? 2) && (dim2 C =? 2)
        && forallb (fun l =>
             forallb (fun i =>
               forallb (fun j => PrimFloat.is_nan (tget C l i j)) (seq 0 2))
               (seq 0 2))
             (seq 0 6)
    | Raise _ => false
    end = true) by (vm_compute; reflexivity).
  destruct (clarray romb_trapezoid aps_flat 5 [1%float; 1%float] 1 None)
    as [C|e]; [|discriminate Hrun].
  exists C. split; [reflexivity|].
  repeat (apply andb_true_iff in Hrun; destruct Hrun as [Hrun ?]).
  repeat match goal with
         | E : (_ =? _) = true |- _ => apply Nat.eqb_eq in E
         end.
  repeat split; auto.
  intros l i j Hl Hi Hj.
  match goal with
  | E : forallb _ (seq 0 6) = true |- _ => rename E into Hall
  end.
  rewrite forallb_forall in Hall.
  specialize (Hall l ltac:(apply in_seq; lia)).
  rewrite forallb_forall in Hall.
  specialize (Hall i ltac:(apply in_seq; lia)).
  rewrite forallb_forall in Hall.
  apply Hall. apply in_seq. lia.
Qed.

(** C10: with [zromb > 0] and [lmax < 5], [clarray] raises instead of
    returning a tensor; when the bin half-width can be formed, the error is
    the [ValueError] of the split of the multipoles into [lmax // 5 <= 0]
    sections. *)
Theorem clarray_lmax_below_5_fails (K : Type) (SK : Scalar K)
    (romb_samples : list K -> K -> K) (aps : Z -> K -> K -> K) (lmax : Z)
    (zarray : list K) (zromb : Z) (zwidth : option K) :
  (0 < zromb)%Z -> (lmax < 5)%Z ->
  is_raise (clarray romb_samples aps lmax zarray zromb zwidth)
  /\ ((zwidth <> None \/ 2 <= length zarray) ->
      array_split (arange (lmax + 1)) (lmax / 5) = Raise ValueError
      /\ clarray romb_samples aps lmax zarray zromb zwidth = Raise ValueError).
Proof.
  intros Hz Hl.
  assert (Hsplit : forall Hw : zwidth <> None \/ 2 <= length zarray,
             clarray romb_samples aps lmax zarray zromb zwidth
             = Raise ValueError)
    by (intros Hw; now apply clarray_no_section).
  split.
  - destruct zwidth as [w|].
    + eexists. apply Hsplit. left. discriminate.
    + destruct (le_lt_dec 2 (length zarray)) as [Hlen|Hlen].
      * eexists. apply Hsplit. now right.
      * eexists. apply clarray_short_grid; [lia | exact Hlen].
  - intros Hw. split; [|now apply Hsplit].
    apply array_split_no_section.
    assert (lmax / 5 < 1)%Z by (apply Z.div_lt_upper_bound; lia). lia.
Qed.

Lemma clarray_lmax_below_5_fails_witness :
  is_raise (clarray romb_trapezoid aps_flat 4 [qc 0; qc 1] 3 None)
  /\ clarray romb_trapezoid aps_flat 4 [qc 0; qc 1] 3 None = Raise ValueError.
Proof.
  destruct (@clarray_lmax_below_5_fails Qc _ romb_trapezoid aps_flat 4
              [qc 0; qc 1] 3 None) as [Hr Hv]; [reflexivity | reflexivity |].
  split; [exact Hr|].
  apply Hv. right. simpl. lia.
Defined.

(** ** Claims on the Realization Synthesizer *)

Section MkfullskyCalls.

Context {K G : Type} `{Scalar K} `{Collaborators K G}.

Lemma mkfullsky_adds_only (corr : corr_arg K) (nside : Z) (alms : bool)
    (gl : option (list (matrix K))) (c0 : tensor3 K) :
  nth_error (as_list corr) 0 = Some c0 ->
  adds_only (expected_call (Some true) (as_list corr) (dim1 c0) (dim0 c0))
            (mkfullsky corr nside alms gl).
Proof.
  intros Hc0. unfold mkfullsky. apply adds_only_bind.
  - now apply alm_lists_adds_only.
  - intros alm_list _ _ _. destruct alms.
    + apply adds_only_bind_lift. intros a _. apply adds_only_ret.
    + apply adds_only_bind.
      * apply adds_only_for. intros sky ii _.
        apply adds_only_bind_lift. intros alm _.
        apply adds_only_bind_lift. intros s _.
        apply adds_only_bind_lift. intros s0 _. apply adds_only_ret.
      * intros sky _ _ _.
        apply adds_only_bind_lift. intros a _. apply adds_only_ret.
Qed.

Lemma mkfullsky_der1_adds_only (corr : corr_arg K) (nside : Z)
    (comovd : list K) (alms : bool) (gl : option (list (matrix K)))
    (c0 : tensor3 K) :
  nth_error (as_list corr) 0 = Some c0 ->
  adds_only (expected_call None (as_list corr) (dim1 c0) (dim0 c0))
            (mkfullsky_der1 corr nside comovd alms gl).
Proof.
  intros Hc0. unfold mkfullsky_der1. apply adds_only_bind.
  - now apply alm_lists_adds_only.
  - intros alm_list _ _ _. destruct alms.
    + apply adds_only_bind_lift. intros a _. apply adds_only_ret.
    + apply adds_only_bind.
      * apply adds_only_for. intros sky ii _.
        apply adds_only_bind_lift. intros alm _.
        apply adds_only_bind_lift. intros [[s dt] dp] _.
        repeat (apply adds_only_bind_lift; intros ? _).
        apply adds_only_ret.
      * intros sky _ _ _.
        apply adds_only_bind_lift. intros a _. apply adds_only_ret.
Qed.

(** Whatever its input and its outcome, [mkfullsky_der1] passes no
    [fixed_ev_sign_convention] to the factorisation. *)
Lemma mkfullsky_der1_keywords (corr : corr_arg K) (nside : Z)
    (comovd : list K) (alms : bool) (gl : option (list (matrix K)))
    (w : world K G) (res : result (fullsky_der1 K)) (w' : world K G) :
  mkfullsky_der1 corr nside comovd alms gl w = (res, w') ->
  exists tr,
    calls w' = calls w ++ tr
    /\ forall rc, In rc (root_calls_in tr) ->
         rc_truncate rc = Some false
         /\ rc_fixed_ev_sign_convention rc = None.
Proof.
  intros Hrun.
  destruct (nth_error (as_list corr) 0) as [c0|] eqn:Ec0.
  - destruct (@mkfullsky_der1_adds_only corr nside comovd alms gl c0 Ec0 w)
      as (tr & Hcalls & HP).
    rewrite Hrun in Hcalls. exists tr. split; [exact Hcalls|].
    intros rc Hin.
    destruct (root_calls_in_Forall HP rc Hin)
      as (l & c & _ & _ & cl & mx & _ & _ & _ & Ht & Hk).
    auto.
  - exists []. unfold mkfullsky_der1, bind, alm_lists, lift in Hrun.
    destruct (as_list corr); [|discriminate]. simpl in Hrun.
    inversion Hrun; subst. rewrite app_nil_r. split; [reflexivity|].
    intros rc [].
Qed.

Lemma mkfullsky_no_tensor (nside : Z) (alms : bool)
    (gl : option (list (matrix K))) (w : world K G) :
  mkfullsky (CorrList []) nside alms gl w = (Raise IndexError, w).
Proof. reflexivity. Qed.

End MkfullskyCalls.


Lemma root_keeps_shape_Qc : @root_keeps_shape Qc nat Collaborators_Qc.
Proof.
  intros rc t _ Ht. simpl in Ht. inversion Ht; subst. auto.
Defined.




(** C7, amended: when the second covariance axis of the first (or only)
    tensor does not match the declared coordinate count, [mkfullsky] raises
    its exception at once: no noise is drawn, no factorisation is called and
    nothing is returned. *)
Theorem mkfullsky_first_tensor_shape (K G : Type) (SK : Scalar K)
    (CK : Collaborators K G) (corr : corr_arg K) (nside : Z) (alms : bool)
    (gl : option (list (matrix K))) (w : world K G) (c0 : tensor3 K) :
  nth_error (as_list corr) 0 = Some c0 ->
  dim2 c0 <> dim1 c0 ->
  mkfullsky corr nside alms gl w
  = (Raise (Exception "Correlation matrix is incorrect shape."), w).
Proof.
  intros Hc0 Hne. unfold mkfullsky, bind at 1, alm_lists, bind, lift, raise.
  destruct (as_list corr) as [|c rest]; [discriminate|].
  simpl in Hc0. inversion Hc0; subst c.
  change (getitem (c0 :: rest) 0) with (Ok c0). cbv beta iota.
  apply Nat.eqb_neq in Hne. rewrite Hne. reflexivity.
Qed.

Lemma mkfullsky_first_tensor_shape_witness :
  mkfullsky (CorrList [tensor_wide; tensor_a]) 1 false None world0
  = (Raise (Exception "Correlation matrix is incorrect shape."), world0).
Proof.
  apply (@mkfullsky_first_tensor_shape Qc nat _ _
           (CorrList [tensor_wide; tensor_a]) 1%Z false None world0 tensor_wide).
  - reflexivity.
  - simpl. lia.
Defined.

(** C7 as stated fails: a list whose second tensor has another coordinate
    count than the first (1 instead of 2, on both covariance axes) is
    accepted, and a list of two results is returned. *)
Lemma mkfullsky_accepts_inconsistent_tensors :
  dim1 tensor_a = 2 /\ dim1 tensor_small = 1 /\ dim2 tensor_small = 1
  /\ exists r w',
       mkfullsky (CorrList [tensor_a; tensor_small]) 1 true None world0
       = (Ok r, w')
       /\ fullsky_length r = Some 2.
Proof.
  repeat split.
  assert (Hret : returns (fst (mkfullsky (CorrList [tensor_a; tensor_small])
                                1 true None world0)) = true)
    by (vm_compute; reflexivity).
  destruct (mkfullsky (CorrList [tensor_a; tensor_small]) 1 true None world0)
    as [[r|e] w'] eqn:E; [|discriminate Hret].
  exists r, w'. split; [reflexivity|].
  apply mkfullsky_Ok in E. destruct E as (_ & _ & _ & _ & _ & _ & _ & _ & Hl & _).
  exact Hl.
Qed.

(** C9, amended: a run of [mkfullsky] that returns gives a bare result for a
    single tensor and for a list of exactly one tensor, and a list of the
    length of the input for a list of two tensors or more; the result at the
    position [ii] is the one computed from the tensor at the position [ii]. *)
Theorem mkfullsky_result_shape (K G : Type) (SK : Scalar K)
    (CK : Collaborators K G) (corr : corr_arg K) (nside : Z) (alms : bool)
    (gl : option (list (matrix K))) (w : world K G) (r : fullsky K)
    (w' : world K G) :
  mkfullsky corr nside alms gl w = (Ok r, w') ->
  (forall c, corr = CorrArray c -> fullsky_length r = None)
  /\ (forall cs, corr = CorrList cs -> 2 <= length cs ->
        fullsky_length r = Some (length cs))
  /\ (forall cs, corr = CorrList cs -> length cs = 1 ->
        fullsky_length r = None)
  /\ exists numz maxl1 lgs,
       forall ii c,
         nth_error (as_list corr) ii = Some c ->
         exists e,
           entry_of r ii = Some e
           /\ tensor_entry numz maxl1 lgs nside alms c = Ok e.
Proof.
  intros Hrun. apply mkfullsky_Ok in Hrun.
  destruct Hrun as (c0 & rest & gs & Hcorr & Hsq & Hn & Hlg & Hc & Hlen & Hnth).
  repeat split.
  - intros c ->. exact Hlen.
  - intros cs -> Hcs. rewrite Hlen. simpl.
    destruct (length cs =? 1) eqn:E; [|reflexivity].
    apply Nat.eqb_eq in E. lia.
  - intros cs -> Hcs. rewrite Hlen. simpl. now rewrite Hcs.
  - eauto.
Qed.

Lemma mkfullsky_result_shape_witness :
  exists r w',
    mkfullsky (CorrList [tensor_a; tensor_b]) 1 false None world0 = (Ok r, w')
    /\ fullsky_length r = Some 2.
Proof.
  assert (Hret : returns (fst (mkfullsky (CorrList [tensor_a; tensor_b])
                                1 false None world0)) = true)
    by (vm_compute; reflexivity).
  destruct (mkfullsky (CorrList [tensor_a; tensor_b]) 1 false None world0)
    as [[r|e] w'] eqn:E; [|discriminate Hret].
  exists r, w'. split; [reflexivity|].
  destruct (@mkfullsky_result_shape _ _ _ _ _ _ _ _ _ _ _ E) as (_ & Hlist & _).
  apply (Hlist [tensor_a; tensor_b]); [reflexivity | simpl; lia].
Defined.

(** C9 as stated fails: for a list of one tensor the result is a bare array,
    not a list of length one. *)
Lemma mkfullsky_singleton_list_is_bare :
  exists r w',
    mkfullsky (CorrList [tensor_a]) 1 true None world0 = (Ok r, w')
    /\ fullsky_length r = None
    /\ exists a, r = Alms (Bare a).
Proof.
  assert (Hret : match fst (mkfullsky (CorrList [tensor_a]) 1 true None world0)
                 with
                 | Ok (Alms (Bare _)) => true
                 | _ => false
                 end = true)
    by (vm_compute; reflexivity).
  destruct (mkfullsky (CorrList [tensor_a]) 1 true None world0)
    as [[[[a|l]|s]|e] w'] eqn:E; try discriminate Hret.
  exists (Alms (Bare a)), w'. repeat split. now exists a.
Qed.

(** C6 fails on the code: on a list of two tensors with a shared noise list,
    [mkfullsky_der1] returns after four factorisation calls, none of which
    passes [fixed_ev_sign_convention], while [mkfullsky] passes
    [fixed_ev_sign_convention=True] in each of its four calls. *)
Theorem mkfullsky_der1_sign_convention_not_requested :
  returns (fst (mkfullsky_der1 (CorrList [tensor_a; tensor_b]) 1 [qc 1; qc 2]
                  true (Some noise_given) world0)) = true
  /\ map (@rc_fixed_ev_sign_convention Qc)
       (root_calls_in
          (calls (snd (mkfullsky_der1 (CorrList [tensor_a; tensor_b]) 1
                         [qc 1; qc 2] true (Some noise_given) world0))))
     = [None; None; None; None]
  /\ returns (fst (mkfullsky (CorrList [tensor_a; tensor_b]) 1 true
                     (Some noise_given) world0)) = true
  /\ map (@rc_fixed_ev_sign_convention Qc)
       (root_calls_in
          (calls (snd (mkfullsky (CorrList [tensor_a; tensor_b]) 1 true
                         (Some noise_given) world0))))
     = [Some true; Some true; Some true; Some true].
Proof.
  repeat split; vm_compute; reflexivity.
Qed.

(** ** Claims on the Constrained Projector *)

Section ConstrainedRun.

Context {K : Type} `{Scalar K} `{Solvers K}.

(** What a run of lines 269-305 that returns has done. *)
Lemma mkconstrained_modes_Ok (corr : tensor3 K)
    (constraints : list (Z * list K)) (st : modes) :
  mkconstrained_modes corr constraints = Ok st ->
  dim2 corr = dim1 corr
  /\ rfor (seq 0 (dim0 corr))
       (eigenmodes_step corr (length constraints) (map fst constraints))
       (zeros3 (dim0 corr) (length constraints) (dim2 corr),
        zeros3 (dim0 corr) (length constraints) (length constraints))
     = Ok (trans_of st, tmat_of st)
  /\ rfor (combine (seq 0 (length constraints)) constraints)
       (harmonic_step (Z.of_nat (dim0 corr) - 1))
       (zeros2 (length (fst (getlm (Z.of_nat (dim0 corr) - 1))))
               (length constraints))
     = Ok (cmap_of st)
  /\ rfor (combine (seq 0 (length (fst (getlm (Z.of_nat (dim0 corr) - 1)))))
                   (fst (getlm (Z.of_nat (dim0 corr) - 1))))
       (project_step (trans_of st) (tmat_of st) (cmap_of st))
       (zeros2 (dim1 corr) (length (fst (getlm (Z.of_nat (dim0 corr) - 1)))))
     = Ok (cv_of st).
Proof.
  unfold mkconstrained_modes.
  destruct (getlm (Z.of_nat (dim0 corr) - 1)) as [larr marr] eqn:Elm.
  cbn [fst].
  destruct (dim2 corr =? dim1 corr) eqn:Esq; cbn [negb]; [|discriminate].
  replace (Z.to_nat (Z.of_nat (dim0 corr) - 1 + 1)) with (dim0 corr) by lia.
  intros Hs. rbind_in Hs tm Etm. rbind_in Hs cmap Ecmap. rbind_in Hs cv Ecv.
  inversion Hs; subst st; clear Hs. cbn [trans_of tmat_of cmap_of cv_of].
  apply Nat.eqb_eq in Esq. destruct tm as [trans tmat]. cbn [fst snd] in *.
  auto.
Qed.

Lemma getlm_monopole_first (n : nat) :
  0 < n -> nth_error (fst (getlm (Z.of_nat n - 1))) 0 = Some 0.
Proof.
  intros Hn. unfold getlm.
  replace (Z.to_nat (Z.of_nat n - 1 + 1)) with n by lia.
  destruct n as [|n]; [lia|]. reflexivity.
Qed.

End ConstrainedRun.

(** C2: in a run of [mkconstrained] that reaches the synthesis, for every
    multipole [l > 0]: the rows of [trans[l]] are the last [nmodes] columns
    of the eigenvectors of [C[l]], which belong to the [nmodes] largest
    eigenvalues when the eigensolver orders them ([nmodes] is the number of
    constraints, [0 < nmodes <= numz]); [tmat[l]] is [trans[l]] on the
    constrained coordinate columns; and for every coefficient [i] of degree
    [l], the amplitudes are the solution that the solver returns for
    [tmat[l]^T . amplitude = cmap[i]], where [cmap[i]] holds the coefficient
    [i] of the analysed constraint maps (an exact solution when the solver is
    exact), and the coefficient of every coordinate slice [z] is
    [(trans[l]^T . amplitude)[z]]. *)
Theorem mkconstrained_projection (K : Type) (SK : Scalar K) (SV : Solvers K)
    (corr : tensor3 K) (constraints : list (Z * list K)) (st : modes)
    (l : nat) :
  mkconstrained_modes corr constraints = Ok st ->
  0 < l -> l < dim0 corr ->
  exists cl evals evecs js,
    tensor_row corr l = Ok cl /\ eigh cl = Ok (evals, evecs)
    /\ norm_indices (dim1 corr) (map fst constraints) = Ok js
    /\ length js = length constraints
    /\ (eigh_ascending -> 0 < length constraints ->
        length constraints <= dim1 corr ->
        (forall k z, k < length constraints -> z < dim1 corr ->
           tget (trans_of st) l k z
           = mget evecs z (dim1 corr - length constraints + k))
        /\ (forall k j, k < length constraints ->
              j < dim1 corr - length constraints ->
              fleb (nth j evals zero)
                   (nth (dim1 corr - length constraints + k) evals zero) = true))
    /\ (forall k c, k < length constraints -> c < length constraints ->
          tget (tmat_of st) l k c = tget (trans_of st) l k (nth c js 0))
    /\ forall i,
         nth_error (fst (getlm (Z.of_nat (dim0 corr) - 1))) i = Some l ->
         exists amplitude,
           solve (transpose {| nrows := length constraints;
                               ncols := length constraints;
                               mget := tget (tmat_of st) l |})
                 (map (fun c => mget (cmap_of st) i c)
                      (seq 0 (length constraints)))
           = Ok amplitude
           /\ (forall c cons, nth_error constraints c = Some cons ->
               exists a,
                 map2alm (snd cons) (Z.of_nat (dim0 corr) - 1) = Ok a
                 /\ nth_error a (bidx (length a) i)
                    = Some (mget (cmap_of st) i c))
           /\ (solve_exact -> forall c, c < length constraints ->
                 dot_sum (length constraints)
                   (fun k => tget (tmat_of st) l k c)
                   (fun k => nth k amplitude zero)
                 = mget (cmap_of st) i c)
           /\ forall z, z < dim1 corr ->
                mget (cv_of st) z i
                = dot_sum (length constraints)
                    (fun k => tget (trans_of st) l k z)
                    (fun k => nth k amplitude zero).
Proof.
  intros Hrun Hl0 Hl.
  destruct (mkconstrained_modes_Ok _ _ Hrun) as (Hsq & Hloop1 & Hloop2 & Hloop3).
  apply eigenmodes_loop in Hloop1.
  destruct Hloop1 as ((T0 & T1 & T2 & M0 & M1 & M2) & Hmodes).
  destruct (Hmodes l Hl)
    as (cl & evals & evecs & js & Ecl & Ee & Ejs & F1 & F2 & Htrans & Htmat).
  apply harmonic_loop in Hloop2. destruct Hloop2 as (C0 & C1 & Hcmap).
  apply project_loop in Hloop3. destruct Hloop3 as (V0 & V1 & Hcv).
  rewrite Hsq in *.
  pose proof (norm_indices_length _ _ Ejs) as Hjs. rewrite length_map in Hjs.
  exists cl, evals, evecs, js.
  split; [exact Ecl|]. split; [exact Ee|]. split; [exact Ejs|].
  split; [exact Hjs|]. split; [|split].
  - intros Hasc Hn0 Hn.
    destruct (Hasc cl evals evecs Ee) as (Le & Re & Ce & Hord).
    assert (Hcl : nrows cl = dim1 corr).
    { unfold tensor_row in Ecl. destruct (l <? dim0 corr); [|discriminate].
      now inversion Ecl. }
    rewrite Hcl in *. split.
    + intros k z Hk Hz. rewrite Htrans. unfold transpose, last_cols.
      cbn [nrows ncols mget].
      assert (E0 : (length constraints =? 0) = false) by (apply Nat.eqb_neq; lia).
      rewrite E0, Re, Ce.
      rewrite !bidx_in_range by lia. reflexivity.
    + intros k j Hk Hj. apply Hord; lia.
  - intros k c Hk Hc. rewrite Htmat.
    now rewrite !bidx_in_range by lia.
  - intros i Hi.
    assert (Hil : i < length (fst (getlm (Z.of_nat (dim0 corr) - 1))))
      by (apply nth_error_Some; congruence).
    destruct (Hcv i l Hi) as [_ Hproj].
    destruct (Hproj ltac:(lia))
      as (t_l & m_l & ci & amplitude & v & Et & Em & Eci & Ea & Ev & Fv & Hget).
    unfold tensor_row in Et, Em. rewrite T0 in Et. rewrite M0 in Em.
    destruct (l <? dim0 corr); [|discriminate].
    inversion Et; subst t_l; clear Et. inversion Em; subst m_l; clear Em.
    unfold matrix_row in Eci. rewrite C0, C1 in Eci.
    destruct (i <? length (fst (getlm (Z.of_nat (dim0 corr) - 1))));
      [|discriminate].
    inversion Eci; subst ci; clear Eci.
    rewrite M1, M2 in Ea. exists amplitude. split; [exact Ea|].
    split; [|split].
    + intros c cons Hc. destruct (Hcmap c cons Hc) as (a & Ea' & Fa & Hget').
      exists a. split; [exact Ea'|]. rewrite Hget'.
      apply nth_error_nth'. unfold fits in Fa.
      apply orb_true_iff in Fa. unfold bidx.
      destruct Fa as [Fa|Fa]; apply Nat.eqb_eq in Fa.
      * destruct (length a =? 1); lia.
      * rewrite Fa. simpl. lia.
    + intros Hex c Hc. destruct (Hex _ _ _ Ea) as [Hlen Hsol].
      cbn [transpose nrows ncols mget] in Hlen, Hsol.
      rewrite (Hsol c Hc). now rewrite nth_map_seq by exact Hc.
    + intros z Hz. rewrite Hget.
      unfold np_dot_vec in Ev. cbn [transpose nrows ncols mget] in Ev.
      rewrite T1, T2 in Ev.
      destruct (length constraints =? length amplitude); [|discriminate].
      inversion Ev; subst v; clear Ev.
      rewrite length_map, length_seq in *.
      rewrite bidx_in_range by exact Hz. now rewrite nth_map_seq by exact Hz.
Qed.

(** C3: in a run of [mkconstrained] that returns, whatever the tensor, the
    constraints and the resolution, every coefficient of degree [l = 0] (the
    coefficient 0, when there is any multipole) is [0.0] at every coordinate
    slice of [cv], and the map of every slice is synthesised from the row of
    [cv] that holds these zeros. *)
Theorem mkconstrained_monopole_zero (K : Type) (SK : Scalar K) (SV : Solvers K)
    (corr : tensor3 K) (constraints : list (Z * list K)) (nside : Z)
    (hpmaps : matrix K) :
  mkconstrained corr constraints nside = Ok hpmaps ->
  exists st,
    mkconstrained_modes corr constraints = Ok st
    /\ (0 < dim0 corr ->
        nth_error (fst (getlm (Z.of_nat (dim0 corr) - 1))) 0 = Some 0)
    /\ (forall i z,
          nth_error (fst (getlm (Z.of_nat (dim0 corr) - 1))) i = Some 0 ->
          mget (cv_of st) z i = zero)
    /\ nrows hpmaps = dim1 corr
    /\ forall z, z < dim1 corr ->
         exists cz m,
           matrix_row (cv_of st) z = Ok cz
           /\ (forall i,
                 nth_error (fst (getlm (Z.of_nat (dim0 corr) - 1))) i = Some 0 ->
                 nth_error cz i = Some zero)
           /\ alm2map cz nside = Ok m
           /\ forall p, p < ncols hpmaps ->
                nth_error m (bidx (length m) p) = Some (mget hpmaps z p).
Proof.
  unfold mkconstrained. intros Hrun. rbind_in Hrun st Est.
  exists st. split; [reflexivity|].
  destruct (mkconstrained_modes_Ok _ _ Est) as (Hsq & _ & _ & Hloop3).
  apply project_loop in Hloop3. destruct Hloop3 as (V0 & V1 & Hcv).
  apply synthesize_slices_Ok in Hrun. destruct Hrun as (R & C & Hmaps).
  split; [apply getlm_monopole_first|].
  assert (Hzero : forall i z,
             nth_error (fst (getlm (Z.of_nat (dim0 corr) - 1))) i = Some 0 ->
             mget (cv_of st) z i = zero).
  { intros i z Hi. destruct (Hcv i 0 Hi) as [Hz _]. now apply Hz. }
  split; [exact Hzero|]. split; [exact R|].
  intros z Hz. destruct (Hmaps z Hz) as (cz & m & Ecz & Em & Fm & Hget).
  exists cz, m. split; [exact Ecz|]. split; [|split; [exact Em|]].
  - intros i Hi.
    assert (Hil : i < length (fst (getlm (Z.of_nat (dim0 corr) - 1))))
      by (apply nth_error_Some; congruence).
    unfold matrix_row in Ecz. destruct (z <? nrows (cv_of st)); [|discriminate].
    inversion Ecz; subst cz; clear Ecz. rewrite V1.
    rewrite nth_error_map, nth_error_seq.
    assert (E : (i <? length (fst (getlm (Z.of_nat (dim0 corr) - 1)))) = true)
      by (apply Nat.ltb_lt; exact Hil).
    rewrite E. simpl. f_equal. now apply Hzero.
  - intros p Hp. rewrite Hget.
    apply nth_error_nth'. unfold fits in Fm.
    apply orb_true_iff in Fm. unfold bidx.
    destruct Fm as [Fm|Fm]; apply Nat.eqb_eq in Fm.
    + destruct (length m =? 1); lia.
    + rewrite Fm. simpl. lia.
Qed.

(** The stand-ins keep the contracts of the solvers. *)

Lemma dot_sum_S (f g : nat -> Qc) (n : nat) :
  dot_sum (S n) f g = Qcplus (dot_sum n f g) (Qcmult (f n) (g n)).
Proof.
  unfold dot_sum. rewrite seq_S, fold_left_app. reflexivity.
Qed.

Lemma dot_sum_unit_row (f g : nat -> Qc) (r n : nat) :
  (forall k, k < n -> f k = if r =? k then qc 1 else qc 0) ->
  dot_sum n f g = if r <? n then g r else qc 0.
Proof.
  induction n as [|n IH]; intros Hf; [reflexivity|].
  rewrite dot_sum_S, IH by (intros k Hk; apply Hf; lia).
  rewrite (Hf n) by lia.
  destruct (r =? n) eqn:E.
  - apply Nat.eqb_eq in E. subst r.
    rewrite Nat.ltb_irrefl. replace (n <? S n) with true
      by (symmetry; apply Nat.ltb_lt; lia).
    change (qc 1) with 1%Qc. change (qc 0) with 0%Qc. ring.
  - apply Nat.eqb_neq in E.
    assert (E' : (r <? S n) = (r <? n)).
    { destruct (r <? n) eqn:E1.
      - apply Nat.ltb_lt in E1. apply Nat.ltb_lt. lia.
      - apply Nat.ltb_ge in E1. apply Nat.ltb_ge. lia. }
    rewrite E'. change (qc 0) with 0%Qc. ring.
Qed.

Lemma all_entries_at (a : matrix Qc) (p : nat -> nat -> Qc -> bool) (i j : nat) :
  all_entries a p = true -> i < nrows a -> j < ncols a ->
  p i j (mget a i j) = true.
Proof.
  unfold all_entries. intros Hall Hi Hj.
  rewrite forallb_forall in Hall.
  specialize (Hall i ltac:(apply in_seq; lia)).
  rewrite forallb_forall in Hall.
  apply Hall. apply in_seq. lia.
Qed.

Lemma solve_exact_Qc : @solve_exact Qc Scalar_Qc Solvers_Qc.
Proof.
  intros a b x Hs. cbn [solve Solvers_Qc] in Hs.
  destruct (is_identity a && (length b =? nrows a)) eqn:E; [|discriminate].
  inversion Hs; subst x; clear Hs.
  apply andb_true_iff in E. destruct E as [Hid Hlen].
  apply Nat.eqb_eq in Hlen. unfold is_identity in Hid.
  apply andb_true_iff in Hid. destruct Hid as [Hsq Hall].
  apply Nat.eqb_eq in Hsq. split; [congruence|].
  intros r Hr.
  rewrite (@dot_sum_unit_row _ _ r).
  - replace (r <? ncols a) with true by (symmetry; apply Nat.ltb_lt; lia).
    reflexivity.
  - intros k Hk. pose proof (all_entries_at _ _ Hall Hr Hk) as He.
    cbv beta in He.
    destruct (r =? k); apply Qeq_bool_iff in He; apply Qc_is_canon in He;
      exact He.
Qed.

Lemma eigh_ascending_Qc : @eigh_ascending Qc Scalar_Qc Solvers_Qc.
Proof.
  intros a evals evecs He. cbn [eigh Solvers_Qc] in He.
  destruct (is_ascending_diagonal a) eqn:E; [|discriminate].
  inversion He; subst evals evecs; clear He.
  unfold is_ascending_diagonal in E.
  apply andb_true_iff in E. destruct E as [Hsq Hall]. apply Nat.eqb_eq in Hsq.
  assert (Hlen : length (diagonal a) = nrows a).
  { unfold diagonal. rewrite length_map, length_seq, <- Hsq. apply Nat.min_id. }
  repeat split; auto.
  intros i j Hij Hj. rewrite Hlen in Hj.
  unfold diagonal. rewrite <- Hsq, Nat.min_id.
  rewrite !nth_map_seq by lia.
  cbn [fleb Scalar_Qc].
  destruct (Nat.eq_dec i j) as [->|Hne].
  - apply Qle_bool_iff. apply Qle_refl.
  - pose proof (@all_entries_at a _ i j Hall ltac:(lia) ltac:(lia)) as He.
    cbv beta in He.
    replace (i =? j) with false in He by (symmetry; apply Nat.eqb_neq; lia).
    replace (i <? j) with true in He by (symmetry; apply Nat.ltb_lt; lia).
    apply andb_true_iff in He. apply He.
Qed.

Lemma mkconstrained_projection_witness :
  exists st,
    mkconstrained_modes tensor_diag constraints_two = Ok st
    /\ exists evecs js,
         (forall k z, k < 2 -> z < 3 ->
            tget (trans_of st) 1 k z = mget evecs z (3 - 2 + k))
         /\ (forall k c, k < 2 -> c < 2 ->
            tget (tmat_of st) 1 k c = tget (trans_of st) 1 k (nth c js 0))
         /\ exists amplitude,
              forall c, c < 2 ->
                dot_sum 2 (fun k => tget (tmat_of st) 1 k c)
                        (fun k => nth k amplitude zero)
                = mget (cmap_of st) 1 c.
Proof.
  assert (Hret : returns (mkconstrained_modes tensor_diag constraints_two) = true)
    by (vm_compute; reflexivity).
  destruct (mkconstrained_modes tensor_diag constraints_two) as [st|e] eqn:E;
    [|discriminate Hret].
  exists st. split; [reflexivity|].
  destruct (@mkconstrained_projection Qc _ _ tensor_diag constraints_two st 1 E)
    as (cl & evals & evecs & js & _ & _ & _ & _ & Heig & Htmat & Hamp);
    [lia | simpl; lia |].
  exists evecs, js. split; [|split].
  - apply (Heig eigh_ascending_Qc); simpl; lia.
  - exact Htmat.
  - destruct (Hamp 1) as (amplitude & _ & _ & Hsolve & _); [reflexivity|].
    exists amplitude. exact (Hsolve solve_exact_Qc).
Defined.

Lemma mkconstrained_monopole_zero_witness :
  exists hpmaps st,
    mkconstrained tensor_diag constraints_two 1 = Ok hpmaps
    /\ mkconstrained_modes tensor_diag constraints_two = Ok st
    /\ forall z, mget (cv_of st) z 0 = zero.
Proof.
  assert (Hret : returns (mkconstrained tensor_diag constraints_two 1) = true)
    by (vm_compute; reflexivity).
  destruct (mkconstrained tensor_diag constraints_two 1) as [hpmaps|e] eqn:E;
    [|discriminate Hret].
  destruct (@mkconstrained_monopole_zero Qc _ _ tensor_diag constraints_two 1
              hpmaps E) as (st & Hst & _ & Hzero & _).
  exists hpmaps, st. split; [reflexivity|]. split; [exact Hst|].
  intros z. apply Hzero. reflexivity.
Defined.

(** * Further properties *)

(** ** The Spectral Integrator, entry by entry *)

Section ClarrayValues.

Context {K : Type} `{Scalar K}.
Variable romb_samples : list K -> K -> K.

Local Open Scope result_scope.

Lemma position_Some (x : Z) (ls : list Z) (p : nat) :
  position x ls = Some p -> nth p ls 0%Z = x /\ p < length ls.
Proof.
  revert p. induction ls as [|y ls IH]; intros p Hp; simpl in Hp; [discriminate|].
  destruct (y =? x)%Z eqn:E.
  - inversion Hp; subst. apply Z.eqb_eq in E. simpl. split; [exact E|lia].
  - destruct (position x ls) as [q|]; [|discriminate].
    inversion Hp; subst. destruct (IH q eq_refl). simpl. split; [auto|lia].
Qed.

Lemma position_None (x : Z) (ls : list Z) :
  position x ls = None -> ~ In x ls.
Proof.
  induction ls as [|y ls IH]; intros Hp; simpl in *; [tauto|].
  destruct (y =? x)%Z eqn:E; [discriminate|].
  destruct (position x ls); [discriminate|].
  apply Z.eqb_neq in E. intros [Hy|Hin]; [congruence|]. now apply IH.
Qed.

Lemma firstn_plus {A} (n m : nat) :
  forall l : list A, firstn (n + m) l = firstn n l ++ firstn m (skipn n l).
Proof.
  induction n as [|n IH]; intros l; simpl; [reflexivity|].
  destruct l as [|x l]; simpl.
  - now rewrite firstn_nil.
  - f_equal. apply IH.
Qed.

Lemma concat_chunks {A} (sizes : list nat) :
  forall ary : list A, concat (chunks ary sizes) = firstn (list_sum sizes) ary.
Proof.
  induction sizes as [|s sizes IH]; intros ary; simpl; [reflexivity|].
  now rewrite IH, firstn_plus.
Qed.

Lemma list_sum_repeat (x n : nat) : list_sum (repeat x n) = n * x.
Proof. induction n as [|n IH]; simpl; [reflexivity|]. rewrite IH. lia. Qed.

(** The sections of [np.array_split] are the array, cut. *)
Lemma concat_array_split {A} (ary : list A) (n : Z) (secs : list (list A)) :
  array_split ary n = Ok secs -> concat secs = ary.
Proof.
  unfold array_split. destruct (n <=? 0)%Z eqn:E; [discriminate|].
  apply Z.leb_gt in E. intros Hs. inversion Hs; subst secs; clear Hs.
  rewrite concat_chunks, list_sum_app, !list_sum_repeat.
  apply firstn_all2.
  set (nsec := Z.to_nat n). assert (Hn : nsec <> 0) by (unfold nsec; lia).
  pose proof (Nat.div_mod (length ary) nsec Hn) as Hdm.
  pose proof (Nat.mod_upper_bound (length ary) nsec Hn) as Hlt.
  nia.
Qed.

Lemma clarray_section_values (aps : Z -> K -> K -> K) (zlen zint : nat)
    (za : list K) (zspace zhalf : K) (cla : tensor3 K) (lsec : list Z)
    (cla' : tensor3 K) :
  length za = zlen * zint -> dim1 cla = zlen -> dim2 cla = zlen ->
  clarray_section romb_samples aps zlen zint za zspace zhalf cla lsec = Ok cla' ->
  dim0 cla' = dim0 cla /\ dim1 cla' = zlen /\ dim2 cla' = zlen
  /\ forall l i j, i < zlen -> j < zlen ->
       (In (Z.of_nat l) lsec ->
        tget cla' l i j
        = bin_average romb_samples aps zint za zspace zhalf (Z.of_nat l) i j)
       /\ (~ In (Z.of_nat l) lsec -> tget cla' l i j = tget cla l i j).
Proof.
  intros Hza Hd1 Hd2. unfold clarray_section.
  destruct (zlen * zint * zlen * zint =? 0) eqn:ED; [discriminate|].
  apply Nat.eqb_neq in ED. cbn [negb].
  assert (Hsize : dim0 (vectorize3 aps lsec za za) * dim1 (vectorize3 aps lsec za za)
                  * dim2 (vectorize3 aps lsec za za)
                  = length lsec * (zlen * zint * zlen * zint)).
  { simpl. rewrite Hza. ring. }
  rewrite Hsize, Nat.Div0.mod_mul, Nat.eqb_refl, Nat.div_mul by exact ED.
  destruct (romb_count_ok zint); [|discriminate].
  unfold assign_rows. cbn [dim0 dim1 dim2 tget].
  rewrite Hd1, Hd2, !fits_refl. cbn [andb].
  intros Hc. inversion Hc; subst cla'; clear Hc. cbn [dim0 dim1 dim2 tget].
  repeat split; auto.
  - intros Hin. destruct (position (Z.of_nat l) lsec) as [p|] eqn:Ep.
    + destruct (position_Some _ _ Ep) as [Hnth Hp].
      unfold bin_average. rewrite !(bidx_in_range (d := zlen)) by assumption.
      rewrite (bidx_in_range (d := length lsec)) by exact Hp.
      rewrite Hnth. reflexivity.
    + exfalso. exact (position_None _ _ Ep Hin).
  - intros Hnin. destruct (position (Z.of_nat l) lsec) as [p|] eqn:Ep; [|reflexivity].
    exfalso. apply Hnin. destruct (position_Some _ _ Ep) as [Hnth Hp].
    rewrite <- Hnth. now apply nth_In.
Qed.

Lemma clarray_loop_values (aps : Z -> K -> K -> K) (zlen zint : nat)
    (za : list K) (zspace zhalf : K) (lsections : list (list Z)) :
  length za = zlen * zint ->
  forall cla cla', dim1 cla = zlen -> dim2 cla = zlen ->
    clarray_loop romb_samples aps zlen zint za zspace zhalf cla lsections
    = Ok cla' ->
    dim0 cla' = dim0 cla /\ dim1 cla' = zlen /\ dim2 cla' = zlen
    /\ forall l i j, i < zlen -> j < zlen ->
         (In (Z.of_nat l) (concat lsections) ->
          tget cla' l i j
          = bin_average romb_samples aps zint za zspace zhalf (Z.of_nat l) i j)
         /\ (~ In (Z.of_nat l) (concat lsections) ->
             tget cla' l i j = tget cla l i j).
Proof.
  intros Hza. induction lsections as [|lsec rest IH]; intros cla cla' Hd1 Hd2 Hl.
  - simpl in Hl. inversion Hl; subst. repeat split; auto. intros [].
  - simpl in Hl.
    destruct (clarray_section romb_samples aps zlen zint za zspace zhalf cla lsec)
      as [cla1|] eqn:E1; [|discriminate].
    simpl in Hl.
    destruct (@clarray_section_values aps zlen zint za zspace zhalf cla lsec cla1
                Hza Hd1 Hd2 E1)
      as (S0 & S1 & S2 & Hsec).
    destruct (IH cla1 cla' S1 S2 Hl) as (R0 & R1 & R2 & Hrest).
    split; [congruence|]. split; [exact R1|]. split; [exact R2|].
    intros l i j Hi Hj. simpl concat.
    destruct (Hsec l i j Hi Hj) as [Hs1 Hs2].
    destruct (Hrest l i j Hi Hj) as [Hr1 Hr2].
    destruct (in_dec Z.eq_dec (Z.of_nat l) (concat rest)) as [Hin|Hnin].
    + split; [intros _; now apply Hr1|].
      intros Hn. exfalso. apply Hn. apply in_or_app. now right.
    + split.
      * intros Hin. apply in_app_or in Hin. destruct Hin as [Hin|Hin]; [|tauto].
        rewrite (Hr2 Hnin). now apply Hs1.
      * intros Hn. rewrite (Hr2 Hnin). apply Hs2.
        intros Hin. apply Hn. apply in_or_app. now left.
Qed.

(** With five multipoles or more, every entry of the tensor is the average
    of the spectrum over the two bins, whatever the sections. *)
Lemma clarray_values (aps : Z -> K -> K -> K) (lmax : Z) (zarray : list K)
    (zromb : Z) (zwidth : option K) (zhalf : K) (cla : tensor3 K) :
  (0 < zromb)%Z ->
  half_width zarray zwidth = Ok zhalf ->
  clarray romb_samples aps lmax zarray zromb zwidth = Ok cla ->
  dim0 cla = Z.to_nat (lmax + 1)
  /\ dim1 cla = length zarray /\ dim2 cla = length zarray
  /\ forall l i j,
       l < Z.to_nat (lmax + 1) -> i < length zarray -> j < length zarray ->
       tget cla l i j
       = bin_average romb_samples aps (Z.to_nat (2 ^ zromb + 1))
           (sub_points zarray zhalf (Z.to_nat (2 ^ zromb + 1)))
           (fdiv (fmul two zhalf) (of_int (2 ^ zromb))) zhalf (Z.of_nat l) i j.
Proof.
  intros Hz Hhalf. unfold clarray.
  assert (Hz0 : (zromb =? 0)%Z = false) by (apply Z.eqb_neq; lia).
  assert (Hz1 : (0 <=? zromb)%Z = true) by (apply Z.leb_le; lia).
  rewrite Hz0.
  change (match zwidth with
          | Some w => Ok (fdiv w two)
          | None =>
              z1 <- getitem (np_sort zarray) 1 ;;
              z0 <- getitem (np_sort zarray) 0 ;;
              Ok (fdiv (fabs (fsub z1 z0)) two)
          end) with (half_width zarray zwidth).
  rewrite Hhalf. cbn [rbind]. rewrite Hz1.
  destruct (array_split (arange (lmax + 1)) (lmax / 5)) as [secs|] eqn:Es;
    [|discriminate].
  cbn [rbind]. intros Hl.
  apply clarray_loop_values in Hl; auto.
  - destruct Hl as (D0 & D1 & D2 & Hval). simpl in D0.
    repeat split; auto.
    intros l i j Hlt Hi Hj. apply (proj1 (Hval l i j Hi Hj)).
    rewrite (@concat_array_split _ _ _ _ Es). unfold arange.
    apply in_map. apply in_seq. lia.
  - apply length_flat_map_const. intros z.
    now rewrite length_map, length_linspace.
Qed.

End ClarrayValues.



(** X2: on an empty grid with a given width, a positive Romberg order and
    [lmax >= 5], [clarray] fails with the [ValueError] of the reshape of an
    empty array in the first section of multipoles. *)
Theorem clarray_empty_grid_raises (K : Type) (SK : Scalar K)
    (romb_samples : list K -> K -> K) (aps : Z -> K -> K -> K) (lmax : Z)
    (zromb : Z) (w : K) :
  (0 < zromb)%Z -> (5 <= lmax)%Z ->
  clarray romb_samples aps lmax [] zromb (Some w) = Raise ValueError.
Proof.
  intros Hz Hl. unfold clarray.
  assert (Hz0 : (zromb =? 0)%Z = false) by (apply Z.eqb_neq; lia).
  assert (Hz1 : (0 <=? zromb)%Z = true) by (apply Z.leb_le; lia).
  assert (Hdiv : (1 <= lmax / 5)%Z) by (apply Z.div_le_lower_bound; lia).
  rewrite Hz0. simpl rbind. rewrite Hz1. cbv beta iota.
  unfold array_split.
  assert (Hn : (lmax / 5 <=? 0)%Z = false) by (apply Z.leb_gt; lia).
  rewrite Hn.
  set (nsec := Z.to_nat (lmax / 5)).
  set (len := length (arange (lmax + 1))).
  assert (Hnsec : 0 < nsec) by (unfold nsec; lia).
  assert (Hsizes : length (repeat (S (len / nsec)) (len mod nsec)
                           ++ repeat (len / nsec) (nsec - len mod nsec))
                   = nsec).
  { rewrite length_app, !repeat_length.
    pose proof (Nat.mod_upper_bound len nsec ltac:(lia)). lia. }
  destruct (repeat (S (len / nsec)) (len mod nsec)
            ++ repeat (len / nsec) (nsec - len mod nsec)) as [|s rest];
    [simpl in Hsizes; lia|].
  reflexivity.
Qed.

Lemma clarray_empty_grid_raises_witness :
  clarray romb_trapezoid aps_flat 7 [] 2 (Some (qc 1)) = Raise ValueError.
Proof.
  apply (@clarray_empty_grid_raises Qc _ romb_trapezoid aps_flat 7%Z 2%Z (qc 1));
    lia.
Defined.

(** ** The Realization Synthesizer and the random source *)

Section RandomSource.

Context {K G : Type} `{Scalar K} `{Collaborators K G}.

Lemma draws_nothing_lift {A} (r : result A) : draws_nothing (lift r : M K G A).
Proof. intros w. split; [reflexivity|]. exists []. simpl. now rewrite app_nil_r. Qed.

Lemma draws_nothing_ret {A} (a : A) : draws_nothing (ret a : M K G A).
Proof. intros w. split; [reflexivity|]. exists []. simpl. now rewrite app_nil_r. Qed.

Lemma draws_nothing_raise {A} (e : exn) : draws_nothing (raise e : M K G A).
Proof. intros w. split; [reflexivity|]. exists []. simpl. now rewrite app_nil_r. Qed.

Lemma draws_nothing_call_root (rc : root_call K) : draws_nothing (call_root rc).
Proof. intros w. split; [reflexivity|]. exists [CallRoot rc]. auto. Qed.

Lemma draws_nothing_bind {A B} (m : M K G A) (k : A -> M K G B) :
  draws_nothing m -> (forall a, draws_nothing (k a)) -> draws_nothing (bind m k).
Proof.
  intros Hm Hk w. unfold bind.
  destruct (Hm w) as (Hr & tr & Htr & Hd).
  destruct (m w) as [[a|e] w1]; simpl in *.
  - destruct (Hk a w1) as (Hr' & tr' & Htr' & Hd').
    split; [congruence|]. exists (tr ++ tr'). split.
    + rewrite Htr', Htr. now rewrite app_assoc.
    + now rewrite draws_in_app, Hd, Hd'.
  - split; [exact Hr|]. exists tr. auto.
Qed.

Lemma draws_nothing_for {A S} (xs : list A) (body : S -> A -> M K G S) :
  (forall s x, draws_nothing (body s x)) ->
  forall s, draws_nothing (for_ xs body s).
Proof.
  intros Hbody. induction xs as [|x xs IH]; intros s; simpl.
  - apply draws_nothing_ret.
  - apply draws_nothing_bind; auto.
Qed.

Lemma world_independent_lift {A} (r : result A) :
  world_independent (lift r : M K G A).
Proof. intros w1 w2. reflexivity. Qed.

Lemma world_independent_ret {A} (a : A) : world_independent (ret a : M K G A).
Proof. intros w1 w2. reflexivity. Qed.

Lemma world_independent_raise {A} (e : exn) :
  world_independent (raise e : M K G A).
Proof. intros w1 w2. reflexivity. Qed.

Lemma world_independent_call_root (rc : root_call K) :
  world_independent (call_root rc).
Proof. intros w1 w2. reflexivity. Qed.

Lemma world_independent_bind {A B} (m : M K G A) (k : A -> M K G B) :
  world_independent m -> (forall a, world_independent (k a)) ->
  world_independent (bind m k).
Proof.
  intros Hm Hk w1 w2. unfold bind. specialize (Hm w1 w2).
  destruct (m w1) as [[a1|e1] w1'], (m w2) as [[a2|e2] w2']; simpl in Hm;
    try discriminate; inversion Hm; subst; [apply Hk | reflexivity].
Qed.

Lemma world_independent_for {A S} (xs : list A) (body : S -> A -> M K G S) :
  (forall s x, world_independent (body s x)) ->
  forall s, world_independent (for_ xs body s).
Proof.
  intros Hbody. induction xs as [|x xs IH]; intros s; simpl.
  - apply world_independent_ret.
  - apply world_independent_bind; auto.
Qed.

Ltac quiet_run :=
  repeat first
    [ apply draws_nothing_ret | apply draws_nothing_raise
    | apply draws_nothing_lift | apply draws_nothing_call_root
    | apply draws_nothing_bind; [|intro]
    | apply draws_nothing_for; intros ];
  repeat first
    [ apply world_independent_ret | apply world_independent_raise
    | apply world_independent_lift | apply world_independent_call_root
    | apply world_independent_bind; [|intro]
    | apply world_independent_for; intros ].

Lemma alm_step_quiet (kw : option bool) (corr : list (tensor3 K))
    (numz l : nat) (g : matrix K) (al : list (array4 K)) (ii : nat) :
  draws_nothing (alm_step kw corr numz l g al ii)
  /\ world_independent (alm_step kw corr numz l g al ii).
Proof. split; unfold alm_step; quiet_run. Qed.

Lemma alm_lists_given_quiet (kw : option bool) (corr : corr_arg K)
    (gl : list (matrix K)) :
  draws_nothing (alm_lists kw corr (Some gl))
  /\ world_independent (alm_lists kw corr (Some gl)).
Proof.
  split; unfold alm_lists, alm_multipole.
  - apply draws_nothing_bind; [apply draws_nothing_lift|]. intros c0.
    destruct (negb _); [apply draws_nothing_raise|].
    apply draws_nothing_for. intros al l.
    apply draws_nothing_bind; [apply draws_nothing_lift|]. intros g.
    apply draws_nothing_for. intros al' ii. apply alm_step_quiet.
  - apply world_independent_bind; [apply world_independent_lift|]. intros c0.
    destruct (negb _); [apply world_independent_raise|].
    apply world_independent_for. intros al l.
    apply world_independent_bind; [apply world_independent_lift|]. intros g.
    apply world_independent_for. intros al' ii. apply alm_step_quiet.
Qed.

Lemma mkfullsky_tail_quiet (nside : Z) (alms : bool) (ncorr : nat)
    (alm_list : list (array4 K)) :
  let tail : M K G (fullsky K) :=
    if alms then
      bind (lift (pack ncorr alm_list)) (fun a => ret (Alms a))
    else
      bind (for_ (seq 0 ncorr)
              (fun sky ii =>
                 bind (lift (getitem alm_list ii)) (fun alm =>
                 bind (lift (sphtrans_inv_sky alm nside)) (fun s =>
                 bind (lift (take_axis1_0 s)) (fun s0 =>
                 ret (sky ++ [s0])))))
              [])
           (fun sky => bind (lift (pack ncorr sky)) (fun s => ret (Sky s))) in
  draws_nothing tail /\ world_independent tail.
Proof. cbv zeta. destruct alms; split; quiet_run. Qed.

Lemma mkfullsky_der1_tail_quiet (nside : Z) (comovd : list K) (alms : bool)
    (ncorr : nat) (alm_list : list (array4 K)) :
  let tail : M K G (fullsky_der1 K) :=
    if alms then
      bind (lift (pack ncorr alm_list)) (fun a => ret (AlmsDer1 a))
    else
      bind (for_ (seq 0 ncorr)
              (fun resmaps ii =>
                 bind (lift (getitem alm_list ii)) (fun alm =>
                 bind (lift (sphtrans_inv_sky_der1 alm nside)) (fun t =>
                 let '(sky, d_theta, d_phi) := t in
                 bind (lift (take_axis1_0 sky)) (fun s0 =>
                 bind (lift (np_gradient s0 comovd)) (fun d_x =>
                 bind (lift (take_axis1_0 d_theta)) (fun t0 =>
                 bind (lift (div_by_column t0 comovd)) (fun dt =>
                 bind (lift (take_axis1_0 d_phi)) (fun p0 =>
                 bind (lift (div_by_column p0 comovd)) (fun dp =>
                 bind (lift (stack4 s0 dt dp d_x)) (fun r =>
                 ret (resmaps ++ [r])))))))))))
              [])
           (fun resmaps =>
              bind (lift (pack ncorr resmaps)) (fun r => ret (MapsDer1 r))) in
  draws_nothing tail /\ world_independent tail.
Proof.
  cbv zeta. destruct alms; split; quiet_run;
    match goal with
    | t : (_ * _ * _)%type |- _ => destruct t as [[? ?] ?]
    end; quiet_run.
Qed.

End RandomSource.

Section AlmFacts.

Context {K G : Type} `{Scalar K} `{Collaborators K G}.

Lemma bdim_Ok (a b r : nat) : bdim a b = Ok r -> broadcastable a b.
Proof.
  unfold bdim, broadcastable.
  destruct (a =? b) eqn:E1; [apply Nat.eqb_eq in E1; auto|].
  destruct (a =? 1) eqn:E2; [apply Nat.eqb_eq in E2; auto|].
  destruct (b =? 1) eqn:E3; [apply Nat.eqb_eq in E3; auto|discriminate].
Qed.

Lemma assign_alm_Ok (alm : array4 K) (l : nat) (x : matrix K) (alm' : array4 K) :
  assign_alm alm l x = Ok alm' ->
  0 < adim1 alm /\ l < adim2 alm
  /\ adim0 alm' = adim0 alm /\ adim1 alm' = adim1 alm
  /\ adim2 alm' = adim2 alm /\ adim3 alm' = adim3 alm
  /\ forall z p l' m,
       aget alm' z p l' m
       = if (p =? 0) && (l' =? l) && (m <? Nat.min (l + 1) (adim3 alm))
         then mget x (bidx (nrows x) z) (bidx (ncols x) m)
         else aget alm z p l' m.
Proof.
  unfold assign_alm.
  destruct (0 <? adim1 alm) eqn:E1; [|discriminate].
  destruct (l <? adim2 alm) eqn:E2; [|discriminate]. simpl.
  destruct (fits _ _ && fits _ _); [|discriminate].
  intros Ha. inversion Ha; subst; clear Ha. simpl.
  apply Nat.ltb_lt in E1, E2. repeat split; auto.
Qed.

Lemma tensor_update_Ok (kw : option bool) (numz l : nat) (g : matrix K)
    (c : tensor3 K) (a a' : array4 K) :
  tensor_update kw numz l g c a = Ok a' ->
  exists cl corrm trans x,
    tensor_row c l = Ok cl
    /\ regularized numz cl = Ok corrm
    /\ matrix_root_manynull (root_keywords kw corrm) = Ok trans
    /\ np_dot trans g = Ok x
    /\ assign_alm a l x = Ok a'.
Proof.
  unfold tensor_update. intros Hu.
  destruct (tensor_row c l) as [cl|] eqn:E1; [|discriminate]. simpl in Hu.
  destruct (regularized numz cl) as [corrm|] eqn:E2; [|discriminate].
  simpl in Hu.
  destruct (matrix_root_manynull (root_keywords kw corrm)) as [trans|] eqn:E3;
    [|discriminate]. simpl in Hu.
  destruct (np_dot trans g) as [x|] eqn:E4; [|discriminate]. simpl in Hu.
  exists cl, corrm, trans, x. auto.
Qed.

(** The shape of the array of one tensor, and the entries that no turn of
    the loops writes. *)
Lemma tensor_alm_shape (kw : option bool) (numz maxl1 : nat)
    (lgs : list (nat * matrix K)) (c : tensor3 K) (a : array4 K) :
  tensor_alm kw numz maxl1 lgs c = Ok a ->
  adim0 a = numz /\ adim1 a = 1 /\ adim2 a = maxl1 /\ adim3 a = maxl1
  /\ forall z p l m, l < m \/ p <> 0 -> aget a z p l m = zero.
Proof.
  unfold tensor_alm. intros Hr.
  apply (@rfor_invariant _ _
           (fun alm lg => tensor_update kw numz (fst lg) (snd lg) c alm)
           (fun a => adim0 a = numz /\ adim1 a = 1 /\ adim2 a = maxl1
                     /\ adim3 a = maxl1
                     /\ forall z p l m, l < m \/ p <> 0 -> aget a z p l m = zero))
    with (xs := lgs) (s := zeros4 numz 1 maxl1 maxl1); [| |exact Hr].
  - intros s [l g] s' (I0 & I1 & I2 & I3 & Hz) Hu. simpl in Hu.
    apply tensor_update_Ok in Hu.
    destruct Hu as (cl & corrm & trans & x & _ & _ & _ & _ & Ha).
    apply assign_alm_Ok in Ha.
    destruct Ha as (_ & _ & E0 & E1 & E2 & E3 & Hget).
    repeat split; try congruence.
    intros z p l' m Hlm. rewrite Hget.
    destruct (p =? 0) eqn:Ep; simpl; [|now apply Hz].
    destruct (l' =? l) eqn:El; simpl; [|now apply Hz].
    destruct (m <? Nat.min (l + 1) (adim3 s)) eqn:Em; [|now apply Hz].
    apply Nat.eqb_eq in Ep, El. apply Nat.ltb_lt in Em. lia.
  - simpl. repeat split; reflexivity.
Qed.

(** The entries that the turn of the multipole [l] writes. *)
Lemma tensor_alm_values (kw : option bool) (numz maxl1 : nat)
    (gs : list (matrix K)) (c : tensor3 K) (a : array4 K) :
  length gs = maxl1 ->
  tensor_alm kw numz maxl1 (combine (seq 0 maxl1) gs) c = Ok a ->
  forall l g, nth_error gs l = Some g ->
    exists cl corrm trans,
      tensor_row c l = Ok cl
      /\ regularized numz cl = Ok corrm
      /\ matrix_root_manynull (root_keywords kw corrm) = Ok trans
      /\ ncols trans = nrows g
      /\ forall z m, m <= l ->
           aget a z 0 l m
           = dot_sum (ncols trans)
               (fun k => mget trans (bidx (nrows trans) z) k)
               (fun k => mget g k (bidx (ncols g) m)).
Proof.
  unfold tensor_alm. intros Hlen Hr l g Hg.
  pose (Inv := fun a : array4 K => adim2 a = maxl1 /\ adim3 a = maxl1).
  pose (post := fun (lg : nat * matrix K) (a : array4 K) =>
    exists cl corrm trans,
      tensor_row c (fst lg) = Ok cl
      /\ regularized numz cl = Ok corrm
      /\ matrix_root_manynull (root_keywords kw corrm) = Ok trans
      /\ ncols trans = nrows (snd lg)
      /\ forall z m, m <= fst lg ->
           aget a z 0 (fst lg) m
           = dot_sum (ncols trans)
               (fun k => mget trans (bidx (nrows trans) z) k)
               (fun k => mget (snd lg) k (bidx (ncols (snd lg)) m))).
  assert (Hpost : post (l, g) a).
  { apply (@rfor_post _ _
             (fun alm lg => tensor_update kw numz (fst lg) (snd lg) c alm)
             Inv post (fun a b => fst a <> fst b))
      with (xs := combine (seq 0 maxl1) gs) (s := zeros4 numz 1 maxl1 maxl1).
    - intros s lg s' [I2 I3] Hu. apply tensor_update_Ok in Hu.
      destruct Hu as (cl & corrm & trans & x & _ & _ & _ & _ & Ha).
      apply assign_alm_Ok in Ha.
      destruct Ha as (_ & _ & _ & _ & E2 & E3 & _). split; congruence.
    - intros s lg s' [I2 I3] Hu. apply tensor_update_Ok in Hu.
      destruct Hu as (cl & corrm & trans & x & Hcl & Hcm & Htr & Hx & Ha).
      apply assign_alm_Ok in Ha.
      destruct Ha as (_ & Hl & _ & _ & _ & _ & Hget).
      exists cl, corrm, trans. repeat split; auto.
      + unfold np_dot in Hx.
        destruct (ncols trans =? nrows (snd lg)) eqn:E; [|discriminate].
        now apply Nat.eqb_eq in E.
      + intros z m Hm. rewrite Hget.
        replace (m <? Nat.min (fst lg + 1) (adim3 s)) with true
          by (symmetry; apply Nat.ltb_lt; lia).
        rewrite !Nat.eqb_refl. cbn [andb].
        unfold np_dot in Hx.
        destruct (ncols trans =? nrows (snd lg)); [|discriminate].
        inversion Hx; subst x; clear Hx. reflexivity.
    - intros s lg lg' s' [I2 I3] Hu Hne (cl & corrm & trans & P1 & P2 & P3 & P4 & P5).
      apply tensor_update_Ok in Hu.
      destruct Hu as (cl' & corrm' & trans' & x & _ & _ & _ & _ & Ha).
      apply assign_alm_Ok in Ha.
      destruct Ha as (_ & _ & _ & _ & _ & _ & Hget).
      exists cl, corrm, trans. repeat split; auto.
      intros z m Hm. rewrite Hget.
      replace (fst lg =? fst lg') with false
        by (symmetry; now apply Nat.eqb_neq).
      simpl. now apply P5.
    - split; reflexivity.
    - apply ordpairs_combine_seq.
    - exact Hr.
    - now apply in_combine_seq_nth. }
  exact Hpost.
Qed.

Lemma for_cons_Ok {A S} (x : A) (xs : list A) (body : S -> A -> M K G S)
    (s s' : S) (w w' : world K G) :
  for_ (x :: xs) body s w = (Ok s', w') ->
  exists s1 w1, body s x w = (Ok s1, w1) /\ for_ xs body s1 w1 = (Ok s', w').
Proof.
  simpl. unfold bind. destruct (body s x w) as [[s1|e] w1]; [|discriminate].
  eauto.
Qed.

Lemma der1_loop_Ok (nside : Z) (comovd : list K) (suf pre : list (array4 K)) :
  forall (acc : list (tensor3 K)) (w : world K G) res w',
    for_ (seq (length pre) (length suf))
      (fun resmaps ii =>
         bind (lift (getitem (pre ++ suf) ii)) (fun alm =>
         bind (lift (sphtrans_inv_sky_der1 alm nside)) (fun t =>
         let '(sky, d_theta, d_phi) := t in
         bind (lift (take_axis1_0 sky)) (fun s0 =>
         bind (lift (np_gradient s0 comovd)) (fun d_x =>
         bind (lift (take_axis1_0 d_theta)) (fun t0 =>
         bind (lift (div_by_column t0 comovd)) (fun dt =>
         bind (lift (take_axis1_0 d_phi)) (fun p0 =>
         bind (lift (div_by_column p0 comovd)) (fun dp =>
         bind (lift (stack4 s0 dt dp d_x)) (fun r =>
         ret (resmaps ++ [r])))))))))))
      acc w = (Ok res, w') ->
    exists rs, rmap (der1_of nside comovd) suf = Ok rs /\ res = acc ++ rs /\ w' = w.
Proof.
  revert pre. induction suf as [|a suf IH]; intros pre acc w res w' Hrun.
  - simpl in Hrun. inversion Hrun; subst. exists []. now rewrite app_nil_r.
  - change (seq (length pre) (length (a :: suf)))
      with (length pre :: seq (S (length pre)) (length suf)) in Hrun.
    apply for_cons_Ok in Hrun. destruct Hrun as (s1 & w1 & Hstep & Hrest).
    unfold bind, lift, ret, getitem in Hstep.
    rewrite nth_error_middle in Hstep.
    destruct (sphtrans_inv_sky_der1 a nside) as [[[sky dth] dph]|] eqn:Es;
      [|discriminate].
    destruct (take_axis1_0 sky) as [s0|] eqn:E0; [|discriminate].
    destruct (np_gradient s0 comovd) as [d_x|] eqn:E1; [|discriminate].
    destruct (take_axis1_0 dth) as [t0|] eqn:E2; [|discriminate].
    destruct (div_by_column t0 comovd) as [dt|] eqn:E3; [|discriminate].
    destruct (take_axis1_0 dph) as [p0|] eqn:E4; [|discriminate].
    destruct (div_by_column p0 comovd) as [dp|] eqn:E5; [|discriminate].
    destruct (stack4 s0 dt dp d_x) as [r|] eqn:E6; [|discriminate].
    inversion Hstep; subst s1 w1; clear Hstep.
    replace (pre ++ a :: suf) with ((pre ++ [a]) ++ suf) in Hrest
      by (now rewrite <- app_assoc).
    replace (S (length pre)) with (length (pre ++ [a])) in Hrest
      by (rewrite length_app; simpl; lia).
    apply IH in Hrest. destruct Hrest as (rs & Hrs & Hres & Hw).
    exists (r :: rs). simpl. unfold der1_of at 1. rewrite Es. simpl.
    rewrite E0. simpl. rewrite E1. simpl. rewrite E2. simpl. rewrite E3. simpl.
    rewrite E4. simpl. rewrite E5. simpl. rewrite E6. simpl. rewrite Hrs. simpl.
    repeat split; auto. now rewrite Hres, <- app_assoc.
Qed.

(** What a run of [mkfullsky_der1] that returns has done. *)
Lemma mkfullsky_der1_Ok (corr : corr_arg K) (nside : Z) (comovd : list K)
    (alms : bool) (gl : option (list (matrix K))) (w : world K G) r w' :
  mkfullsky_der1 corr nside comovd alms gl w = (Ok r, w') ->
  exists out,
    alm_lists None corr gl w = (Ok out, w')
    /\ if alms then
         exists o, r = AlmsDer1 o /\ pack (length out) out = Ok o
       else
         exists rs o, r = MapsDer1 o
           /\ rmap (der1_of nside comovd) out = Ok rs
           /\ pack (length rs) rs = Ok o.
Proof.
  unfold mkfullsky_der1. unfold bind at 1. intros Hrun.
  destruct (alm_lists None corr gl w) as [[out|e] w1] eqn:Ealm; [|discriminate].
  pose proof (alm_lists_Ok _ _ _ _ Ealm) as Hal.
  destruct Hal as (c0 & rest & gs & _ & _ & _ & _ & _ & Hlen & _).
  exists out. rewrite <- Hlen in Hrun.
  destruct alms.
  - unfold bind, lift, ret in Hrun.
    destruct (pack (length out) out) as [o|] eqn:Ep; [|discriminate].
    inversion Hrun; subst. split; [reflexivity|]. eauto.
  - unfold bind at 1 in Hrun.
    match type of Hrun with
    | match ?m w1 with _ => _ end = _ => destruct (m w1) as [[res|e] w2] eqn:Eres
    end; [|discriminate].
    apply (der1_loop_Ok nside comovd out []) in Eres.
    destruct Eres as (rs & Hrs & Hres & Hw). simpl in Hres. subst res w2.
    unfold bind, lift, ret in Hrun.
    assert (Hls : length rs = length out) by (eapply rmap_length; eauto).
    rewrite <- Hls in Hrun.
    destruct (pack (length rs) rs) as [o|] eqn:Ep; [|discriminate].
    inversion Hrun; subst. split; [reflexivity|]. eauto.
Qed.

Lemma mkfullsky_run_Ok (corr : corr_arg K) (nside : Z) (alms : bool)
    (gl : option (list (matrix K))) (w : world K G) r w' :
  mkfullsky corr nside alms gl w = (Ok r, w') ->
  exists out,
    alm_lists (Some true) corr gl w = (Ok out, w')
    /\ forall o, r = Alms o -> pack (length out) out = Ok o.
Proof.
  unfold mkfullsky. unfold bind at 1. intros Hrun.
  destruct (alm_lists (Some true) corr gl w) as [[out|e] w1] eqn:Ealm;
    [|discriminate].
  pose proof (alm_lists_Ok _ _ _ _ Ealm) as Hal.
  destruct Hal as (c0 & rest & gs & _ & _ & _ & _ & _ & Hlen & _).
  exists out. rewrite <- Hlen in Hrun.
  destruct alms.
  - unfold bind, lift, ret in Hrun.
    destruct (pack (length out) out) as [o'|] eqn:Ep; [|discriminate].
    inversion Hrun; subst. split; [reflexivity|].
    intros o Ho. now inversion Ho.
  - unfold bind at 1 in Hrun.
    match type of Hrun with
    | match ?m w1 with _ => _ end = _ => destruct (m w1) as [[res|e] w2] eqn:Eres
    end; [|discriminate].
    apply (sky_loop_Ok nside out []) in Eres.
    destruct Eres as (ss & _ & _ & Hw). subst w2.
    unfold bind, lift, ret in Hrun.
    destruct (pack _ res); [|discriminate].
    inversion Hrun; subst. split; [reflexivity|]. intros o Ho. discriminate.
Qed.

End AlmFacts.

Section Replay.

Context {K G : Type} `{Scalar K} `{Collaborators K G}.

Lemma fst_bind_eq {A B} (m1 m2 : M K G A) (k : A -> M K G B)
    (w1 w2 : world K G) :
  fst (m1 w1) = fst (m2 w2) -> (forall a, world_independent (k a)) ->
  fst (bind m1 k w1) = fst (bind m2 k w2).
Proof.
  intros Hm Hk. unfold bind.
  destruct (m1 w1) as [[a1|e1] w1'], (m2 w2) as [[a2|e2] w2']; simpl in Hm;
    try discriminate; inversion Hm; subst; [apply Hk | reflexivity].
Qed.

Lemma inner_loop_quiet (kw : option bool) (corr : list (tensor3 K))
    (numz l : nat) (g : matrix K) (al : list (array4 K)) :
  draws_nothing (for_ (seq 0 (length corr)) (alm_step kw corr numz l g) al)
  /\ world_independent
       (for_ (seq 0 (length corr)) (alm_step kw corr numz l g) al).
Proof.
  split.
  - apply draws_nothing_for. intros. apply alm_step_quiet.
  - apply world_independent_for. intros. apply alm_step_quiet.
Qed.

(** Reading the drawn arrays from a list gives the loop the same outcome. *)
Lemma outer_loop_replay (kw : option bool) (corr : list (tensor3 K))
    (numz : nat) (n : nat) :
  forall (k : nat) (pre gs : list (matrix K)) (al : list (array4 K))
         (w w2 : world K G) (r' : G),
    noise None numz (seq k n) (rng w) = (Ok gs, r') ->
    length pre = k ->
    fst (for_ (seq k n) (alm_multipole kw corr (Some (pre ++ gs)) numz) al w2)
    = fst (for_ (seq k n) (alm_multipole kw corr None numz) al w).
Proof.
  induction n as [|n IH]; intros k pre gs al w w2 r' Hn Hpre; [reflexivity|].
  simpl in Hn.
  destruct (complex_std_normal (numz, k + 1) (rng w)) as [g r1] eqn:Eg.
  destruct (noise None numz (seq (S k) n) r1) as [gs1 r2] eqn:En.
  destruct gs1 as [gs1|e]; [|discriminate]. simpl in Hn.
  inversion Hn; subst gs r2; clear Hn.
  assert (Hgiven : forall al0 v,
    alm_multipole kw corr (Some (pre ++ g :: gs1)) numz al0 k v
    = for_ (seq 0 (length corr)) (alm_step kw corr numz k g) al0 v).
  { intros al0 v. unfold alm_multipole, bind, lift, getitem.
    rewrite <- Hpre, nth_error_middle. reflexivity. }
  assert (Hdrawn : forall al0,
    alm_multipole kw corr None numz al0 k w
    = for_ (seq 0 (length corr)) (alm_step kw corr numz k g) al0
        {| rng := r1; calls := calls w ++ [CallNormal (numz, k + 1)] |}).
  { intros al0. unfold alm_multipole, bind, draw. rewrite Eg. reflexivity. }
  change (seq k (S n)) with (k :: seq (S k) n).
  change (fst (bind (alm_multipole kw corr (Some (pre ++ g :: gs1)) numz al k)
                 (for_ (seq (S k) n)
                    (alm_multipole kw corr (Some (pre ++ g :: gs1)) numz)) w2)
          = fst (bind (alm_multipole kw corr None numz al k)
                   (for_ (seq (S k) n) (alm_multipole kw corr None numz)) w)).
  unfold bind. rewrite Hgiven, Hdrawn.
  destruct (inner_loop_quiet kw corr numz k g al) as [Hq Hi].
  specialize (Hi w2 {| rng := r1; calls := calls w ++ [CallNormal (numz, k + 1)] |}).
  destruct (Hq {| rng := r1; calls := calls w ++ [CallNormal (numz, k + 1)] |})
    as [Hrng _].
  destruct (for_ (seq 0 (length corr)) (alm_step kw corr numz k g) al w2)
    as [[al2|e2] w2'];
  destruct (for_ (seq 0 (length corr)) (alm_step kw corr numz k g) al
              {| rng := r1; calls := calls w ++ [CallNormal (numz, k + 1)] |})
    as [[al1|e1] w1'];
  simpl in Hi; try discriminate; inversion Hi; subst; [|reflexivity].
  simpl in Hrng.
  replace (pre ++ g :: gs1) with ((pre ++ [g]) ++ gs1)
    by (now rewrite <- app_assoc).
  apply (IH (S (length pre)) (pre ++ [g]) gs1 al1 w1' w2' r').
  - now rewrite Hrng.
  - rewrite length_app. simpl. lia.
Qed.

Lemma noise_drawn_Ok (numz : nat) (ls : list nat) :
  forall r, exists gs r', noise None numz ls r = (Ok gs, r') /\ length gs = length ls.
Proof.
  induction ls as [|l ls IH]; intros r; simpl.
  - eauto.
  - destruct (complex_std_normal (numz, l + 1) r) as [g r1].
    destruct (IH r1) as (gs & r' & E & Hl). rewrite E. simpl.
    exists (g :: gs), r'. simpl. auto.
Qed.

Lemma noise_given_in_range (gl : list (matrix K)) (numz : nat) (ls : list nat) :
  forall r gs r', noise (Some gl) numz ls r = (Ok gs, r') ->
    r' = r /\ forall l, In l ls -> l < length gl.
Proof.
  induction ls as [|l ls IH]; intros r gs r' Hn; simpl in Hn.
  - inversion Hn; subst. split; [reflexivity|]. intros l [].
  - destruct (getitem gl l) as [g|] eqn:Eg; [|discriminate].
    destruct (noise (Some gl) numz ls r) as [gs1 r2] eqn:En.
    destruct gs1 as [gs1|e]; [|discriminate]. simpl in Hn.
    inversion Hn; subst. destruct (IH _ _ _ En) as [Hr Hin].
    split; [exact Hr|]. intros l' [<-|Hl']; [|auto].
    apply getitem_Ok_iff in Eg. apply nth_error_Some. congruence.
Qed.

End Replay.

Section SynthesisNeeds.

Context {K G : Type} `{Scalar K} `{Collaborators K G}.

Lemma noise_given_Ok (gl : list (matrix K)) (numz : nat) (n : nat) :
  forall k r gs r',
    noise (Some gl) numz (seq k n) r = (Ok gs, r') ->
    r' = r /\ length gs = n
    /\ forall l g, nth_error gs l = Some g -> nth_error gl (k + l) = Some g.
Proof.
  induction n as [|n IH]; intros k r gs r' Hn; simpl in Hn.
  - inversion Hn; subst. repeat split; auto. intros [|l] g Hg; discriminate.
  - destruct (getitem gl k) as [g0|] eqn:Eg; [|discriminate].
    destruct (noise (Some gl) numz (seq (S k) n) r) as [gs1 r2] eqn:En.
    destruct gs1 as [gs1|e]; [|discriminate]. simpl in Hn.
    inversion Hn; subst gs r2; clear Hn.
    destruct (IH _ _ _ _ En) as (Hr & Hlen & Hnth).
    split; [exact Hr|]. split; [simpl; now rewrite Hlen|].
    intros [|l] g Hg; simpl in Hg.
    + inversion Hg; subst. rewrite Nat.add_0_r. now apply getitem_Ok_iff.
    + replace (k + S l) with (S k + l) by lia. now apply Hnth.
Qed.

Lemma der1_of_Ok (nside : Z) (comovd : list K) (alm : array4 K)
    (r : tensor3 K) :
  der1_of nside comovd alm = Ok r -> der1_maps nside comovd alm r.
Proof.
  unfold der1_of, der1_maps. intros Hd.
  destruct (sphtrans_inv_sky_der1 alm nside) as [[[sky dth] dph]|] eqn:Es;
    [|discriminate]. simpl in Hd.
  unfold take_axis1_0 at 1 in Hd.
  destruct (0 <? dim1 sky); [|discriminate]. simpl in Hd.
  match type of Hd with
  | context [np_gradient ?m comovd] =>
      destruct (np_gradient m comovd) as [d_x|] eqn:Eg; [|discriminate]
  end. simpl in Hd.
  unfold take_axis1_0 at 1 in Hd.
  destruct (0 <? dim1 dth); [|discriminate]. simpl in Hd.
  unfold div_by_column at 1 in Hd. cbn [nrows ncols mget] in Hd.
  destruct (bdim (dim0 dth) (length comovd)) as [rt|]; [|discriminate].
  simpl in Hd.
  unfold take_axis1_0 at 1 in Hd.
  destruct (0 <? dim1 dph); [|discriminate]. simpl in Hd.
  unfold div_by_column at 1 in Hd. cbn [nrows ncols mget] in Hd.
  destruct (bdim (dim0 dph) (length comovd)) as [rp|]; [|discriminate].
  simpl in Hd.
  unfold stack4 in Hd.
  match type of Hd with
  | (if ?b then _ else _) = _ => destruct b; [|discriminate]
  end.
  inversion Hd; subst r; clear Hd.
  exists sky, dth, dph, d_x. cbn [dim0 dim1 dim2 tget nrows ncols mget].
  repeat split; auto.
Qed.

(** What the steps of one tensor need to succeed. *)
Lemma tensor_update_needs (kw : option bool) (numz l : nat) (g : matrix K)
    (c : tensor3 K) (a a' : array4 K) :
  tensor_update kw numz l g c a = Ok a' ->
  l < dim0 c /\ 0 < dim1 c /\ 0 < dim2 c
  /\ broadcastable (dim1 c) numz /\ broadcastable (dim2 c) numz
  /\ fits (ncols g) (Nat.min (l + 1) (adim3 a)) = true.
Proof.
  intros Hu. apply tensor_update_Ok in Hu.
  destruct Hu as (cl & corrm & trans & x & Hcl & Hcm & _ & Hx & Ha).
  unfold tensor_row in Hcl. destruct (l <? dim0 c) eqn:El; [|discriminate].
  apply Nat.ltb_lt in El. inversion Hcl; subst cl; clear Hcl.
  unfold regularized in Hcm.
  destruct (np_max _) as [mx|] eqn:Emx; [|discriminate]. simpl in Hcm.
  unfold broadcast_add in Hcm. cbn [nrows ncols mscale identity] in Hcm.
  destruct (bdim (dim1 c) numz) as [r1|] eqn:B1; [|discriminate].
  simpl in Hcm.
  destruct (bdim (dim2 c) numz) as [r2|] eqn:B2; [|discriminate].
  unfold diagonal in Emx. cbn [nrows ncols] in Emx.
  assert (Hmin : 0 < Nat.min (dim1 c) (dim2 c)).
  { destruct (Nat.min (dim1 c) (dim2 c)); [discriminate Emx|lia]. }
  unfold np_dot in Hx. destruct (ncols trans =? nrows g); [|discriminate].
  inversion Hx; subst x; clear Hx.
  unfold assign_alm in Ha. cbn [nrows ncols] in Ha.
  destruct ((0 <? adim1 a) && (l <? adim2 a)); [|discriminate].
  destruct (fits (nrows trans) (adim0 a)); [|discriminate]. simpl in Ha.
  destruct (fits (ncols g) (Nat.min (l + 1) (adim3 a))) eqn:Ef; [|discriminate].
  repeat split; try lia; eauto using bdim_Ok.
Qed.

Lemma tensor_alm_needs (kw : option bool) (numz maxl1 : nat)
    (gs : list (matrix K)) (c : tensor3 K) (a : array4 K) :
  length gs = maxl1 ->
  tensor_alm kw numz maxl1 (combine (seq 0 maxl1) gs) c = Ok a ->
  forall l g, nth_error gs l = Some g ->
    l < dim0 c /\ 0 < dim1 c /\ 0 < dim2 c
    /\ broadcastable (dim1 c) numz /\ broadcastable (dim2 c) numz
    /\ fits (ncols g) (l + 1) = true.
Proof.
  unfold tensor_alm. intros Hlen Hr l g Hg.
  assert (Hl : l < maxl1) by (rewrite <- Hlen; apply nth_error_Some; congruence).
  pose (Inv := fun a : array4 K => adim3 a = maxl1).
  pose (post := fun (lg : nat * matrix K) (_ : array4 K) =>
    fst lg < dim0 c /\ 0 < dim1 c /\ 0 < dim2 c
    /\ broadcastable (dim1 c) numz /\ broadcastable (dim2 c) numz
    /\ (fst lg < maxl1 -> fits (ncols (snd lg)) (fst lg + 1) = true)).
  assert (Hpost : post (l, g) a).
  { apply (@rfor_post _ _
             (fun alm lg => tensor_update kw numz (fst lg) (snd lg) c alm)
             Inv post (fun _ _ => True))
      with (xs := combine (seq 0 maxl1) gs) (s := zeros4 numz 1 maxl1 maxl1).
    - intros s lg s' I3 Hu. apply tensor_update_Ok in Hu.
      destruct Hu as (cl & corrm & trans & x & _ & _ & _ & _ & Ha).
      apply assign_alm_Ok in Ha.
      destruct Ha as (_ & _ & _ & _ & _ & E3 & _). unfold Inv in *. congruence.
    - intros s lg s' I3 Hu. apply tensor_update_needs in Hu.
      destruct Hu as (N1 & N2 & N3 & N4 & N5 & N6).
      unfold post. repeat split; auto.
      intros Hlt. unfold Inv in I3. rewrite I3 in N6.
      replace (Nat.min (fst lg + 1) maxl1) with (fst lg + 1) in N6 by lia.
      exact N6.
    - intros s lg lg' s' _ _ _ Hp. exact Hp.
    - reflexivity.
    - clear. generalize (combine (seq 0 maxl1) gs).
      intros xs. induction xs; constructor; auto.
      apply Forall_forall. auto.
    - exact Hr.
    - now apply in_combine_seq_nth. }
  destruct Hpost as (P1 & P2 & P3 & P4 & P5 & P6). simpl in *.
  repeat split; auto.
Qed.

End SynthesisNeeds.

(** X3: a run of either synthesis function on a given noise list, whatever
    its outcome, leaves the random source as it found it and records no
    draw. *)
Theorem given_noise_draws_nothing (K G : Type) (SK : Scalar K)
    (CK : Collaborators K G) (corr : corr_arg K) (nside : Z)
    (comovd : list K) (alms : bool) (gl : list (matrix K)) :
  draws_nothing (mkfullsky corr nside alms (Some gl))
  /\ draws_nothing (mkfullsky_der1 corr nside comovd alms (Some gl)).
Proof.
  split.
  - unfold mkfullsky. apply draws_nothing_bind;
      [apply alm_lists_given_quiet|].
    intros alm_list. apply mkfullsky_tail_quiet.
  - unfold mkfullsky_der1. apply draws_nothing_bind;
      [apply alm_lists_given_quiet|].
    intros alm_list. apply mkfullsky_der1_tail_quiet.
Qed.

(** X4: on a given noise list the outcome of either synthesis function, the
    result or the exception, is the same whatever the state of the random
    source and whatever calls were made before. *)
Theorem given_noise_world_independent (K G : Type) (SK : Scalar K)
    (CK : Collaborators K G) (corr : corr_arg K) (nside : Z)
    (comovd : list K) (alms : bool) (gl : list (matrix K)) :
  world_independent (mkfullsky corr nside alms (Some gl))
  /\ world_independent (mkfullsky_der1 corr nside comovd alms (Some gl)).
Proof.
  split.
  - unfold mkfullsky. apply world_independent_bind;
      [apply alm_lists_given_quiet|].
    intros alm_list. apply mkfullsky_tail_quiet.
  - unfold mkfullsky_der1. apply world_independent_bind;
      [apply alm_lists_given_quiet|].
    intros alm_list. apply mkfullsky_der1_tail_quiet.
Qed.

(** X5: the noise that a run of [mkfullsky] without a noise list draws, one
    array for each multipole of the first tensor, reproduces the outcome of
    that run when it is passed as [gaussvars_list], in any world. *)
Theorem mkfullsky_noise_replay (K G : Type) (SK : Scalar K)
    (CK : Collaborators K G) (corr : corr_arg K) (nside : Z) (alms : bool)
    (w : world K G) (c0 : tensor3 K) (gs : list (matrix K)) (r' : G) :
  nth_error (as_list corr) 0 = Some c0 ->
  noise None (dim1 c0) (seq 0 (dim0 c0)) (rng w) = (Ok gs, r') ->
  forall w2,
    fst (mkfullsky corr nside alms (Some gs) w2)
    = fst (mkfullsky corr nside alms None w).
Proof.
  intros Hc0 Hn w2. unfold mkfullsky.
  apply fst_bind_eq; [|intros alm_list; apply mkfullsky_tail_quiet].
  unfold alm_lists, bind, lift.
  destruct (as_list corr) as [|c rest]; [discriminate|].
  simpl in Hc0. inversion Hc0; subst c; clear Hc0.
  change (getitem (c0 :: rest) 0) with (Ok c0). cbv beta iota.
  destruct (negb (dim2 c0 =? dim1 c0)); [reflexivity|].
  apply (@outer_loop_replay _ _ _ _ (Some true) (c0 :: rest) (dim1 c0) (dim0 c0)
           0 [] gs _ w w2 r' Hn eq_refl).
Qed.

Lemma mkfullsky_noise_replay_witness :
  fst (mkfullsky (CorrList [tensor_a; tensor_b]) 1 false
         (Some [fst (counter_normal (2, 1) 0); fst (counter_normal (2, 2) 1)])
         world0)
  = fst (mkfullsky (CorrList [tensor_a; tensor_b]) 1 false None world0).
Proof.
  apply (@mkfullsky_noise_replay Qc nat _ _ (CorrList [tensor_a; tensor_b])
           1%Z false world0 tensor_a
           [fst (counter_normal (2, 1) 0); fst (counter_normal (2, 2) 1)] 2).
  - reflexivity.
  - reflexivity.
Defined.

(** X6: either synthesis function returns only if the first tensor is square
    in its coordinate axes, every tensor has at least the multipoles of the
    first, coordinate axes that are not empty and that broadcast against the
    coordinate count of the first, and a given noise list has an array for
    every multipole, with [l + 1] columns or one, for the multipole [l]. *)
Theorem synthesis_returns_only_if (K G : Type) (SK : Scalar K)
    (CK : Collaborators K G) (corr : corr_arg K) (nside : Z)
    (comovd : list K) (alms : bool) (gl : option (list (matrix K)))
    (w : world K G) :
  returns (fst (mkfullsky corr nside alms gl w)) = true
  \/ returns (fst (mkfullsky_der1 corr nside comovd alms gl w)) = true ->
  exists c0,
    nth_error (as_list corr) 0 = Some c0
    /\ dim2 c0 = dim1 c0
    /\ (forall gs, gl = Some gs ->
          dim0 c0 <= length gs
          /\ forall l g, l < dim0 c0 -> nth_error gs l = Some g ->
               ncols g = l + 1 \/ ncols g = 1)
    /\ forall c, In c (as_list corr) ->
         dim0 c0 <= dim0 c
         /\ (0 < dim0 c0 ->
             0 < dim1 c /\ 0 < dim2 c
             /\ broadcastable (dim1 c) (dim1 c0)
             /\ broadcastable (dim2 c) (dim1 c0)).
Proof.
  intros Hret.
  assert (Hal : exists kw out w', alm_lists kw corr gl w = (Ok out, w')).
  { destruct Hret as [Hret|Hret].
    - destruct (mkfullsky corr nside alms gl w) as [[r|e] w'] eqn:E;
        [|discriminate].
      destruct (mkfullsky_run_Ok _ _ _ _ _ E) as (out & Hout & _). eauto.
    - destruct (mkfullsky_der1 corr nside comovd alms gl w) as [[r|e] w'] eqn:E;
        [|discriminate].
      destruct (mkfullsky_der1_Ok _ _ _ _ _ _ E) as (out & Hout & _). eauto. }
  destruct Hal as (kw & out & w' & Hal).
  destruct (alm_lists_Ok _ _ _ _ Hal)
    as (c0 & rest & gs & Hcorr & Hsq & Hn & Hlg & _ & _ & Hnth).
  exists c0. rewrite Hcorr in *. split; [reflexivity|]. split; [exact Hsq|].
  assert (Hfirst : nth_error (c0 :: rest) 0 = Some c0) by reflexivity.
  destruct (Hnth 0 c0 Hfirst) as (a0 & _ & Ha0).
  split.
  - intros gl' ->. apply noise_given_Ok in Hn. destruct Hn as (_ & _ & Hgl).
    split.
    + destruct (Nat.le_gt_cases (dim0 c0) (length gl')) as [Hle|Hgt];
        [exact Hle|].
      destruct (nth_error gs (length gl')) as [g|] eqn:Eg.
      * apply Hgl in Eg. simpl in Eg.
        assert (length gl' < length gl') by (apply nth_error_Some; congruence).
        lia.
      * apply nth_error_None in Eg. lia.
    + intros l g Hl Hg.
      destruct (nth_error gs l) as [g'|] eqn:Eg;
        [|apply nth_error_None in Eg; lia].
      pose proof (Hgl _ _ Eg) as Hg'. simpl in Hg'.
      assert (g' = g) by congruence. subst g'.
      destruct (@tensor_alm_needs _ _ _ _ kw (dim1 c0) (dim0 c0) gs c0 a0 Hlg Ha0 l g Eg) as (_ & _ & _ & _ & _ & Hf).
      unfold fits in Hf. apply orb_true_iff in Hf.
      destruct Hf as [Hf|Hf]; apply Nat.eqb_eq in Hf; auto.
  - intros c Hc. apply In_nth_error in Hc. destruct Hc as (ii & Hii).
    destruct (Hnth ii c Hii) as (a & _ & Ha).
    split.
    + destruct (Nat.le_gt_cases (dim0 c0) (dim0 c)) as [Hle|Hgt];
        [exact Hle|].
      destruct (nth_error gs (dim0 c)) as [g|] eqn:Eg;
        [|apply nth_error_None in Eg; lia].
      destruct (@tensor_alm_needs _ _ _ _ kw (dim1 c0) (dim0 c0) gs c a Hlg Ha
                  (dim0 c) g Eg) as (Hl & _).
      lia.
    + intros Hpos.
      destruct (nth_error gs 0) as [g|] eqn:Eg;
        [|apply nth_error_None in Eg; lia].
      destruct (@tensor_alm_needs _ _ _ _ kw (dim1 c0) (dim0 c0) gs c a Hlg Ha 0 g Eg)
        as (_ & N2 & N3 & N4 & N5 & _).
      auto.
Qed.

Lemma synthesis_returns_only_if_witness :
  exists c0,
    nth_error [tensor_a; tensor_small] 0 = Some c0
    /\ forall c, In c [tensor_a; tensor_small] ->
         dim0 c0 <= dim0 c
         /\ (0 < dim0 c0 -> broadcastable (dim1 c) (dim1 c0)).
Proof.
  destruct (@synthesis_returns_only_if Qc nat _ _
              (CorrList [tensor_a; tensor_small]) 1%Z [qc 1; qc 2] true None
              world0) as (c0 & Hc0 & _ & _ & Hall).
  - left. vm_compute. reflexivity.
  - exists c0. split; [exact Hc0|].
    intros c Hc. destruct (Hall c Hc) as (Hd & Hb). split; [exact Hd|].
    intros Hpos. now destruct (Hb Hpos) as (_ & _ & Hb1 & _).
Defined.

Section SynthesisOutputs.

Context {K G : Type} `{Scalar K} `{Collaborators K G}.

Lemma alms_output_Ok (kw : option bool) (corr : corr_arg K) (nside : Z)
    (comovd : list K) (alms : bool) (gl : option (list (matrix K)))
    (w w' : world K G) (o : output (array4 K)) :
  (kw = Some true /\ mkfullsky corr nside alms gl w = (Ok (Alms o), w'))
  \/ (kw = None
      /\ mkfullsky_der1 corr nside comovd alms gl w = (Ok (AlmsDer1 o), w')) ->
  exists out,
    alm_lists kw corr gl w = (Ok out, w') /\ pack (length out) out = Ok o.
Proof.
  intros [[-> Hrun]|[-> Hrun]].
  - destruct (mkfullsky_run_Ok _ _ _ _ _ Hrun) as (out & Hout & Hp).
    exists out. split; [exact Hout|]. now apply Hp.
  - destruct (mkfullsky_der1_Ok _ _ _ _ _ _ Hrun) as (out & Hout & Hp).
    exists out. split; [exact Hout|].
    destruct alms.
    + destruct Hp as (o' & Ho & Hp). now inversion Ho; subst.
    + destruct Hp as (rs & o' & Ho & _). discriminate.
Qed.

Lemma root_mats_of_synthesis (kw : option bool) (corr : list (tensor3 K))
    (numz : nat) (ls : list nat) :
  map (@rc_mat K) (flat_map (fun l => map (root_call_for kw numz l) corr) ls)
  = flat_map
      (fun l => map (fun c => rc_mat (root_call_for None numz l c)) corr) ls.
Proof.
  induction ls as [|l ls IH]; simpl; [reflexivity|].
  rewrite map_app, IH, map_map. reflexivity.
Qed.

End SynthesisOutputs.

(** X7: the arrays of coefficients that either synthesis function returns
    with [alms=True] have the shape [(numz, 1, maxl + 1, maxl + 1)] of the
    first tensor, whatever the shapes of the other tensors, and are zero at
    every order [m] above the degree [l]. *)
Theorem alm_arrays_shape (K G : Type) (SK : Scalar K)
    (CK : Collaborators K G) (corr : corr_arg K) (nside : Z)
    (comovd : list K) (alms : bool) (gl : option (list (matrix K)))
    (w w' : world K G) (o : output (array4 K)) :
  mkfullsky corr nside alms gl w = (Ok (Alms o), w')
  \/ mkfullsky_der1 corr nside comovd alms gl w = (Ok (AlmsDer1 o), w') ->
  exists c0,
    nth_error (as_list corr) 0 = Some c0
    /\ forall ii c, nth_error (as_list corr) ii = Some c ->
         exists a,
           output_nth o ii = Some a
           /\ adim0 a = dim1 c0 /\ adim1 a = 1
           /\ adim2 a = dim0 c0 /\ adim3 a = dim0 c0
           /\ forall z l m, l < m -> aget a z 0 l m = zero.
Proof.
  intros Hrun.
  assert (Hal : exists kw out,
             alm_lists kw corr gl w = (Ok out, w')
             /\ pack (length out) out = Ok o).
  { destruct Hrun as [Hrun|Hrun].
    - exists (Some true).
      apply (@alms_output_Ok _ _ _ _ (Some true) corr nside comovd alms gl w w' o).
      left. auto.
    - exists None.
      apply (@alms_output_Ok _ _ _ _ None corr nside comovd alms gl w w' o).
      right. auto. }
  destruct Hal as (kw & out & Hal & Hp).
  destruct (alm_lists_Ok _ _ _ _ Hal)
    as (c0 & rest & gs & Hcorr & _ & _ & _ & _ & _ & Hnth).
  apply pack_Ok in Hp. destruct Hp as [Ho _].
  exists c0. split; [now rewrite Hcorr|].
  intros ii c Hii. destruct (Hnth ii c Hii) as (a & Ha & Ht).
  exists a. rewrite Ho. split; [exact Ha|].
  apply tensor_alm_shape in Ht. destruct Ht as (D0 & D1 & D2 & D3 & Hz).
  repeat split; auto.
Qed.

Lemma alm_arrays_shape_witness :
  exists o w',
    mkfullsky (CorrList [tensor_a; tensor_small]) 1 true None world0
    = (Ok (Alms o), w')
    /\ forall ii c, nth_error [tensor_a; tensor_small] ii = Some c ->
         exists a,
           output_nth o ii = Some a /\ adim0 a = 2 /\ adim3 a = 2
           /\ aget a 0 0 0 1 = zero.
Proof.
  assert (Hret : match fst (mkfullsky (CorrList [tensor_a; tensor_small]) 1 true
                              None world0) with
                 | Ok (Alms _) => true
                 | _ => false
                 end = true)
    by (vm_compute; reflexivity).
  destruct (mkfullsky (CorrList [tensor_a; tensor_small]) 1 true None world0)
    as [[[o|s]|e] w'] eqn:E; try discriminate Hret.
  exists o, w'. split; [reflexivity|].
  destruct (@alm_arrays_shape Qc nat _ _ (CorrList [tensor_a; tensor_small])
              1%Z [] true None world0 w' o (or_introl E)) as (c0 & Hc0 & Hall).
  simpl in Hc0. inversion Hc0; subst c0; clear Hc0.
  intros ii c Hii. destruct (Hall ii c Hii) as (a & Ha & D0 & _ & _ & D3 & Hz).
  exists a. repeat split; auto.
Defined.

(** X8: in the arrays that either synthesis function returns with
    [alms=True], the entry of the slice [z], the degree [l] and the order
    [m <= l] is the product of the row [z] of the factor of the tensor's
    matrix [l] with the column [m] of the noise of the multipole [l]; the
    noise is the one drawn or given for [l], the same for every tensor. *)
Theorem alm_arrays_values (K G : Type) (SK : Scalar K)
    (CK : Collaborators K G) (kw : option bool) (corr : corr_arg K)
    (nside : Z) (comovd : list K) (alms : bool)
    (gl : option (list (matrix K))) (w w' : world K G)
    (o : output (array4 K)) :
  (kw = Some true /\ mkfullsky corr nside alms gl w = (Ok (Alms o), w'))
  \/ (kw = None
      /\ mkfullsky_der1 corr nside comovd alms gl w = (Ok (AlmsDer1 o), w')) ->
  exists c0 gs,
    nth_error (as_list corr) 0 = Some c0
    /\ noise gl (dim1 c0) (seq 0 (dim0 c0)) (rng w) = (Ok gs, rng w')
    /\ length gs = dim0 c0
    /\ forall ii c l g,
         nth_error (as_list corr) ii = Some c -> nth_error gs l = Some g ->
         exists a,
           output_nth o ii = Some a /\ alm_written kw (dim1 c0) c l g a.
Proof.
  intros Hrun. apply alms_output_Ok in Hrun.
  destruct Hrun as (out & Hal & Hp).
  destruct (alm_lists_Ok _ _ _ _ Hal)
    as (c0 & rest & gs & Hcorr & _ & Hn & Hlg & _ & _ & Hnth).
  apply pack_Ok in Hp. destruct Hp as [Ho _].
  exists c0, gs. split; [now rewrite Hcorr|]. split; [exact Hn|].
  split; [exact Hlg|].
  intros ii c l g Hii Hg. destruct (Hnth ii c Hii) as (a & Ha & Ht).
  exists a. rewrite Ho. split; [exact Ha|].
  exact (@tensor_alm_values _ _ _ _ kw (dim1 c0) (dim0 c0) gs c a Hlg Ht l g Hg).
Qed.

Lemma alm_arrays_values_witness :
  exists o w' gs,
    mkfullsky_der1 (CorrList [tensor_a; tensor_b]) 1 [qc 1; qc 2] true
      (Some noise_given) world0 = (Ok (AlmsDer1 o), w')
    /\ length gs = 2
    /\ forall ii c l g,
         nth_error [tensor_a; tensor_b] ii = Some c ->
         nth_error gs l = Some g ->
         exists a, output_nth o ii = Some a /\ alm_written None 2 c l g a.
Proof.
  assert (Hret : match fst (mkfullsky_der1 (CorrList [tensor_a; tensor_b]) 1
                              [qc 1; qc 2] true (Some noise_given) world0) with
                 | Ok (AlmsDer1 _) => true
                 | _ => false
                 end = true)
    by (vm_compute; reflexivity).
  destruct (mkfullsky_der1 (CorrList [tensor_a; tensor_b]) 1 [qc 1; qc 2] true
              (Some noise_given) world0) as [[[o|s]|e] w'] eqn:E;
    try discriminate Hret.
  destruct (@alm_arrays_values Qc nat _ _ None (CorrList [tensor_a; tensor_b])
              1%Z [qc 1; qc 2] true (Some noise_given) world0 w' o
              (or_intror (conj eq_refl E)))
    as (c0 & gs & Hc0 & _ & Hlen & Hall).
  simpl in Hc0. inversion Hc0; subst c0; clear Hc0.
  exists o, w', gs. split; [reflexivity|]. split; [exact Hlen|]. exact Hall.
Defined.

(** X9: a run of either synthesis function that returns has called the
    factorisation once for every multipole of the first tensor and every
    tensor, [(maxl + 1) * ncorr] times, and has made no other call than
    these and one draw for each multipole when no noise list is given. *)
Theorem synthesis_call_count (K G : Type) (SK : Scalar K)
    (CK : Collaborators K G) (corr : corr_arg K) (nside : Z)
    (comovd : list K) (alms : bool) (gl : option (list (matrix K)))
    (w w' : world K G) :
  (exists r, mkfullsky corr nside alms gl w = (Ok r, w'))
  \/ (exists r, mkfullsky_der1 corr nside comovd alms gl w = (Ok r, w')) ->
  exists c0 tr,
    nth_error (as_list corr) 0 = Some c0
    /\ calls w' = calls w ++ tr
    /\ length (root_calls_in tr) = dim0 c0 * length (as_list corr)
    /\ length (draws_in tr) = (if is_drawn gl then dim0 c0 else 0)
    /\ length tr = length (root_calls_in tr) + length (draws_in tr).
Proof.
  intros Hrun.
  assert (Hal : exists kw out, alm_lists kw corr gl w = (Ok out, w')).
  { destruct Hrun as [[r Hrun]|[r Hrun]].
    - destruct (mkfullsky_run_Ok _ _ _ _ _ Hrun) as (out & Hout & _). eauto.
    - destruct (mkfullsky_der1_Ok _ _ _ _ _ _ Hrun) as (out & Hout & _). eauto. }
  destruct Hal as (kw & out & Hal).
  destruct (alm_lists_Ok _ _ _ _ Hal)
    as (c0 & rest & gs & Hcorr & _ & _ & _ & Hcalls & _ & _).
  exists c0, (synthesis_calls kw (as_list corr) (is_drawn gl) (dim1 c0)
                (seq 0 (dim0 c0))).
  split; [now rewrite Hcorr|]. split; [exact Hcalls|].
  assert (Hr : length (root_calls_in
                 (synthesis_calls kw (as_list corr) (is_drawn gl) (dim1 c0)
                    (seq 0 (dim0 c0))))
               = dim0 c0 * length (as_list corr)).
  { rewrite root_calls_in_synthesis.
    rewrite (@length_flat_map_const _ _ _ (seq 0 (dim0 c0))
               (length (as_list corr)))
      by (intros l; apply length_map).
    now rewrite length_seq. }
  assert (Hd : length (draws_in
                 (synthesis_calls kw (as_list corr) (is_drawn gl) (dim1 c0)
                    (seq 0 (dim0 c0))))
               = if is_drawn gl then dim0 c0 else 0).
  { rewrite draws_in_synthesis.
    destruct (is_drawn gl); [now rewrite length_map, length_seq|reflexivity]. }
  split; [exact Hr|]. split; [exact Hd|].
  rewrite Hr, Hd. unfold synthesis_calls.
  rewrite (@length_flat_map_const _ _ _ (seq 0 (dim0 c0))
             (length (as_list corr) + if is_drawn gl then 1 else 0)).
  - rewrite length_seq. destruct (is_drawn gl); nia.
  - intros l. unfold multipole_calls. rewrite length_app, length_map.
    destruct (is_drawn gl); simpl; lia.
Qed.

Lemma synthesis_call_count_witness :
  exists tr,
    calls (snd (mkfullsky_der1 (CorrList [tensor_a; tensor_b; tensor_a]) 1
                  [qc 1; qc 2] false None world0)) = calls world0 ++ tr
    /\ length (root_calls_in tr) = 2 * 3
    /\ length (draws_in tr) = 2.
Proof.
  assert (Hret : returns (fst (mkfullsky_der1
                                 (CorrList [tensor_a; tensor_b; tensor_a]) 1
                                 [qc 1; qc 2] false None world0)) = true)
    by (vm_compute; reflexivity).
  destruct (mkfullsky_der1 (CorrList [tensor_a; tensor_b; tensor_a]) 1
              [qc 1; qc 2] false None world0) as [[r|e] w'] eqn:E;
    [|discriminate Hret].
  destruct (@synthesis_call_count Qc nat _ _
              (CorrList [tensor_a; tensor_b; tensor_a]) 1%Z [qc 1; qc 2] false
              None world0 w' (or_intror (ex_intro _ r E)))
    as (c0 & tr & Hc0 & Hcalls & Hroots & Hdraws & _).
  simpl in Hc0. inversion Hc0; subst c0; clear Hc0.
  exists tr. split; [exact Hcalls|]. split; [exact Hroots|exact Hdraws].
Defined.

(** X10: on an empty list of tensors both synthesis functions raise the
    [IndexError] of [corr[0]] at once, whatever the other arguments: nothing
    is drawn and nothing is called. *)
Theorem synthesis_empty_list_raises (K G : Type) (SK : Scalar K)
    (CK : Collaborators K G) (corr : corr_arg K) (nside : Z)
    (comovd : list K) (alms : bool) (gl : option (list (matrix K)))
    (w : world K G) :
  as_list corr = [] ->
  mkfullsky corr nside alms gl w = (Raise IndexError, w)
  /\ mkfullsky_der1 corr nside comovd alms gl w = (Raise IndexError, w).
Proof.
  intros Hcorr.
  unfold mkfullsky, mkfullsky_der1, alm_lists, bind, lift.
  rewrite Hcorr. split; reflexivity.
Qed.

Lemma synthesis_empty_list_raises_witness :
  mkfullsky (CorrList []) 1 false (Some noise_given) world0
  = (Raise IndexError, world0)
  /\ mkfullsky_der1 (CorrList []) 1 [qc 1] false (Some noise_given) world0
     = (Raise IndexError, world0).
Proof.
  apply (@synthesis_empty_list_raises Qc nat _ _ (CorrList []) 1%Z [qc 1] false
           (Some noise_given) world0).
  reflexivity.
Defined.

(** X11: when the second covariance axis of the first (or only) tensor does
    not match the coordinate count, [mkfullsky_der1] raises its exception at
    once, whatever the distances and the noise list: no noise is drawn, no
    factorisation is called and nothing is returned. *)
Theorem mkfullsky_der1_first_tensor_shape (K G : Type) (SK : Scalar K)
    (CK : Collaborators K G) (corr : corr_arg K) (nside : Z)
    (comovd : list K) (alms : bool) (gl : option (list (matrix K)))
    (w : world K G) (c0 : tensor3 K) :
  nth_error (as_list corr) 0 = Some c0 ->
  dim2 c0 <> dim1 c0 ->
  mkfullsky_der1 corr nside comovd alms gl w
  = (Raise (Exception "Correlation matrix is incorrect shape."), w).
Proof.
  intros Hc0 Hne.
  unfold mkfullsky_der1, alm_lists, bind, lift, raise.
  destruct (as_list corr) as [|c rest]; [discriminate|].
  simpl in Hc0. inversion Hc0; subst c; clear Hc0.
  change (getitem (c0 :: rest) 0) with (Ok c0). cbv beta iota.
  apply Nat.eqb_neq in Hne. rewrite Hne. reflexivity.
Qed.

Lemma mkfullsky_der1_first_tensor_shape_witness :
  mkfullsky_der1 (CorrList [tensor_wide; tensor_a]) 1 [qc 1; qc 2] false None
    world0
  = (Raise (Exception "Correlation matrix is incorrect shape."), world0).
Proof.
  apply (@mkfullsky_der1_first_tensor_shape Qc nat _ _
           (CorrList [tensor_wide; tensor_a]) 1%Z [qc 1; qc 2] false None world0
           tensor_wide).
  - reflexivity.
  - simpl. lia.
Defined.



(** X13: a run of [mkfullsky_der1] with [alms=False] that returns gives, for
    the tensor at every position, an array of four maps computed from the
    coefficients of that tensor: the maps of the synthesis, its two angular
    derivatives divided slice by slice by the distances, and the gradient of
    the maps along the distances; a bare array for one tensor and a list of
    the length of the input otherwise. *)
Theorem mkfullsky_der1_maps (K G : Type) (SK : Scalar K)
    (CK : Collaborators K G) (corr : corr_arg K) (nside : Z)
    (comovd : list K) (gl : option (list (matrix K)))
    (w : world K G) (r : fullsky_der1 K) (w' : world K G) :
  mkfullsky_der1 corr nside comovd false gl w = (Ok r, w') ->
  exists o c0 gs,
    r = MapsDer1 o
    /\ nth_error (as_list corr) 0 = Some c0
    /\ noise gl (dim1 c0) (seq 0 (dim0 c0)) (rng w) = (Ok gs, rng w')
    /\ listed_length o
       = (if length (as_list corr) =? 1 then None
          else Some (length (as_list corr)))
    /\ forall ii c, nth_error (as_list corr) ii = Some c ->
         exists a m,
           tensor_alm None (dim1 c0) (dim0 c0)
             (combine (seq 0 (dim0 c0)) gs) c = Ok a
           /\ output_nth o ii = Some m
           /\ der1_maps nside comovd a m.
Proof.
  intros Hrun.
  destruct (mkfullsky_der1_Ok _ _ _ _ _ _ Hrun)
    as (out & Hal & rs & o & Hr & Hrs & Hp).
  destruct (alm_lists_Ok _ _ _ _ Hal)
    as (c0 & rest & gs & Hcorr & _ & Hn & _ & _ & Hlen & Hnth).
  apply pack_Ok in Hp. destruct Hp as [Ho Hl].
  assert (Hls : length rs = length out) by (eapply rmap_length; eauto).
  exists o, c0, gs. split; [exact Hr|]. split; [now rewrite Hcorr|].
  split; [exact Hn|]. split; [now rewrite Hl, Hls, Hlen|].
  intros ii c Hii. destruct (Hnth ii c Hii) as (a & Ha & Ht).
  destruct (rmap_nth _ _ _ Hrs Ha) as (m & Hm & Hd).
  exists a, m. split; [exact Ht|]. split; [now rewrite Ho|].
  now apply der1_of_Ok.
Qed.

Lemma mkfullsky_der1_maps_witness :
  exists o w',
    mkfullsky_der1 (CorrList [tensor_a; tensor_b]) 1 [qc 1; qc 2] false None
      world0 = (Ok (MapsDer1 o), w')
    /\ listed_length o = Some 2
    /\ forall ii c, nth_error [tensor_a; tensor_b] ii = Some c ->
         exists m, output_nth o ii = Some m /\ dim0 m = 4.
Proof.
  assert (Hret : returns (fst (mkfullsky_der1 (CorrList [tensor_a; tensor_b]) 1
                                 [qc 1; qc 2] false None world0)) = true)
    by (vm_compute; reflexivity).
  destruct (mkfullsky_der1 (CorrList [tensor_a; tensor_b]) 1 [qc 1; qc 2] false
              None world0) as [[r|e] w'] eqn:E; [|discriminate Hret].
  destruct (@mkfullsky_der1_maps Qc nat _ _ (CorrList [tensor_a; tensor_b]) 1%Z
              [qc 1; qc 2] None world0 r w' E)
    as (o & c0 & gs & Hr & _ & _ & Hlen & Hall).
  subst r. exists o, w'. split; [reflexivity|]. split; [exact Hlen|].
  intros ii c Hii. destruct (Hall ii c Hii) as (a & m & _ & Hm & Hd).
  exists m. split; [exact Hm|].
  destruct Hd as (sky & dth & dph & dx & _ & _ & D0 & _). exact D0.
Defined.

(** X14: on the same input and from the same world, runs of [mkfullsky] and
    of [mkfullsky_der1] that return have used the same noise, have left the
    random source in the same state, have drawn the same shapes and have
    handed the same matrices to the factorisation in the same order. *)
Theorem synthesis_functions_draw_alike (K G : Type) (SK : Scalar K)
    (CK : Collaborators K G) (corr : corr_arg K) (nside : Z)
    (comovd : list K) (alms alms' : bool) (gl : option (list (matrix K)))
    (w : world K G) (r1 : fullsky K) (r2 : fullsky_der1 K)
    (w1 w2 : world K G) :
  mkfullsky corr nside alms gl w = (Ok r1, w1) ->
  mkfullsky_der1 corr nside comovd alms' gl w = (Ok r2, w2) ->
  rng w1 = rng w2
  /\ exists tr1 tr2,
       calls w1 = calls w ++ tr1 /\ calls w2 = calls w ++ tr2
       /\ draws_in tr1 = draws_in tr2
       /\ map (@rc_mat K) (root_calls_in tr1)
          = map (@rc_mat K) (root_calls_in tr2).
Proof.
  intros H1 H2.
  destruct (mkfullsky_run_Ok _ _ _ _ _ H1) as (out1 & Hal1 & _).
  destruct (mkfullsky_der1_Ok _ _ _ _ _ _ H2) as (out2 & Hal2 & _).
  destruct (alm_lists_Ok _ _ _ _ Hal1)
    as (c0 & rest & gs & Hcorr & _ & Hn & _ & Hc & _ & _).
  destruct (alm_lists_Ok _ _ _ _ Hal2)
    as (c0' & rest' & gs' & Hcorr' & _ & Hn' & _ & Hc' & _ & _).
  assert (c0' = c0) by congruence. subst c0'.
  split; [congruence|].
  eexists _, _. split; [exact Hc|]. split; [exact Hc'|].
  rewrite !draws_in_synthesis, !root_calls_in_synthesis.
  split; [reflexivity|].
  now rewrite !root_mats_of_synthesis.
Qed.

Lemma synthesis_functions_draw_alike_witness :
  rng (snd (mkfullsky (CorrList [tensor_a; tensor_b]) 1 false None world0))
  = rng (snd (mkfullsky_der1 (CorrList [tensor_a; tensor_b]) 1 [qc 1; qc 2]
                true None world0)).
Proof.
  assert (Hret1 : returns (fst (mkfullsky (CorrList [tensor_a; tensor_b]) 1
                                  false None world0)) = true)
    by (vm_compute; reflexivity).
  assert (Hret2 : returns (fst (mkfullsky_der1 (CorrList [tensor_a; tensor_b])
                                  1 [qc 1; qc 2] true None world0)) = true)
    by (vm_compute; reflexivity).
  destruct (mkfullsky (CorrList [tensor_a; tensor_b]) 1 false None world0)
    as [[r1|e1] w1] eqn:E1; [|discriminate Hret1].
  destruct (mkfullsky_der1 (CorrList [tensor_a; tensor_b]) 1 [qc 1; qc 2] true
              None world0) as [[r2|e2] w2] eqn:E2; [|discriminate Hret2].
  exact (proj1 (@synthesis_functions_draw_alike Qc nat _ _
                  (CorrList [tensor_a; tensor_b]) 1%Z [qc 1; qc 2] false true
                  None world0 r1 r2 w1 w2 E1 E2)).
Defined.

(** ** The Constrained Projector and its constraints *)

Section ConstrainedNeeds.

Context {K : Type} `{Scalar K} `{Solvers K}.

Lemma norm_index_range (n : nat) (i : Z) (j : nat) :
  norm_index n i = Ok j -> (- Z.of_nat n <= i < Z.of_nat n)%Z /\ j < n.
Proof.
  unfold norm_index.
  destruct ((0 <=? i) && (i <? Z.of_nat n))%Z eqn:E1.
  - apply andb_true_iff in E1. destruct E1 as [E1 E2].
    apply Z.leb_le in E1. apply Z.ltb_lt in E2.
    intros Hj. inversion Hj; subst. lia.
  - destruct ((i <? 0) && (- Z.of_nat n <=? i))%Z eqn:E2; [|discriminate].
    apply andb_true_iff in E2. destruct E2 as [E2 E3].
    apply Z.ltb_lt in E2. apply Z.leb_le in E3.
    intros Hj. inversion Hj; subst. lia.
Qed.

Lemma norm_indices_range (n : nat) (idx : list Z) :
  forall js, norm_indices n idx = Ok js ->
    Forall (fun i => (- Z.of_nat n <= i < Z.of_nat n)%Z) idx
    /\ Forall (fun j => j < n) js.
Proof.
  induction idx as [|i idx IH]; intros js Hn; simpl in Hn.
  - inversion Hn; subst. split; constructor.
  - destruct (norm_index n i) as [j|] eqn:Ei; [|discriminate]. simpl in Hn.
    destruct (norm_indices n idx) as [js'|] eqn:Er; [|discriminate].
    simpl in Hn. inversion Hn; subst; clear Hn.
    destruct (norm_index_range _ _ Ei) as [Hi Hj].
    destruct (IH js' eq_refl) as [Hidx Hjs].
    split; constructor; auto.
Qed.

Lemma dot_sum_ext (n : nat) (f f' g : nat -> K) :
  (forall k, k < n -> f k = f' k) -> dot_sum n f g = dot_sum n f' g.
Proof.
  unfold dot_sum. intros Hf.
  assert (Hgen : forall ks acc, (forall k, In k ks -> k < n) ->
            fold_left (fun acc k => fadd acc (fmul (f k) (g k))) ks acc
            = fold_left (fun acc k => fadd acc (fmul (f' k) (g k))) ks acc).
  { induction ks as [|k ks IH]; intros acc Hks; simpl; [reflexivity|].
    rewrite (Hf k) by (apply Hks; now left).
    apply IH. intros k' Hk'. apply Hks. now right. }
  apply Hgen. intros k Hk. apply in_seq in Hk. lia.
Qed.

End ConstrainedNeeds.



(** X16: [mkconstrained] returns an array of [numz] rows and [npix] columns,
    and, for a tensor with at least one multipole, only if the tensor is
    square in its coordinate axes and every constrained slice index lies in
    [-numz, numz); with an eigensolver that returns [numz] eigenvectors and
    two coordinates or more, only if there are between one and [numz]
    constraints. *)
Theorem mkconstrained_returns_only_if (K : Type) (SK : Scalar K)
    (SV : Solvers K) (corr : tensor3 K) (constraints : list (Z * list K))
    (nside : Z) (hpmaps : matrix K) :
  mkconstrained corr constraints nside = Ok hpmaps ->
  dim2 corr = dim1 corr
  /\ nrows hpmaps = dim1 corr
  /\ ncols hpmaps = Z.to_nat (nside2npix nside)
  /\ (0 <= nside2npix nside)%Z
  /\ (0 < dim0 corr ->
      Forall (fun i => (- Z.of_nat (dim1 corr) <= i < Z.of_nat (dim1 corr))%Z)
             (map fst constraints)
      /\ (eigh_ascending -> 2 <= dim1 corr ->
          1 <= length constraints <= dim1 corr)).
Proof.
  unfold mkconstrained. intros Hrun. rbind_in Hrun st Est.
  destruct (mkconstrained_modes_Ok _ _ Est) as (Hsq & Hloop1 & _ & _).
  split; [exact Hsq|].
  assert (Hpix : (0 <= nside2npix nside)%Z).
  { unfold synthesize_slices in Hrun.
    destruct (nside2npix nside <? 0)%Z eqn:E; [discriminate|].
    apply Z.ltb_ge in E. exact E. }
  apply synthesize_slices_Ok in Hrun. destruct Hrun as (R & C & _).
  split; [exact R|]. split; [exact C|]. split; [exact Hpix|].
  intros Hpos. apply eigenmodes_loop in Hloop1.
  destruct Hloop1 as (_ & Hmodes).
  destruct (Hmodes 0 Hpos)
    as (cl & evals & evecs & js & Ecl & Ee & Ejs & F1 & _).
  rewrite Hsq in Ejs. split.
  - exact (proj1 (norm_indices_range _ _ Ejs)).
  - intros Hasc Hnumz.
    destruct (Hasc cl evals evecs Ee) as (_ & _ & Ce & _).
    assert (Hcl : nrows cl = dim1 corr).
    { unfold tensor_row in Ecl. destruct (0 <? dim0 corr); [|discriminate].
      now inversion Ecl. }
    rewrite Hcl in Ce.
    unfold transpose, last_cols in F1. cbn [nrows ncols] in F1.
    rewrite Ce in F1. unfold fits in F1.
    destruct (length constraints =? 0) eqn:E0.
    + apply Nat.eqb_eq in E0. rewrite E0 in F1.
      apply orb_true_iff in F1. destruct F1 as [F1|F1];
        apply Nat.eqb_eq in F1; lia.
    + apply Nat.eqb_neq in E0.
      apply orb_true_iff in F1. destruct F1 as [F1|F1];
        apply Nat.eqb_eq in F1; lia.
Qed.

Lemma mkconstrained_returns_only_if_witness :
  exists hpmaps,
    mkconstrained tensor_diag constraints_two 1 = Ok hpmaps
    /\ nrows hpmaps = 3 /\ ncols hpmaps = 12
    /\ 1 <= length constraints_two <= 3.
Proof.
  assert (Hret : returns (mkconstrained tensor_diag constraints_two 1) = true)
    by (vm_compute; reflexivity).
  destruct (mkconstrained tensor_diag constraints_two 1) as [hpmaps|e] eqn:E;
    [|discriminate Hret].
  destruct (@mkconstrained_returns_only_if Qc _ _ tensor_diag constraints_two
              1%Z hpmaps E) as (_ & R & C & _ & Hneeds).
  exists hpmaps. split; [reflexivity|]. split; [exact R|]. split; [exact C|].
  destruct Hneeds as [_ Hcount]; [simpl; lia|].
  apply (Hcount eigh_ascending_Qc). simpl. lia.
Defined.

(** X17: with an exact solver, in a run of [mkconstrained] that reaches the
    synthesis, every constrained slice carries the coefficients of its
    constraint map at every multipole [l > 0]: the coefficient [i] of the
    slice that the constraint [c] names, counted from the end when the index
    is negative, is the coefficient [i] of the analysed map of that
    constraint. *)
Theorem mkconstrained_reproduces_constraints (K : Type) (SK : Scalar K)
    (SV : Solvers K) (corr : tensor3 K) (constraints : list (Z * list K))
    (st : modes) (i l c : nat) (cons : Z * list K) :
  mkconstrained_modes corr constraints = Ok st ->
  solve_exact ->
  nth_error (fst (getlm (Z.of_nat (dim0 corr) - 1))) i = Some l ->
  0 < l -> l < dim0 corr ->
  nth_error constraints c = Some cons ->
  exists js a,
    norm_indices (dim1 corr) (map fst constraints) = Ok js
    /\ nth c js 0 < dim1 corr
    /\ map2alm (snd cons) (Z.of_nat (dim0 corr) - 1) = Ok a
    /\ nth_error a (bidx (length a) i)
       = Some (mget (cv_of st) (nth c js 0) i).
Proof.
  intros Hrun Hex Hi Hl0 Hl Hc.
  destruct (mkconstrained_modes_Ok _ _ Hrun) as (Hsq & Hloop1 & Hloop2 & Hloop3).
  apply eigenmodes_loop in Hloop1.
  destruct Hloop1 as ((T0 & T1 & T2 & M0 & M1 & M2) & Hmodes).
  destruct (Hmodes l Hl)
    as (cl & evals & evecs & js & _ & _ & Ejs & _ & _ & _ & Htmat).
  apply harmonic_loop in Hloop2. destruct Hloop2 as (C0 & C1 & Hcmap).
  apply project_loop in Hloop3. destruct Hloop3 as (V0 & V1 & Hcv).
  rewrite Hsq in *.
  pose proof (norm_indices_length _ _ Ejs) as Hjs. rewrite length_map in Hjs.
  assert (Hcn : c < length constraints) by (apply nth_error_Some; congruence).
  assert (Hjc : nth c js 0 < dim1 corr).
  { destruct (norm_indices_range _ _ Ejs) as [_ Hall].
    rewrite Forall_forall in Hall. apply Hall. apply nth_In. lia. }
  assert (Hil : i < length (fst (getlm (Z.of_nat (dim0 corr) - 1))))
    by (apply nth_error_Some; congruence).
  destruct (Hcv i l Hi) as [_ Hproj].
  destruct (Hproj ltac:(lia))
    as (t_l & m_l & ci & amplitude & v & Et & Em & Eci & Ea & Ev & Fv & Hget).
  unfold tensor_row in Et, Em. rewrite T0 in Et. rewrite M0 in Em.
  destruct (l <? dim0 corr); [|discriminate].
  inversion Et; subst t_l; clear Et. inversion Em; subst m_l; clear Em.
  unfold matrix_row in Eci. rewrite C0, C1 in Eci.
  destruct (i <? length (fst (getlm (Z.of_nat (dim0 corr) - 1))));
    [|discriminate].
  inversion Eci; subst ci; clear Eci.
  rewrite M1, M2 in Ea.
  destruct (Hex _ _ _ Ea) as [Hlen Hsol].
  cbn [transpose nrows ncols mget] in Hlen, Hsol.
  specialize (Hsol c Hcn). rewrite nth_map_seq in Hsol by exact Hcn.
  unfold np_dot_vec in Ev. cbn [transpose nrows ncols mget] in Ev.
  rewrite T1, T2 in Ev.
  destruct (length constraints =? length amplitude); [|discriminate].
  inversion Ev; subst v; clear Ev.
  rewrite length_map, length_seq in *.
  destruct (Hcmap c cons Hc) as (a & Ea' & Fa & Hget').
  exists js, a. split; [exact Ejs|]. split; [exact Hjc|].
  split; [exact Ea'|].
  rewrite Hget. rewrite (@bidx_in_range (dim1 corr) (nth c js 0) Hjc).
  rewrite nth_map_seq by exact Hjc.
  rewrite (@dot_sum_ext _ _ (length constraints)
             (fun k => tget (trans_of st) l k (nth c js 0))
             (fun k => tget (tmat_of st) l k c)).
  - rewrite Hsol, Hget'.
    apply nth_error_nth'. unfold fits in Fa.
    apply orb_true_iff in Fa. unfold bidx.
    destruct Fa as [Fa|Fa]; apply Nat.eqb_eq in Fa.
    + destruct (length a =? 1); lia.
    + rewrite Fa. simpl. lia.
  - intros k Hk. rewrite Htmat.
    now rewrite !bidx_in_range by lia.
Qed.

Lemma mkconstrained_reproduces_constraints_witness :
  exists st js a,
    mkconstrained_modes tensor_diag constraints_two = Ok st
    /\ norm_indices 3 [1; 2]%Z = Ok js
    /\ map2alm (repeat (qc 7) 12) 2 = Ok a
    /\ nth_error a (bidx (length a) 1) = Some (mget (cv_of st) (nth 1 js 0) 1).
Proof.
  assert (Hret : returns (mkconstrained_modes tensor_diag constraints_two) = true)
    by (vm_compute; reflexivity).
  destruct (mkconstrained_modes tensor_diag constraints_two) as [st|e] eqn:E;
    [|discriminate Hret].
  destruct (@mkconstrained_reproduces_constraints Qc _ _ tensor_diag
              constraints_two st 1 1 1 (2%Z, repeat (qc 7) 12) E solve_exact_Qc)
    as (js & a & Hjs & _ & Ha & Hval);
    [reflexivity | lia | simpl; lia | reflexivity |].
  exists st, js, a. split; [reflexivity|]. split; [exact Hjs|].
  split; [exact Ha|exact Hval].
Defined.
